(** * Manifold diffusion on SE(3): the core of [DDPM_Diff.py]

    A shallow embedding of [src/ManifoldDiff/DDPM_Diff.py] and the
    properties of its exponential and logarithm maps, noise schedules,
    forward corruption, loss and reverse sampler.

    Numbers.  A [torch] tensor of floats is modelled by real numbers and
    every [torch] operation by the exact operation on reals: [torch.sin]
    is [sin], [torch.acos] is [acos], [torch.sqrt] is [sqrt],
    [x.clamp(min=a)] is [Rmax x a].  Rounding is not modelled.

    Divisions.  The maps clamp their denominators; their divisions are
    the total division of the reals and [so3_maps_guarded] proves the
    denominators nonzero.  The constructor divides once, to build the
    schedule tables; these are total divisions as well.  The divisions
    of [sample] and the means of the losses have denominators that the
    source does not guard: they are checked divisions that yield
    [Err NonFinite] where IEEE arithmetic yields an infinity or a nan,
    which no later step of the sampler turns back into a number.

    Tensors.  A batch of shape [(B, L, ...)] is a function of the batch
    index and of the sequence index; its last axes are a record
    ([vec3], [mat3]).  Only the entries with [b < B] and [l < L] mean
    anything. *)

From Stdlib Require Import Reals Lra Lia Psatz List Bool Arith String RNsatz.
Import ListNotations.
Local Open Scope R_scope.

(** ** Vectors and matrices of the last axes *)

Record vec3 : Type := mkvec { vx : R; vy : R; vz : R }.

Record mat3 : Type := mkmat {
  m00 : R; m01 : R; m02 : R;
  m10 : R; m11 : R; m12 : R;
  m20 : R; m21 : R; m22 : R }.

Definition vzero : vec3 := mkvec 0 0 0.

Definition vscale (c : R) (v : vec3) : vec3 :=
  mkvec (c * vx v) (c * vy v) (c * vz v).

Definition vadd (u v : vec3) : vec3 :=
  mkvec (vx u + vx v) (vy u + vy v) (vz u + vz v).

Definition vsub (u v : vec3) : vec3 :=
  mkvec (vx u - vx v) (vy u - vy v) (vz u - vz v).

(** [torch.eye(3)] *)
Definition eye : mat3 := mkmat 1 0 0 0 1 0 0 0 1.

Definition madd (a b : mat3) : mat3 :=
  mkmat (m00 a + m00 b) (m01 a + m01 b) (m02 a + m02 b)
        (m10 a + m10 b) (m11 a + m11 b) (m12 a + m12 b)
        (m20 a + m20 b) (m21 a + m21 b) (m22 a + m22 b).

Definition msub (a b : mat3) : mat3 :=
  mkmat (m00 a - m00 b) (m01 a - m01 b) (m02 a - m02 b)
        (m10 a - m10 b) (m11 a - m11 b) (m12 a - m12 b)
        (m20 a - m20 b) (m21 a - m21 b) (m22 a - m22 b).

Definition mscale (c : R) (a : mat3) : mat3 :=
  mkmat (c * m00 a) (c * m01 a) (c * m02 a)
        (c * m10 a) (c * m11 a) (c * m12 a)
        (c * m20 a) (c * m21 a) (c * m22 a).

(** [a / c], every entry divided by the scalar *)
Definition mdiv (a : mat3) (c : R) : mat3 :=
  mkmat (m00 a / c) (m01 a / c) (m02 a / c)
        (m10 a / c) (m11 a / c) (m12 a / c)
        (m20 a / c) (m21 a / c) (m22 a / c).

(** [a.transpose(-1,-2)] *)
Definition mtranspose (a : mat3) : mat3 :=
  mkmat (m00 a) (m10 a) (m20 a)
        (m01 a) (m11 a) (m21 a)
        (m02 a) (m12 a) (m22 a).

(** [a @ b] *)
Definition mmul (a b : mat3) : mat3 :=
  mkmat (m00 a * m00 b + m01 a * m10 b + m02 a * m20 b)
        (m00 a * m01 b + m01 a * m11 b + m02 a * m21 b)
        (m00 a * m02 b + m01 a * m12 b + m02 a * m22 b)
        (m10 a * m00 b + m11 a * m10 b + m12 a * m20 b)
        (m10 a * m01 b + m11 a * m11 b + m12 a * m21 b)
        (m10 a * m02 b + m11 a * m12 b + m12 a * m22 b)
        (m20 a * m00 b + m21 a * m10 b + m22 a * m20 b)
        (m20 a * m01 b + m21 a * m11 b + m22 a * m21 b)
        (m20 a * m02 b + m21 a * m12 b + m22 a * m22 b).

Definition det (a : mat3) : R :=
  m00 a * (m11 a * m22 a - m12 a * m21 a)
  - m01 a * (m10 a * m22 a - m12 a * m20 a)
  + m02 a * (m10 a * m21 a - m11 a * m20 a).

(** [a[...,0,0] + a[...,1,1] + a[...,2,2]] *)
Definition trace (a : mat3) : R := m00 a + m11 a + m22 a.

(** [torch.norm(v, dim=-1)] *)
Definition norm (v : vec3) : R :=
  sqrt (vx v * vx v + vy v * vy v + vz v * vz v).

(** [x.clamp(min=lo)] *)
Definition clamp_min (x lo : R) : R := Rmax x lo.

(** [x.clamp(lo, hi)], which is [min(max(x, lo), hi)] *)
Definition clamp (x lo hi : R) : R := Rmin (Rmax x lo) hi.

(** The largest entry of a matrix in absolute value: the distance used
    for "within tolerance". *)
Definition mabs (a : mat3) : R :=
  Rmax (Rmax (Rmax (Rabs (m00 a)) (Rabs (m01 a))) (Rmax (Rabs (m02 a)) (Rabs (m10 a))))
       (Rmax (Rmax (Rabs (m11 a)) (Rabs (m12 a)))
             (Rmax (Rabs (m20 a)) (Rmax (Rabs (m21 a)) (Rabs (m22 a))))).

(** A rotation matrix: orthonormal with determinant one. *)
Definition is_rotation (a : mat3) : Prop :=
  mmul (mtranspose a) a = eye /\ det a = 1.

(** A rotation matrix within the tolerance [tol]. *)
Definition is_rotation_within (tol : R) (a : mat3) : Prop :=
  mabs (msub (mmul (mtranspose a) a) eye) <= tol /\ Rabs (det a - 1) <= tol.

(** ** Skew, exponential and logarithm maps *)

Definition skew_symmetric (v : vec3) : mat3 :=
  let x := vx v in
  let y := vy v in
  let z := vz v in
  let zero := 0 in
  mkmat zero (- z) y
        z zero (- x)
        (- y) x zero.

Definition so3_exp_map1 (v : vec3) : mat3 :=
  let theta := norm v in
  let theta_clamped := clamp_min theta 1e-8 in
  let V := skew_symmetric v in
  let I := eye in
  let sin_theta := sin theta in
  let cos_theta := cos theta in
  let sin_div := sin_theta / theta_clamped in
  let term2 := mscale sin_div V in
  let one_minus_cos_div := (1 - cos_theta) / (theta_clamped ^ 2) in
  let term3 := mscale one_minus_cos_div (mmul V V) in
  madd (madd I term2) term3.

Definition so3_log_map1 (R : mat3) : vec3 :=
  let trace_R := m00 R + m11 R + m22 R in
  let cos_theta := (trace_R - 1) / 2 in
  let cos_theta := clamp cos_theta (-1 + 1e-7) (1 - 1e-7) in
  let theta := acos cos_theta in
  let theta_clamped := clamp_min theta 1e-8 in
  let R_T := mtranspose R in
  let Q := mdiv (msub R R_T) 2 in
  let x := (m21 Q - m12 Q) / 2 in
  let y := (m02 Q - m20 Q) / 2 in
  let z := (m10 Q - m01 Q) / 2 in
  let v := mkvec x y z in
  let sin_theta := sin theta_clamped in
  let scale := theta / sin_theta in
  vscale scale v.

(** ** Batched tensors *)

(** A tensor of shape [(B, L, ...)]: entry [(b, l)], for [b < B] and
    [l < L]. *)
Definition tensor (A : Type) : Type := nat -> nat -> A.

(** A plain tensor of shape [(d0, d1, d2)], as the score model sees it. *)
Definition tensor3 : Type := nat -> nat -> nat -> R.

(** [x.transpose(1,2)] *)
Definition transpose12 (x : tensor3) : tensor3 := fun b i j => x b j i.

Definition vget (v : vec3) (j : nat) : R :=
  match j with 0%nat => vx v | 1%nat => vy v | _ => vz v end.

(** Row-major entry [k] of a matrix, as [reshape(B, L, 9)] lays it out. *)
Definition mget9 (a : mat3) (k : nat) : R :=
  match k with
  | 0%nat => m00 a | 1%nat => m01 a | 2%nat => m02 a
  | 3%nat => m10 a | 4%nat => m11 a | 5%nat => m12 a
  | 6%nat => m20 a | 7%nat => m21 a | _ => m22 a
  end.

(** A [(B, L, 3)] tensor read as a plain tensor, and back. *)
Definition to3 (x : tensor vec3) : tensor3 := fun b l j => vget (x b l) j.

Definition of3 (y : tensor3) : tensor vec3 :=
  fun b l => mkvec (y b l 0%nat) (y b l 1%nat) (y b l 2%nat).

(** [x.reshape(B, L, 9)] and [x.reshape(B, L, 3, 3)] *)
Definition reshape9 (x : tensor mat3) : tensor3 := fun b l k => mget9 (x b l) k.

Definition reshape33 (y : tensor3) : tensor mat3 :=
  fun b l => mkmat (y b l 0%nat) (y b l 1%nat) (y b l 2%nat)
                   (y b l 3%nat) (y b l 4%nat) (y b l 5%nat)
                   (y b l 6%nat) (y b l 7%nat) (y b l 8%nat).

Definition vclamp (lo hi : R) (v : vec3) : vec3 :=
  mkvec (clamp (vx v) lo hi) (clamp (vy v) lo hi) (clamp (vz v) lo hi).

Definition so3_exp_map (v : tensor vec3) : tensor mat3 :=
  fun b l => so3_exp_map1 (v b l).

Definition so3_log_map (R : tensor mat3) : tensor vec3 :=
  fun b l => so3_log_map1 (R b l).

(** [y] is not used by the source either. *)
Definition so3_interpolate (x y : tensor mat3) (gamma : R) : tensor mat3 :=
  let v := so3_log_map x in
  let new_v := fun b l => vscale gamma (v b l) in
  so3_exp_map new_v.

(** ** Errors *)

(** [IndexError]: an index out of range, raised by [a[t]] and (as a
    [RuntimeError]) by [a.gather(-1, t)].
    [ZeroDivisionError]: a Python division of numbers by zero.
    [NonFinite]: a tensor division by zero or the mean of an empty
    tensor; IEEE arithmetic goes on with an infinity or a nan, which is
    not a real number. *)
Inductive error : Type := IndexError | ZeroDivisionError | NonFinite.

Inductive result (A : Type) : Type :=
| Ok (a : A)
| Err (e : error).

Arguments Ok {A} a.
Arguments Err {A} e.

Definition bind {A B : Type} (r : result A) (f : A -> result B) : result B :=
  match r with
  | Ok a => f a
  | Err e => Err e
  end.

Notation "x <- c ;; k" := (bind c (fun x => k))
  (at level 61, c at next level, right associativity).

Notation "' pat <- c ;; k" := (bind c (fun x => match x with pat => k end))
  (at level 61, pat pattern, c at next level, right associativity).

(** [x / y] with an unguarded denominator *)
Definition checked_div (x y : R) : result R :=
  if Req_dec_T y 0 then Err NonFinite else Ok (x / y).

(** [a[i]] for a Python integer [i >= 0] *)
Definition index (a : list R) (i : nat) : result R :=
  match nth_error a i with
  | Some x => Ok x
  | None => Err IndexError
  end.

(** ** Reductions *)

Fixpoint sum_upto (n : nat) (f : nat -> R) : R :=
  match n with
  | O => 0
  | S k => sum_upto k f + f k
  end.

(** [x.mean()] of a tensor with [count] entries whose sum is [total];
    the mean of an empty tensor is a nan. *)
Definition mean_of (total : R) (count : nat) : result R :=
  if Nat.eqb count 0 then Err NonFinite else Ok (total / INR count).

(** [F.l1_loss(x, y)] on [(B, L, 3)] tensors *)
Definition l1_loss (B L : nat) (x y : tensor vec3) : result R :=
  mean_of
    (sum_upto B (fun b => sum_upto L (fun l =>
       Rabs (vx (x b l) - vx (y b l)) + Rabs (vy (x b l) - vy (y b l))
       + Rabs (vz (x b l) - vz (y b l)))))
    (B * L * 3).

Definition rotation_distance_loss (B L : nat) (R_pred R_true : tensor mat3) : result R :=
  let theta := fun b l =>
    let Rt := mtranspose (R_pred b l) in
    let M := mmul Rt (R_true b l) in
    let trace_val := m00 M + m11 M + m22 M in
    let cos_theta := (trace_val - 1) / 2 in
    let cos_theta := clamp cos_theta (-1 + 1e-7) (1 - 1e-7) in
    acos cos_theta in
  mean_of (sum_upto B (fun b => sum_upto L (fun l => theta b l ^ 2))) (B * L).

(** ** Schedules *)

(** [a.gather(-1, t)] for a timestep tensor [t] of shape [(B,)], reshaped
    to broadcast over the other axes. *)
Definition extract (B : nat) (a : list R) (t : nat -> nat) : result (nat -> R) :=
  if forallb (fun b => Nat.ltb (t b) (List.length a)) (seq 0 B)
  then Ok (fun b => nth (t b) a 0)
  else Err IndexError.

(** [torch.linspace(start, stop, steps)] *)
Definition linspace (start stop : R) (steps : nat) : list R :=
  map (fun i => start + INR i * ((stop - start) / INR (steps - 1))) (seq 0 steps).

Fixpoint cumprod_from (acc : R) (l : list R) : list R :=
  match l with
  | [] => []
  | x :: r => (acc * x) :: cumprod_from (acc * x) r
  end.

(** [torch.cumprod(l, dim=0)] *)
Definition cumprod (l : list R) : list R := cumprod_from 1 l.

Fixpoint map2 {A B C : Type} (f : A -> B -> C) (l : list A) (r : list B) : list C :=
  match l, r with
  | x :: l', y :: r' => f x y :: map2 f l' r'
  | _, _ => []
  end.

Definition cosine_schedule (timesteps : nat) (s : R) : list R :=
  let steps := (timesteps + 1)%nat in
  let x := linspace 0 (INR steps) steps in
  let alphas_cumprod :=
    map (fun xi => cos ((xi / INR steps + s) / (1 + s) * PI * 0.5) ^ 2) x in
  let alphas_cumprod := map (fun c => c / nth 0 alphas_cumprod 0) alphas_cumprod in
  let alphas := map2 Rdiv (tl alphas_cumprod) (removelast alphas_cumprod) in
  map (fun al => clamp al 0.001 1) alphas.

(** ** The diffuser *)

(** What the score model receives for the rotations: [sample] hands it
    the matrices as they are unless the model is the [Unet];
    [compute_loss] always flattens them. *)
Inductive rot_input : Type :=
| Flat (x : tensor3)
| Matrices (x : tensor mat3).

(** The score model: an opaque function with a name tag. *)
Record ScoreModel : Type := {
  name : string;
  forward : tensor3 -> rot_input -> (nat -> nat) -> tensor3 * tensor3 }.

Definition is_unet (m : ScoreModel) : bool := String.eqb (name m) "Unet".

Record DDPM_Diff : Type := {
  score_model : ScoreModel;
  beta_start : R;
  beta_end : R;
  trans_scale : R;
  num_timesteps : nat;
  seq_len : nat;
  a : list R;
  a_bars : list R;
  x0_param1 : list R;
  x0_param2 : list R;
  sigma : list R;
  mean_param1 : list R;
  mean_param2 : list R;
  q_param1 : list R;
  q_param2 : list R;
  beta_t : list R;
  alpha_t : list R;
  alpha_bar_t : list R }.

(** The local function [f] of [__init__]; [t/self.num_timesteps] is a
    division of Python numbers. *)
Definition schedule_f (num_timesteps t : nat) : result R :=
  if Nat.eqb num_timesteps 0 then Err ZeroDivisionError
  else
    let s := 0.008 in
    Ok (cos (((INR t / INR num_timesteps + s) / (1 + s)) * (PI / 2)) ^ 2).

(** [DDPM_Diff.__init__].  The value stored in [self.a[0]] on line 159
    is never read: the later lines read [self.a[t]] for [t >= 1] only and
    then drop the entry with [self.a = self.a[1:]]. *)
Definition init (model : ScoreModel) (beta_start beta_end trans_scale : R)
  (timesteps seq_len : nat) : result DDPM_Diff :=
  let a_bar_0 := [1] in
  let a := a_bar_0 ++ cosine_schedule timesteps 0.008 in
  let a_bars := cumprod a in
  f0 <- schedule_f timesteps 0 ;;
  fT <- schedule_f timesteps timesteps ;;
  let a := (f0 / fT) :: tl a in
  let x0_param1 := map (fun ab => 1 / sqrt ab) (tl a_bars) in
  let x0_param2 := map (fun ab => sqrt (1 - ab)) (tl a_bars) in
  let sigma :=
    map (fun t => sqrt ((1 - nth (t - 1) a_bars 0) * (1 - nth t a 0) / (1 - nth t a_bars 0)))
        (seq 1 timesteps) in
  let mean_param1 :=
    map (fun t => sqrt (nth t a 0) * (1 - nth (t - 1) a_bars 0) / (1 - nth t a_bars 0))
        (seq 1 timesteps) in
  let mean_param2 :=
    map (fun t => sqrt (nth (t - 1) a_bars 0) * (1 - nth t a 0) / (1 - nth t a_bars 0))
        (seq 1 timesteps) in
  let a_bars := tl a_bars in
  let a := tl a in
  let q_param1 := map sqrt a_bars in
  let q_param2 := map (fun ab => sqrt (1 - ab)) a_bars in
  let beta_t := linspace beta_start beta_end timesteps in
  let alpha_t := map (fun be => 1.0 - be) beta_t in
  let alpha_bar_t := cumprod alpha_t in
  Ok {| score_model := model;
        beta_start := beta_start;
        beta_end := beta_end;
        trans_scale := trans_scale;
        num_timesteps := timesteps;
        seq_len := seq_len;
        a := a;
        a_bars := a_bars;
        x0_param1 := x0_param1;
        x0_param2 := x0_param2;
        sigma := sigma;
        mean_param1 := mean_param1;
        mean_param2 := mean_param2;
        q_param1 := q_param1;
        q_param2 := q_param2;
        beta_t := beta_t;
        alpha_t := alpha_t;
        alpha_bar_t := alpha_bar_t |}.

(** The constructor with its default arguments:
    [beta_start=0.1, beta_end=1.0, trans_scale=1.0, timesteps=30,
    seq_len=128]. *)
Definition init_default (model : ScoreModel) : result DDPM_Diff :=
  init model 0.1 1.0 1.0 30 128.

Definition vdiv (v : vec3) (c : R) : vec3 := mkvec (vx v / c) (vy v / c) (vz v / c).

(** A tensor divided by a scalar that the source does not guard. *)
Definition checked_tdiv (x : tensor vec3) (c : R) : result (tensor vec3) :=
  if Req_dec_T c 0 then Err NonFinite else Ok (fun b l => vdiv (x b l) c).

Section Diffuser.

(** The ambient random generator of [torch]: a state and the draw of a
    standard normal tensor ([torch.randn], [torch.randn_like]). *)
Variable rng : Type.
Variable randn : rng -> tensor vec3 * rng.

(** [compose_se3] of [utils], which is not part of the core. *)
Variable pose : Type.
Variable compose_se3 : tensor mat3 -> tensor vec3 -> pose.

(** [forward_process], for [x1] of shape [(B, L, 3)]. *)
Definition forward_process (d : DDPM_Diff) (B L : nat)
  (x1 : tensor vec3) (R0 : tensor mat3) (t : nat -> nat)
  (trans_init : option (tensor vec3)) (rot_init : option (tensor mat3)) (g : rng)
  : result (((tensor vec3 * tensor vec3) * (tensor mat3 * tensor vec3)) * rng) :=
  let '(epsilon1, g) :=
    match trans_init with
    | None => randn g
    | Some e => (e, g)
    end in
  q1 <- extract B (q_param1 d) t ;;
  q2 <- extract B (q_param2 d) t ;;
  let x1_t := fun b l => vadd (vscale (q1 b) (x1 b l)) (vscale (q2 b) (epsilon1 b l)) in
  let v0 := so3_log_map R0 in
  alpha_bar_t <- extract B (alpha_bar_t d) t ;;
  let alpha_bar_t_sqrt := fun b => sqrt (alpha_bar_t b) in
  let '(epsilon2, g) := randn g in
  let vt := fun b l =>
    vadd (vscale (alpha_bar_t_sqrt b) (v0 b l))
         (vscale (sqrt (1.0 - alpha_bar_t b)) (epsilon2 b l)) in
  let Rt := so3_exp_map vt in
  Ok (((x1_t, epsilon1), (Rt, epsilon2)), g).

(** Lines 225-238 of [compute_loss]: the call of the score model, with
    the transpositions around it for the [Unet].  Returns the two
    predicted scores and the (re-assigned) [x1_t]. *)
Definition loss_predict (d : DDPM_Diff) (t : nat -> nat)
  (x1_t : tensor vec3) (x2_t : tensor mat3)
  : (tensor vec3 * tensor vec3) * tensor vec3 :=
  let x2_t_flatten := reshape9 x2_t in
  if is_unet (score_model d) then
    let x1_t3 := transpose12 (to3 x1_t) in
    let x2_t_flatten := transpose12 x2_t_flatten in
    let '(predicted_score1, predicted_score2) :=
      forward (score_model d) x1_t3 (Flat x2_t_flatten) t in
    let predicted_score1 := transpose12 predicted_score1 in
    let predicted_score2 := transpose12 predicted_score2 in
    let x1_t3 := transpose12 x1_t3 in
    ((of3 predicted_score1, of3 predicted_score2), of3 x1_t3)
  else
    let '(predicted_score1, predicted_score2) :=
      forward (score_model d) (to3 x1_t) (Flat x2_t_flatten) t in
    ((of3 predicted_score1, of3 predicted_score2), x1_t).

(** Line 240 of [compute_loss]: the reconstructed clean signal. *)
Definition loss_x0 (p1 p2 : nat -> R) (x1_t predicted_score1 : tensor vec3)
  : tensor vec3 :=
  fun b l => vscale (p1 b) (vsub (x1_t b l) (vscale (p2 b) (predicted_score1 b l))).

(** [compute_loss], for [x1] of shape [(B, L, 3)]. *)
Definition compute_loss (d : DDPM_Diff) (B L : nat)
  (x1 : tensor vec3) (x2 : tensor mat3) (t : nat -> nat) (g : rng)
  : result ((R * R * R * R * R) * rng) :=
  ' (((x1_t, epsilon1), (x2_t, epsilon2)), g) <-
     forward_process d B L (fun b l => vscale (trans_scale d) (x1 b l)) x2 t None None g ;;
  let '((predicted_score1, predicted_score2), x1_t) := loss_predict d t x1_t x2_t in
  p1 <- extract B (x0_param1 d) t ;;
  p2 <- extract B (x0_param2 d) t ;;
  let x0_1 := loss_x0 p1 p2 x1_t predicted_score1 in
  loss1 <- l1_loss B L predicted_score1 epsilon1 ;;
  loss_origin1 <- l1_loss B L x0_1 x1 ;;
  let R_pred := so3_exp_map predicted_score2 in
  let R_true := so3_exp_map epsilon2 in
  loss2 <- rotation_distance_loss B L R_pred R_true ;;
  let loss_origin2 := 0 in
  Ok ((loss1 + loss_origin1 + loss2 + loss_origin2, loss1, loss2, loss_origin1, loss_origin2), g).

(** Lines 280-295 of [sample]: the call of the score model at step [t],
    with the transpositions around it for the [Unet].  Returns the two
    predicted scores and the (re-assigned) [x1_t] and [x2_t]. *)
Definition sample_predict (d : DDPM_Diff) (t : nat)
  (x1_t : tensor vec3) (x2_t : tensor mat3)
  : (tensor vec3 * tensor vec3) * (tensor vec3 * tensor mat3) :=
  let t_tensor := fun _ : nat => t in
  if is_unet (score_model d) then
    let x1_t3 := transpose12 (to3 x1_t) in
    let x2_t3 := reshape9 x2_t in
    let x2_t3 := transpose12 x2_t3 in
    let '(predicted_score1, predicted_score2) :=
      forward (score_model d) x1_t3 (Flat x2_t3) t_tensor in
    let predicted_score1 := transpose12 predicted_score1 in
    let predicted_score2 := transpose12 predicted_score2 in
    let x1_t3 := transpose12 x1_t3 in
    let x2_t3 := transpose12 x2_t3 in
    ((of3 predicted_score1, of3 predicted_score2), (of3 x1_t3, reshape33 x2_t3))
  else
    let '(predicted_score1, predicted_score2) :=
      forward (score_model d) (to3 x1_t) (Matrices x2_t) t_tensor in
    ((of3 predicted_score1, of3 predicted_score2), (x1_t, x2_t)).

(** Lines 297-303: the noise of the Euclidean update at step [t]. *)
Definition sample_noise (t : nat) (trans_noise : option (list (tensor vec3))) (g : rng)
  : result (tensor vec3 * rng) :=
  if Nat.ltb 0 t then
    match trans_noise with
    | Some tn =>
        match nth_error tn t with
        | Some noise => Ok (noise, g)
        | None => Err IndexError
        end
    | None => Ok (randn g)
    end
  else Ok (fun _ _ => vzero, g).

(** Lines 305-306: the estimate [x0] of the clean translation. *)
Definition sample_x0 (d : DDPM_Diff) (B : nat) (t : nat)
  (x1_t predicted_score1 : tensor vec3) : result (tensor vec3) :=
  let t_tensor := fun _ : nat => t in
  p1 <- extract B (x0_param1 d) t_tensor ;;
  p2 <- extract B (x0_param2 d) t_tensor ;;
  let x0 := fun b l =>
    vscale (p1 b) (vsub (x1_t b l) (vscale (p2 b) (predicted_score1 b l))) in
  let x0 := fun b l => vclamp (-1) 1 (x0 b l) in
  Ok x0.

(** Lines 308-311: the Euclidean posterior update. *)
Definition sample_x1 (d : DDPM_Diff) (B : nat) (t : nat)
  (x1_t x0 noise : tensor vec3) : result (tensor vec3) :=
  let t_tensor := fun _ : nat => t in
  mp1 <- extract B (mean_param1 d) t_tensor ;;
  mp2 <- extract B (mean_param2 d) t_tensor ;;
  let mean := fun b l => vadd (vscale (mp1 b) (x1_t b l)) (vscale (mp2 b) (x0 b l)) in
  sigma <- extract B (sigma d) t_tensor ;;
  Ok (fun b l => vadd (mean b l) (vscale (sigma b) (noise b l))).

(** The local function [lambda_map] of [sample]. *)
Definition lambda_map (gamma : R) (X : tensor mat3) : tensor mat3 :=
  let vX := so3_log_map X in
  so3_exp_map (fun b l => vscale gamma (vX b l)).

(** Lines 316-324: the estimate [x_0_approx] of the clean rotation. *)
Definition sample_x_0_approx (d : DDPM_Diff) (t : nat)
  (x2_t : tensor mat3) (predicted_score2 : tensor vec3) : result (tensor mat3) :=
  let v_t := so3_log_map x2_t in
  abar <- index (alpha_bar_t d) t ;;
  let alpha_bar_t_sqrt := sqrt abar in
  v_0_pred <- checked_tdiv
    (fun b l => vsub (v_t b l) (vscale (sqrt (1 - abar)) (predicted_score2 b l)))
    alpha_bar_t_sqrt ;;
  Ok (so3_exp_map v_0_pred).

(** Lines 329-357: the rotational posterior update. *)
Definition sample_x2 (d : DDPM_Diff) (t : nat)
  (x2_t x_0_approx : tensor mat3) (rot_noise : option (list (tensor vec3))) (g : rng)
  : result (tensor mat3 * rng) :=
  if Nat.ltb 0 t then
    alpha_t_ <- index (alpha_t d) t ;;
    beta_t_ <- index (beta_t d) t ;;
    alpha_t_minus <- index (alpha_t d) (t - 1) ;;
    alpha_bar_t_minus <- index (alpha_bar_t d) (t - 1) ;;
    abar <- index (alpha_bar_t d) t ;;
    c1 <- checked_div (sqrt alpha_bar_t_minus * beta_t_) (1 - abar) ;;
    abar' <- index (alpha_bar_t d) t ;;
    c2 <- checked_div (sqrt (alpha_t_ * (1 - alpha_bar_t_minus))) (1 - abar') ;;
    let part1 := lambda_map c1 x_0_approx in
    let part2 := lambda_map c2 x2_t in
    let mu_t := fun b l => mmul (part1 b l) (part2 b l) in
    ' (epsilon, g) <-
       match rot_noise with
       | Some rn =>
           match nth_error rn t with
           | Some e => Ok (e, g)
           | None => Err IndexError
           end
       | None => Ok (randn g)
       end ;;
    let v_mu := so3_log_map mu_t in
    let v_t_minus := fun b l => vadd (v_mu b l) (vscale (sqrt beta_t_) (epsilon b l)) in
    Ok (so3_exp_map v_t_minus, g)
  else Ok (x_0_approx, g).

(** The body of the loop of [sample] at step [t], for tensors of shape
    [(B, L, ...)]. *)
Definition sample_step (d : DDPM_Diff) (B L : nat) (t : nat)
  (trans_noise rot_noise : option (list (tensor vec3)))
  (x1_t : tensor vec3) (x2_t : tensor mat3) (g : rng)
  : result ((tensor vec3 * tensor mat3) * rng) :=
  let '((predicted_score1, predicted_score2), (x1_t, x2_t)) :=
    sample_predict d t x1_t x2_t in
  ' (noise, g) <- sample_noise t trans_noise g ;;
  x0 <- sample_x0 d B t x1_t predicted_score1 ;;
  x1_next <- sample_x1 d B t x1_t x0 noise ;;
  x_0_approx <- sample_x_0_approx d t x2_t predicted_score2 ;;
  ' (x2_next, g) <- sample_x2 d t x2_t x_0_approx rot_noise g ;;
  Ok ((x1_next, x2_next), g).

(** [for t in range(num_steps-1, -1, -1)]: the steps [n-1], ..., [0]. *)
Fixpoint sample_loop (d : DDPM_Diff) (B L : nat) (n : nat)
  (trans_noise rot_noise : option (list (tensor vec3)))
  (x1_t : tensor vec3) (x2_t : tensor mat3) (g : rng)
  : result ((tensor vec3 * tensor mat3) * rng) :=
  match n with
  | O => Ok ((x1_t, x2_t), g)
  | S t =>
      ' ((x1_t, x2_t), g) <- sample_step d B L t trans_noise rot_noise x1_t x2_t g ;;
      sample_loop d B L t trans_noise rot_noise x1_t x2_t g
  end.

(** [sample], for [shape = (B, L, 3)].  The result is the pair of the
    arguments of [compose_se3] and the pose made of them. *)
Definition sample (d : DDPM_Diff) (B L : nat) (num_steps : nat)
  (trans_init : option (tensor vec3)) (rot_init : option (tensor mat3))
  (trans_noise rot_noise : option (list (tensor vec3))) (g : rng)
  : result ((tensor mat3 * tensor vec3 * pose) * rng) :=
  let '(x1_t, g) :=
    match trans_init with
    | None => randn g
    | Some x => (x, g)
    end in
  let '(x2_t, g) :=
    match rot_init with
    | Some r => (r, g)
    | None => let '(v_T, g) := randn g in (so3_exp_map v_T, g)
    end in
  ' ((x1_t, x2_t), g) <- sample_loop d B L num_steps trans_noise rot_noise x1_t x2_t g ;;
  let x1_t := fun b l => vclamp (-1) 1 (x1_t b l) in
  x1_out <- checked_tdiv x1_t (trans_scale d) ;;
  Ok ((x2_t, x1_out, compose_se3 x2_t x1_out), g).

End Diffuser.

(** ** Auxiliary notions for the proofs *)

Definition norm2 (v : vec3) : R := vx v * vx v + vy v * vy v + vz v * vz v.

(** [I + ca S(v) + cb S(v)^2] *)
Definition rodrigues (ca cb : R) (v : vec3) : mat3 :=
  madd (madd eye (mscale ca (skew_symmetric v)))
       (mscale cb (mmul (skew_symmetric v) (skew_symmetric v))).

(** How far [rodrigues ca cb v] is from an orthonormal matrix. *)
Definition defect (ca cb : R) (v : vec3) : R :=
  2 * cb - ca * ca - cb * cb * norm2 v.

(** The vector of the antisymmetric part [(R - R^T) / 2], as
    [so3_log_map] extracts it. *)
Definition axial (p : mat3) : vec3 :=
  mkvec ((m21 p - m12 p) / 2) ((m02 p - m20 p) / 2) ((m10 p - m01 p) / 2).

(** The bound of the clamp of [cos_theta] and its angle. *)
Definition cos_max : R := 1 - 1e-7.

Definition theta_min : R := acos cos_max.

(** The rotation by [PI] about the first axis. *)
Definition rot_pi : mat3 := mkmat 1 0 0 0 (-1) 0 0 0 (-1).

(** A tangent vector of length [PI - theta_min / 2]. *)
Definition v_near_pi : vec3 := mkvec (PI - theta_min / 2) 0 0.

(** A score model that always predicts zero noise. *)
Definition always_zero (m : ScoreModel) : Prop :=
  forall x r t, forward m x r t = (fun _ _ _ => 0, fun _ _ _ => 0).

Definition zero_model : ScoreModel :=
  {| name := "MLP"; forward := fun _ _ _ => (fun _ _ _ => 0, fun _ _ _ => 0) |}.

(** A noised translation batch with the entry [(0.01, 0, 0)] everywhere. *)
Definition x_small : tensor vec3 := fun _ _ => mkvec 0.01 0 0.

(** The value of a computation that threads the generator. *)
Definition value_of {A S : Type} (r : result (A * S)) : result A :=
  match r with
  | Ok (v, _) => Ok v
  | Err e => Err e
  end.

(** The rotation by [PI / 2] about the first axis and its tangent
    vector. *)
Definition rot_quarter : mat3 := mkmat 1 0 0 0 0 (-1) 0 1 0.

Definition v_quarter : vec3 := mkvec (PI / 2) 0 0.

(** A result that leaves the generator as it is. *)
Definition with_state {A S : Type} (r : result A) (g : S) : result (A * S) :=
  match r with
  | Ok v => Ok (v, g)
  | Err e => Err e
  end.

(** A generator for closed examples: it has one state and draws the
    zero tensor. *)
Definition randn_zero (g : unit) : tensor vec3 * unit := (fun _ _ => vzero, g).

(** The largest component of a vector in absolute value. *)
Definition vabs (v : vec3) : R :=
  Rmax (Rabs (vx v)) (Rmax (Rabs (vy v)) (Rabs (vz v))).

(** The factor [theta / sin(theta)] of the logarithm at the angle of
    the clamp. *)
Definition scale_min : R := theta_min / sin theta_min.

(** ** Random rotation vectors *)

Section RandomRotations.

Variable rng : Type.

(** [torch.rand]: for every entry a uniform draw from [[0, 1)]. *)
Variable rand : rng -> tensor R * rng.
Variable randn : rng -> tensor vec3 * rng.

(** [x / torch.norm(x, dim=-1, keepdim=True)] for [x] of shape
    [(B, L, 3)]: every vector divided by its norm, which the source does
    not guard. *)
Definition checked_normalize (B L : nat) (x : tensor vec3) : result (tensor vec3) :=
  if forallb (fun b =>
       forallb (fun l => if Req_dec_T (norm (x b l)) 0 then false else true) (seq 0 L))
       (seq 0 B)
  then Ok (fun b l => vdiv (x b l) (norm (x b l)))
  else Err NonFinite.

(** [igso3_sample], for [shape = (B, L, 3)].  The method does not read
    [self]. *)
Definition igso3_sample (B L : nat) (g : rng) : result (tensor vec3 * rng) :=
  let '(u, g) := rand g in
  let random_angles := fun b l => u b l * 2 * PI in
  let '(random_axis, g) := randn g in
  random_axis <- checked_normalize B L random_axis ;;
  let rotation_vectors := fun b l => vscale (random_angles b l) (random_axis b l) in
  Ok (rotation_vectors, g).

End RandomRotations.

(** ** Further auxiliary notions *)

(** The product of a matrix and a vector. *)
Definition mvmul (p : mat3) (v : vec3) : vec3 :=
  mkvec (m00 p * vx v + m01 p * vy v + m02 p * vz v)
        (m10 p * vx v + m11 p * vy v + m12 p * vz v)
        (m20 p * vx v + m21 p * vy v + m22 p * vz v).

(** The cross product. *)
Definition cross (u v : vec3) : vec3 :=
  mkvec (vy u * vz v - vz u * vy v) (vz u * vx v - vx u * vz v)
        (vx u * vy v - vy u * vx v).

(** Generators for closed examples: a uniform draw that is [1/2]
    everywhere and a normal draw that is the first unit vector
    everywhere. *)
Definition rand_half (g : unit) : tensor R * unit := (fun _ _ => 1 / 2, g).

Definition randn_axis (g : unit) : tensor vec3 * unit := (fun _ _ => mkvec 1 0 0, g).

(** * Properties *)

(** ** Records and their equalities *)

Lemma mat3_eq (p q : mat3) :
  m00 p = m00 q -> m01 p = m01 q -> m02 p = m02 q ->
  m10 p = m10 q -> m11 p = m11 q -> m12 p = m12 q ->
  m20 p = m20 q -> m21 p = m21 q -> m22 p = m22 q -> p = q.
Proof. destruct p, q; simpl; intros; subst; reflexivity. Qed.

Lemma vec3_eq (u v : vec3) :
  vx u = vx v -> vy u = vy v -> vz u = vz v -> u = v.
Proof. destruct u, v; simpl; intros; subst; reflexivity. Qed.

Ltac mat_ring := apply mat3_eq; simpl; ring.
Ltac vec_ring := apply vec3_eq; simpl; ring.

Lemma mabs_le (p : mat3) (t : R) :
  Rabs (m00 p) <= t -> Rabs (m01 p) <= t -> Rabs (m02 p) <= t ->
  Rabs (m10 p) <= t -> Rabs (m11 p) <= t -> Rabs (m12 p) <= t ->
  Rabs (m20 p) <= t -> Rabs (m21 p) <= t -> Rabs (m22 p) <= t ->
  mabs p <= t.
Proof. intros. unfold mabs. repeat apply Rmax_lub; assumption. Qed.

Lemma is_rotation_exact (tol : R) (p : mat3) :
  0 <= tol -> is_rotation p -> is_rotation_within tol p.
Proof.
  intros Htol [Hg Hd]. split.
  - rewrite Hg. apply mabs_le; simpl;
      (replace (1 - 1) with 0 by ring); (replace (0 - 0) with 0 by ring);
      rewrite Rabs_R0; exact Htol.
  - rewrite Hd. replace (1 - 1) with 0 by ring. rewrite Rabs_R0. exact Htol.
Qed.

(** ** The Rodrigues form of the exponential map *)

Lemma norm2_nonneg v : 0 <= norm2 v.
Proof. unfold norm2. nra. Qed.

Lemma norm_nonneg v : 0 <= norm v.
Proof. apply sqrt_pos. Qed.

Lemma norm_sqr v : norm v * norm v = norm2 v.
Proof. unfold norm. apply sqrt_sqrt. apply norm2_nonneg. Qed.

Lemma so3_exp_map1_rodrigues v :
  so3_exp_map1 v =
  rodrigues (sin (norm v) / clamp_min (norm v) 1e-8)
            ((1 - cos (norm v)) / clamp_min (norm v) 1e-8 ^ 2) v.
Proof. reflexivity. Qed.

Lemma rodrigues_gram ca cb v :
  mmul (mtranspose (rodrigues ca cb v)) (rodrigues ca cb v)
  = madd eye (mscale (defect ca cb v) (mmul (skew_symmetric v) (skew_symmetric v))).
Proof. unfold rodrigues, defect, norm2. destruct v as [x y z]. mat_ring. Qed.

Lemma rodrigues_det ca cb v :
  det (rodrigues ca cb v) = 1 - norm2 v * defect ca cb v.
Proof. unfold rodrigues, defect, norm2, det. destruct v as [x y z]. simpl. ring. Qed.

Lemma clamp_min_pos x : 1e-8 <= clamp_min x 1e-8.
Proof. unfold clamp_min. apply Rmax_r. Qed.

(** The defect of the exponential map: zero as soon as the clamp of
    [theta] is inactive. *)
Lemma defect_exp v :
  defect (sin (norm v) / clamp_min (norm v) 1e-8)
         ((1 - cos (norm v)) / clamp_min (norm v) 1e-8 ^ 2) v
  = (1 - cos (norm v)) ^ 2 * (clamp_min (norm v) 1e-8 ^ 2 - norm v ^ 2)
    / clamp_min (norm v) 1e-8 ^ 4.
Proof.
  set (th := norm v). set (thc := clamp_min th 1e-8).
  unfold defect. rewrite <- norm_sqr. fold th.
  assert (Hc : 1e-8 <= thc) by apply clamp_min_pos.
  assert (Hs : sin th * sin th = 1 - cos th * cos th).
  { pose proof (sin2_cos2 th) as H. unfold Rsqr in H. lra. }
  assert (Hne : thc <> 0) by lra.
  field_simplify_eq; [| exact Hne].
  replace (sin th ^ 2) with (sin th * sin th) by ring. rewrite Hs. ring.
Qed.

Lemma skew_sq_entries v :
  let W := mmul (skew_symmetric v) (skew_symmetric v) in
  Rabs (m00 W) <= norm2 v /\ Rabs (m01 W) <= norm2 v /\ Rabs (m02 W) <= norm2 v /\
  Rabs (m10 W) <= norm2 v /\ Rabs (m11 W) <= norm2 v /\ Rabs (m12 W) <= norm2 v /\
  Rabs (m20 W) <= norm2 v /\ Rabs (m21 W) <= norm2 v /\ Rabs (m22 W) <= norm2 v.
Proof.
  destruct v as [x y z]. unfold norm2. simpl.
  repeat split; apply Rabs_le; split; nra.
Qed.

(** ** Small angles *)

Lemma sin_le_self x : 0 <= x -> sin x <= x.
Proof.
  intros [H | H].
  - left. apply sin_lt_x. exact H.
  - subst. rewrite sin_0. lra.
Qed.

Lemma sin_small_nonneg x : 0 <= x <= 1 -> 0 <= sin x.
Proof.
  intros [H0 H1]. apply sin_ge_0; [exact H0 |].
  pose proof PI2_1. lra.
Qed.

Lemma one_minus_cos_bounds x : 0 <= x <= 1 -> 0 <= 1 - cos x <= x * x / 2.
Proof.
  intros [H0 H1].
  replace x with (2 * (x / 2)) at 1 2 by field.
  rewrite cos_2a_sin.
  assert (Hs0 : 0 <= sin (x / 2)) by (apply sin_small_nonneg; lra).
  assert (Hs1 : sin (x / 2) <= x / 2) by (apply sin_le_self; lra).
  split; nra.
Qed.

(** The defect of the exponential map is tiny where the clamp of
    [theta] is active. *)
Lemma defect_exp_small v :
  0 <= norm2 v * defect (sin (norm v) / clamp_min (norm v) 1e-8)
                        ((1 - cos (norm v)) / clamp_min (norm v) 1e-8 ^ 2) v
    <= 1e-32.
Proof.
  rewrite defect_exp. rewrite <- norm_sqr. set (th := norm v).
  assert (Hth : 0 <= th) by apply norm_nonneg.
  unfold clamp_min, Rmax. destruct (Rle_dec th 1e-8) as [Hle | Hgt].
  - set (e := 1e-8) in *.
    assert (He : 0 < e) by (unfold e; lra).
    assert (He1 : e <= 1) by (unfold e; lra).
    destruct (one_minus_cos_bounds th) as [Hc0 Hc1]; [lra |].
    set (c := 1 - cos th) in *.
    assert (Hc2 : c <= e * e / 2) by nra.
    assert (Hcc : c * c <= (e * e / 2) * (e * e / 2)) by nra.
    assert (Hd : 0 <= e * e - th * th) by nra.
    assert (Hd2 : (e * e - th * th) * (th * th) <= e * e * (e * e)) by nra.
    assert (Hnum : 0 <= c * c * ((e * e - th * th) * (th * th))
                   <= (e * e / 2) * (e * e / 2) * (e * e * (e * e))).
    { split.
      - apply Rmult_le_pos; [nra |]. apply Rmult_le_pos; nra.
      - apply Rmult_le_compat; try nra; apply Rmult_le_pos; nra. }
    assert (He4 : 0 < e ^ 4) by (apply pow_lt; exact He).
    replace (th * th * (c ^ 2 * (e ^ 2 - th ^ 2) / e ^ 4))
      with (c * c * ((e * e - th * th) * (th * th)) / e ^ 4) by (field; lra).
    split.
    + apply Rmult_le_pos; [tauto | left; apply Rinv_0_lt_compat; exact He4].
    + apply Rle_trans with ((e * e / 2) * (e * e / 2) * (e * e * (e * e)) / e ^ 4).
      * apply Rmult_le_compat_r; [left; apply Rinv_0_lt_compat; exact He4 | tauto].
      * replace ((e * e / 2) * (e * e / 2) * (e * e * (e * e)) / e ^ 4)
          with (e ^ 4 / 4) by (field; lra).
        unfold e. lra.
  - replace (th ^ 2 - th ^ 2) with 0 by ring.
    unfold Rdiv. rewrite !Rmult_0_r, !Rmult_0_l, Rmult_0_r. lra.
Qed.

Lemma defect_exp_exact v :
  1e-8 <= norm v ->
  defect (sin (norm v) / clamp_min (norm v) 1e-8)
         ((1 - cos (norm v)) / clamp_min (norm v) 1e-8 ^ 2) v = 0.
Proof.
  intros H. rewrite defect_exp.
  unfold clamp_min. rewrite Rmax_left by exact H.
  replace (norm v ^ 2 - norm v ^ 2) with 0 by ring.
  unfold Rdiv. rewrite Rmult_0_r, Rmult_0_l. reflexivity.
Qed.

(** The exponential map returns a rotation matrix, up to [1e-32]: the
    Gram matrix and the determinant are off by the defect only. *)
Lemma so3_exp_map1_valid v : is_rotation_within 1e-32 (so3_exp_map1 v).
Proof.
  rewrite so3_exp_map1_rodrigues.
  pose proof (defect_exp_small v) as Hd.
  set (ca := sin (norm v) / clamp_min (norm v) 1e-8) in *.
  set (cb := (1 - cos (norm v)) / clamp_min (norm v) 1e-8 ^ 2) in *.
  assert (Hk : 0 <= defect ca cb v).
  { unfold ca, cb. rewrite defect_exp.
    assert (Hc : 1e-8 <= clamp_min (norm v) 1e-8) by apply clamp_min_pos.
    assert (Hn : norm v <= clamp_min (norm v) 1e-8) by (unfold clamp_min; apply Rmax_l).
    pose proof (norm_nonneg v) as Hn0.
    apply Rmult_le_pos.
    - apply Rmult_le_pos; [apply pow2_ge_0 | nra].
    - left. apply Rinv_0_lt_compat. apply pow_lt. lra. }
  split.
  - rewrite rodrigues_gram.
    destruct (skew_sq_entries v) as (H0 & H1 & H2 & H3 & H4 & H5 & H6 & H7 & H8).
    pose proof (norm2_nonneg v) as Hn2.
    set (W := mmul (skew_symmetric v) (skew_symmetric v)) in *.
    assert (Hent : forall w, Rabs w <= norm2 v ->
              Rabs (defect ca cb v * w) <= 1e-32).
    { intros w Hw. rewrite Rabs_mult, (Rabs_right (defect ca cb v)) by lra.
      apply Rle_trans with (defect ca cb v * norm2 v); [| lra].
      apply Rmult_le_compat_l; assumption. }
    apply mabs_le; simpl;
      match goal with
      | |- Rabs (?c + ?k * ?w - ?c) <= _ =>
          replace (c + k * w - c) with (k * w) by ring; apply Hent; assumption
      end.
  - rewrite rodrigues_det.
    replace (1 - norm2 v * defect ca cb v - 1) with (- (norm2 v * defect ca cb v)) by ring.
    rewrite Rabs_Ropp, Rabs_right by lra. lra.
Qed.

(** It is a rotation matrix exactly where the clamp of [theta] is
    inactive. *)
Lemma so3_exp_map1_exact v : 1e-8 <= norm v -> is_rotation (so3_exp_map1 v).
Proof.
  intros H. rewrite so3_exp_map1_rodrigues. split.
  - rewrite rodrigues_gram, defect_exp_exact by exact H. mat_ring.
  - rewrite rodrigues_det, defect_exp_exact by exact H. ring.
Qed.

(** ** The exponential of the zero vector *)

Lemma norm_vzero : norm vzero = 0.
Proof.
  unfold norm, vzero. simpl.
  replace (0 * 0 + 0 * 0 + 0 * 0) with 0 by ring. apply sqrt_0.
Qed.

Lemma so3_exp_map1_zero : so3_exp_map1 vzero = eye.
Proof.
  rewrite so3_exp_map1_rodrigues, norm_vzero, sin_0, cos_0.
  unfold rodrigues, vzero. apply mat3_eq; simpl; unfold Rdiv; ring.
Qed.

Lemma vscale_zero v : vscale 0 v = vzero.
Proof. unfold vzero. vec_ring. Qed.

(** ** The angle of the clamp *)

Lemma cos_theta_min : cos theta_min = cos_max.
Proof. unfold theta_min. apply cos_acos. unfold cos_max. lra. Qed.

Lemma theta_min_range : 0 < theta_min < PI / 2.
Proof.
  assert (Hb : 0 < theta_min < PI).
  { unfold theta_min. apply acos_bound_lt. unfold cos_max. lra. }
  split; [tauto |].
  destruct (Rlt_dec theta_min (PI / 2)) as [H | H]; [exact H |].
  assert (Hc : cos theta_min <= 0) by (apply cos_le_0; lra).
  rewrite cos_theta_min in Hc. unfold cos_max in Hc. lra.
Qed.

(** [cos x <= 1 - x^2/2 + x^4/24] on the first quadrant *)
Lemma cos_upper x : 0 <= x <= PI / 2 -> cos x <= 1 - x * x / 2 + x * x * x * x / 24.
Proof.
  intros [H0 H1].
  destruct (cos_bound x 0) as [_ Hu]; [lra | lra |].
  unfold cos_approx, cos_term in Hu. simpl in Hu. lra.
Qed.

Lemma theta_min_sq : 2e-7 <= theta_min * theta_min <= 2.1e-7.
Proof.
  destruct theta_min_range as [H0 H1].
  pose proof PI_4 as Hpi.
  assert (Hu : cos theta_min <= 1 - theta_min * theta_min / 2
                 + theta_min * theta_min * theta_min * theta_min / 24)
    by (apply cos_upper; lra).
  rewrite cos_theta_min in Hu. unfold cos_max in Hu.
  pose (t := theta_min * theta_min).
  assert (Ht0 : 0 <= t) by (unfold t; nra).
  assert (Ht4 : t <= 4) by (unfold t; nra).
  assert (Hu' : t / 2 - t * t / 24 <= 1e-7) by (unfold t; lra).
  assert (Ht1 : t <= 3e-7) by nra.
  assert (Hhi : t <= 2.1e-7) by nra.
  fold t. split; [| exact Hhi].
  assert (Hle1 : 0 <= theta_min <= 1) by (split; [lra | unfold t in Hhi; nra]).
  destruct (one_minus_cos_bounds theta_min Hle1) as [_ Hl].
  rewrite cos_theta_min in Hl. unfold cos_max in Hl. fold t in Hl. lra.
Qed.

Lemma theta_min_lower : 1e-8 < theta_min.
Proof.
  destruct theta_min_range as [H0 _]. pose proof theta_min_sq as [Hl _]. nra.
Qed.

(** An angle whose cosine the clamp leaves alone is not clamped
    either. *)
Lemma angle_not_small x : 0 <= x -> cos x <= 1 - 1e-7 -> 1e-8 <= x.
Proof.
  intros H0 Hc. destruct (Rle_dec 1e-8 x) as [H | H]; [exact H |].
  destruct (one_minus_cos_bounds x) as [_ Hb]; [lra |]. nra.
Qed.

Lemma clamp_id x lo hi : lo <= x <= hi -> clamp x lo hi = x.
Proof.
  intros [Hl Hh]. unfold clamp. rewrite Rmax_left by exact Hl.
  apply Rmin_left. exact Hh.
Qed.

Lemma clamp_range x lo hi : lo <= hi -> lo <= clamp x lo hi <= hi.
Proof.
  intros H. unfold clamp. split.
  - apply Rmin_glb; [apply Rmax_r | exact H].
  - apply Rmin_r.
Qed.

(** ** The logarithm of a Rodrigues matrix *)

Lemma rodrigues_half_trace ca cb v :
  (m00 (rodrigues ca cb v) + m11 (rodrigues ca cb v) + m22 (rodrigues ca cb v) - 1) / 2
  = 1 - cb * norm2 v.
Proof. destruct v as [x y z]. unfold norm2. simpl. field. Qed.

Lemma axial_rodrigues ca cb v : axial (rodrigues ca cb v) = vscale ca v.
Proof. destruct v as [x y z]. unfold axial. apply vec3_eq; simpl; field. Qed.

Lemma so3_log_map1_axial p :
  so3_log_map1 p =
  vscale (acos (clamp ((m00 p + m11 p + m22 p - 1) / 2) (-1 + 1e-7) (1 - 1e-7))
          / sin (clamp_min
                   (acos (clamp ((m00 p + m11 p + m22 p - 1) / 2) (-1 + 1e-7) (1 - 1e-7)))
                   1e-8))
         (axial p).
Proof.
  unfold so3_log_map1, axial. cbv zeta.
  apply vec3_eq; simpl; apply Rmult_eq_compat_l; field.
Qed.

(** On [[0, PI]], away from the two ends of the clamp of [cos_theta],
    the logarithm undoes the exponential. *)
Lemma so3_log_exp_window v :
  norm v <= PI -> -1 + 1e-7 <= cos (norm v) <= 1 - 1e-7 ->
  so3_log_map1 (so3_exp_map1 v) = v.
Proof.
  intros Hpi [Hlo Hhi].
  pose proof (norm_nonneg v) as H0.
  assert (Hbig : 1e-8 <= norm v) by (apply angle_not_small; assumption).
  assert (Hlt : norm v < PI).
  { destruct (Rlt_dec (norm v) PI) as [H | H]; [exact H |].
    assert (E : norm v = PI) by lra. rewrite E, cos_PI in Hlo. lra. }
  assert (Hsin : 0 < sin (norm v)) by (apply sin_gt_0; lra).
  rewrite so3_log_map1_axial, so3_exp_map1_rodrigues.
  rewrite rodrigues_half_trace, axial_rodrigues.
  unfold clamp_min at 1 2 3 4. rewrite !(Rmax_left (norm v) 1e-8) by exact Hbig.
  replace (1 - (1 - cos (norm v)) / norm v ^ 2 * norm2 v) with (cos (norm v)).
  2:{ rewrite <- norm_sqr. field. lra. }
  rewrite clamp_id by lra.
  rewrite acos_cos by lra.
  unfold clamp_min. rewrite Rmax_left by exact Hbig.
  destruct v as [x y z]. apply vec3_eq; simpl; field; lra.
Qed.

(** ** Rotation matrices in axis-angle form *)

(** Polynomial identities of a rotation matrix, with [T] its trace
    plus one: the length of the antisymmetric part, and the symmetric
    part in terms of the antisymmetric one. *)
Lemma rotation_identities (r00 r01 r02 r10 r11 r12 r20 r21 r22 : R) :
  is_rotation (mkmat r00 r01 r02 r10 r11 r12 r20 r21 r22) ->
  let T := 1 + r00 + r11 + r22 in
  (r21 - r12) * (r21 - r12) + (r02 - r20) * (r02 - r20) + (r10 - r01) * (r10 - r01)
    = 4 - (T - 2) * (T - 2) /\
  2 * T * (r00 - 1) = - ((r02 - r20) * (r02 - r20) + (r10 - r01) * (r10 - r01)) /\
  2 * T * (r11 - 1) = - ((r21 - r12) * (r21 - r12) + (r10 - r01) * (r10 - r01)) /\
  2 * T * (r22 - 1) = - ((r21 - r12) * (r21 - r12) + (r02 - r20) * (r02 - r20)) /\
  T * (r01 + r10) = (r21 - r12) * (r02 - r20) /\
  T * (r02 + r20) = (r21 - r12) * (r10 - r01) /\
  T * (r12 + r21) = (r02 - r20) * (r10 - r01).
Proof.
  intros [H D] T. unfold T. unfold mmul, mtranspose, eye, det in *. simpl in *.
  injection H as H1 H2 H3 H4 H5 H6 H7 H8 H9.
  assert (C0 : r00 = r11 * r22 - r12 * r21) by nsatz.
  assert (C1 : r11 = r00 * r22 - r02 * r20) by nsatz.
  assert (C2 : r22 = r00 * r11 - r01 * r10) by nsatz.
  assert (C3 : r01 = r12 * r20 - r10 * r22) by nsatz.
  assert (C4 : r02 = r10 * r21 - r11 * r20) by nsatz.
  assert (C5 : r10 = r02 * r21 - r01 * r22) by nsatz.
  assert (C6 : r12 = r01 * r20 - r00 * r21) by nsatz.
  assert (C7 : r20 = r01 * r12 - r02 * r11) by nsatz.
  assert (C8 : r21 = r02 * r10 - r00 * r12) by nsatz.
  repeat split; nsatz.
Qed.

(** The squared length of the antisymmetric part is [1 - c^2] for the
    half trace [c]. *)
Lemma rotation_axial_norm2 (p : mat3) :
  is_rotation p ->
  norm2 (axial p) = 1 - ((trace p - 1) / 2) * ((trace p - 1) / 2).
Proof.
  intros Hr. destruct p as [r00 r01 r02 r10 r11 r12 r20 r21 r22].
  destruct (rotation_identities _ _ _ _ _ _ _ _ _ Hr) as (I0 & _).
  unfold norm2, axial, trace. simpl. lra.
Qed.

(** A rotation matrix is the Rodrigues matrix of its antisymmetric
    part. *)
Lemma rotation_rodrigues (p : mat3) :
  is_rotation p -> 1 + (trace p - 1) / 2 <> 0 ->
  p = rodrigues 1 (1 / (1 + (trace p - 1) / 2)) (axial p).
Proof.
  intros Hr Hne.
  destruct p as [r00 r01 r02 r10 r11 r12 r20 r21 r22].
  destruct (rotation_identities _ _ _ _ _ _ _ _ _ Hr) as (I0 & I1 & I2 & I3 & I4 & I5 & I6).
  unfold rodrigues, axial, trace in *. simpl in *.
  assert (Hne' : r00 + r11 + r22 + 1 <> 0) by (intro E; apply Hne; lra).
  apply mat3_eq; simpl; (field_simplify_eq; [lra | lra]).
Qed.

Lemma rodrigues_vscale ca cb k v :
  rodrigues ca cb (vscale k v) = rodrigues (ca * k) (cb * (k * k)) v.
Proof. destruct v as [x y z]. unfold rodrigues. mat_ring. Qed.

Lemma norm2_vscale k v : norm2 (vscale k v) = k * k * norm2 v.
Proof. destruct v as [x y z]. unfold norm2. simpl. ring. Qed.

Lemma norm_norm2 v : norm v = sqrt (norm2 v).
Proof. reflexivity. Qed.

Lemma norm_vscale k v : 0 <= k -> norm (vscale k v) = k * norm v.
Proof.
  intros Hk. rewrite !norm_norm2, norm2_vscale.
  rewrite sqrt_mult_alt by nra. rewrite sqrt_square by exact Hk. reflexivity.
Qed.

(** Away from the two ends of the clamp of [cos_theta], the
    exponential undoes the logarithm of a rotation matrix. *)
Lemma so3_exp_log_window (p : mat3) :
  is_rotation p -> -1 + 1e-7 <= (trace p - 1) / 2 <= 1 - 1e-7 ->
  so3_exp_map1 (so3_log_map1 p) = p.
Proof.
  intros Hr [Hlo Hhi].
  rewrite so3_log_map1_axial. fold (trace p).
  set (c := (trace p - 1) / 2) in *.
  rewrite clamp_id by lra.
  assert (Hth : 0 < acos c < PI) by (apply acos_bound_lt; lra).
  assert (Hcos : cos (acos c) = c) by (apply cos_acos; lra).
  set (th := acos c) in *.
  assert (Hbig : 1e-8 <= th) by (apply angle_not_small; lra).
  unfold clamp_min at 1. rewrite Rmax_left by exact Hbig.
  assert (Hsin : 0 < sin th) by (apply sin_gt_0; lra).
  assert (Hs2 : sin th * sin th = 1 - c * c).
  { pose proof (sin2_cos2 th) as E. unfold Rsqr in E. rewrite Hcos in E. lra. }
  assert (Hk : 0 < th / sin th).
  { apply Rmult_lt_0_compat; [lra | apply Rinv_0_lt_compat; exact Hsin]. }
  assert (Hnorm : norm (vscale (th / sin th) (axial p)) = th).
  { rewrite norm_vscale by lra. rewrite norm_norm2, rotation_axial_norm2 by exact Hr.
    fold c. rewrite <- Hs2. rewrite sqrt_square by lra. field. lra. }
  rewrite so3_exp_map1_rodrigues, Hnorm.
  unfold clamp_min. rewrite Rmax_left by exact Hbig.
  rewrite rodrigues_vscale, Hcos.
  rewrite (rotation_rodrigues p Hr) at 2 by (fold c; lra). fold c.
  f_equal.
  - field. lra.
  - replace ((1 - c) / th ^ 2 * (th / sin th * (th / sin th)))
      with ((1 - c) / (sin th * sin th)) by (field; lra).
    rewrite Hs2.
    assert (E1 : 1 + c <> 0) by lra.
    assert (E2 : 1 - c * c <> 0) by nra.
    field. split; assumption.
Qed.

(** ** Sums and means *)

Lemma sum_upto_ext n (f h : nat -> R) :
  (forall i, (i < n)%nat -> f i = h i) -> sum_upto n f = sum_upto n h.
Proof.
  induction n as [| n IH]; intros H; simpl; [reflexivity |].
  rewrite IH by (intros i Hi; apply H; lia). rewrite (H n) by lia. reflexivity.
Qed.

Lemma sum_upto_const n (c : R) : sum_upto n (fun _ => c) = INR n * c.
Proof.
  induction n as [| n IH]; [simpl; ring |].
  cbn [sum_upto]. rewrite IH, S_INR. ring.
Qed.

Lemma mean_of_const (count : nat) (c : R) :
  (0 < count)%nat -> mean_of (INR count * c) count = Ok c.
Proof.
  intros H. unfold mean_of.
  destruct (Nat.eqb_spec count 0) as [E | E]; [lia |].
  f_equal. field. apply not_0_INR. exact E.
Qed.

(** ** The rotation distance of a rotation to itself *)

Lemma theta_min_pos_sq : 0 < theta_min ^ 2.
Proof. destruct theta_min_range as [H _]. apply pow_lt. exact H. Qed.

Lemma rotation_self_angle (p : mat3) :
  is_rotation p ->
  acos (clamp ((m00 (mmul (mtranspose p) p) + m11 (mmul (mtranspose p) p)
                + m22 (mmul (mtranspose p) p) - 1) / 2) (-1 + 1e-7) (1 - 1e-7))
  = theta_min.
Proof.
  intros [Hg _]. rewrite Hg. simpl.
  replace ((1 + 1 + 1 - 1) / 2) with 1 by field.
  unfold clamp. rewrite Rmax_left by lra. rewrite Rmin_right by lra. reflexivity.
Qed.

Lemma rotation_distance_loss_self (B L : nat) (Rs : tensor mat3) :
  (0 < B)%nat -> (0 < L)%nat ->
  (forall b l, (b < B)%nat -> (l < L)%nat -> is_rotation (Rs b l)) ->
  rotation_distance_loss B L Rs Rs = Ok (theta_min ^ 2).
Proof.
  intros HB HL Hrot. unfold rotation_distance_loss. cbv zeta.
  rewrite (sum_upto_ext B _ (fun _ => INR L * theta_min ^ 2)).
  - rewrite sum_upto_const, <- Rmult_assoc, <- mult_INR.
    apply mean_of_const. nia.
  - intros b Hb. rewrite (sum_upto_ext L _ (fun _ => theta_min ^ 2)).
    + apply sum_upto_const.
    + intros l Hl. rewrite rotation_self_angle by (apply Hrot; assumption).
      reflexivity.
Qed.

Lemma eye_rotation : is_rotation eye.
Proof. split; [mat_ring | unfold det; simpl; ring]. Qed.

(** ** The round trip near the angle [PI] *)

Lemma rot_pi_rotation : is_rotation rot_pi.
Proof. split; [unfold rot_pi; mat_ring | unfold det, rot_pi; simpl; ring]. Qed.

Lemma so3_log_map1_rot_pi : so3_log_map1 rot_pi = vzero.
Proof.
  rewrite so3_log_map1_axial. unfold axial, rot_pi, vzero.
  apply vec3_eq; simpl; unfold Rdiv; ring.
Qed.

Lemma norm_v_near_pi : norm v_near_pi = PI - theta_min / 2.
Proof.
  destruct theta_min_range as [H0 H1].
  unfold norm, v_near_pi. simpl.
  replace ((PI - theta_min / 2) * (PI - theta_min / 2) + 0 * 0 + 0 * 0)
    with ((PI - theta_min / 2) * (PI - theta_min / 2)) by ring.
  apply sqrt_square. lra.
Qed.

Lemma cos_half_theta_min : cos_max < cos (theta_min / 2).
Proof.
  destruct theta_min_range as [H0 H1]. rewrite <- cos_theta_min.
  apply cos_decreasing_1; lra.
Qed.

Lemma so3_log_exp_v_near_pi :
  vx (so3_log_map1 (so3_exp_map1 v_near_pi))
  = (PI - theta_min) / (2 * cos (theta_min / 2)).
Proof.
  destruct theta_min_range as [H0 H1].
  pose proof cos_half_theta_min as Hc. unfold cos_max in Hc.
  pose proof theta_min_lower as Hl.
  pose proof PI2_1 as Hpi.
  rewrite so3_log_map1_axial, so3_exp_map1_rodrigues.
  rewrite rodrigues_half_trace, axial_rodrigues, norm_v_near_pi.
  set (th := PI - theta_min / 2).
  assert (Hth : 1e-8 <= th) by (unfold th; lra).
  unfold clamp_min at 1 2 3 4. rewrite !(Rmax_left th 1e-8) by exact Hth.
  replace (1 - (1 - cos th) / th ^ 2 * norm2 v_near_pi) with (cos th).
  2:{ rewrite <- norm_sqr, norm_v_near_pi. fold th. field. lra. }
  assert (Hcos : cos th = - cos (theta_min / 2)).
  { unfold th. apply Rtrigo_facts.cos_pi_minus. }
  assert (Hsin : sin th = sin (theta_min / 2)).
  { unfold th. apply sin_PI_x. }
  rewrite Hcos, Hsin.
  assert (Hclamp : clamp (- cos (theta_min / 2)) (-1 + 1e-7) (1 - 1e-7) = - cos_max).
  { unfold clamp, cos_max. rewrite Rmax_right by lra. rewrite Rmin_left by lra. ring. }
  rewrite Hclamp, acos_opp. fold theta_min.
  unfold clamp_min. rewrite Rmax_left by lra.
  rewrite sin_PI_x.
  assert (H2a : sin theta_min = 2 * sin (theta_min / 2) * cos (theta_min / 2)).
  { rewrite <- sin_2a. f_equal. field. }
  assert (Hs : 0 < sin (theta_min / 2)) by (apply sin_gt_0; lra).
  rewrite H2a. unfold v_near_pi. simpl. fold th. field. lra.
Qed.

(** ** The round trip at small angles *)

Lemma sin_lower x : 0 <= x <= PI -> x - x * x * x / 6 <= sin x.
Proof.
  intros [H0 H1].
  destruct (sin_bound x 0 H0 H1) as [Hl _].
  unfold sin_approx, sin_term in Hl. simpl in Hl. lra.
Qed.

Lemma theta_min_upper : theta_min <= 4.6e-4.
Proof.
  destruct theta_min_range as [H0 _]. destruct theta_min_sq as [_ Hu]. nra.
Qed.

Lemma sin_theta_min_bounds :
  theta_min * (1 - 1e-7) <= sin theta_min <= theta_min.
Proof.
  destruct theta_min_range as [H0 H1]. destruct theta_min_sq as [_ Hu].
  pose proof PI2_1 as Hpi.
  split.
  - pose proof (sin_lower theta_min) as Hl.
    assert (Hl' : theta_min - theta_min * theta_min * theta_min / 6 <= sin theta_min)
      by (apply Hl; lra).
    assert (Hc : theta_min * (theta_min * theta_min) <= theta_min * 2.1e-7)
      by (apply Rmult_le_compat_l; lra).
    lra.
  - apply sin_le_self. lra.
Qed.

Lemma sin_theta_min_pos : 0 < sin theta_min.
Proof.
  destruct theta_min_range as [H0 H1]. pose proof sin_theta_min_bounds as [Hl _]. nra.
Qed.

Lemma sin_theta_min_sq : sin theta_min * sin theta_min = 1 - cos_max * cos_max.
Proof.
  pose proof (sin2_cos2 theta_min) as E. unfold Rsqr in E.
  rewrite cos_theta_min in E. lra.
Qed.

Lemma scale_min_bounds : 1 <= scale_min <= 1 + 2e-7.
Proof.
  destruct theta_min_range as [H0 _].
  pose proof sin_theta_min_bounds as [Hl Hu]. pose proof sin_theta_min_pos as Hs.
  unfold scale_min. split.
  - apply Rmult_le_reg_r with (sin theta_min); [exact Hs |].
    replace (theta_min / sin theta_min * sin theta_min) with theta_min by (field; lra).
    lra.
  - apply Rmult_le_reg_r with (sin theta_min); [exact Hs |].
    replace (theta_min / sin theta_min * sin theta_min) with theta_min by (field; lra).
    nra.
Qed.

Lemma scale_min_sin : scale_min * sin theta_min = theta_min.
Proof. pose proof sin_theta_min_pos. unfold scale_min. field. lra. Qed.

(** An angle below the clamp: its cosine is clamped. *)
Lemma small_angle x : 0 <= x <= PI -> 1 - 1e-7 < cos x -> x < theta_min.
Proof.
  intros [H0 H1] Hc. destruct theta_min_range as [Ht0 Ht1].
  destruct (Rlt_dec x theta_min) as [H | H]; [exact H |].
  assert (Hle : cos x <= cos theta_min) by (apply cos_decr_1; lra).
  rewrite cos_theta_min in Hle. unfold cos_max in Hle. lra.
Qed.

Lemma clamp_top x lo hi : lo <= hi -> hi <= x -> clamp x lo hi = hi.
Proof.
  intros H1 H2. unfold clamp. rewrite Rmax_left by lra. apply Rmin_right. exact H2.
Qed.

(** The difference between [scale_min * sin(th) * th / max(th, 1e-8)]
    and [th] for an angle below the clamp. *)
Lemma small_angle_error th :
  0 <= th < theta_min ->
  Rabs (scale_min * (sin th / clamp_min th 1e-8) * th - th) <= 1e-8.
Proof.
  intros [H0 H1].
  destruct theta_min_range as [Ht0 Ht1]. pose proof theta_min_upper as Htu.
  pose proof scale_min_bounds as [Hk1 Hk2]. pose proof PI2_1 as Hpi.
  assert (Hs0 : 0 <= sin th) by (apply sin_ge_0; lra).
  assert (Hs1 : sin th <= th) by (apply sin_le_self; lra).
  unfold clamp_min, Rmax. destruct (Rle_dec th 1e-8) as [Hle | Hgt].
  - set (q := sin th / 1e-8).
    assert (Hq0 : 0 <= q) by (unfold q; apply Rmult_le_pos; lra).
    assert (Hq1 : q <= 1).
    { apply Rmult_le_reg_r with 1e-8; [lra |].
      unfold q. replace (sin th / 1e-8 * 1e-8) with (sin th) by field. lra. }
    assert (Hqt : 0 <= q * th <= th) by nra.
    replace (scale_min * q * th) with (scale_min * (q * th)) by ring.
    apply Rabs_le. split; nra.
  - assert (Hne : th <> 0) by lra.
    replace (scale_min * (sin th / th) * th) with (scale_min * sin th) by (field; exact Hne).
    assert (Hl : th - th * th * th / 6 <= sin th) by (apply sin_lower; lra).
    assert (Hc : th * th * th <= 4.6e-4 * 4.6e-4 * 4.6e-4).
    { assert (th * th <= 4.6e-4 * 4.6e-4) by nra. nra. }
    apply Rabs_le. split; nra.
Qed.

Lemma component_le_norm v :
  Rabs (vx v) <= norm v /\ Rabs (vy v) <= norm v /\ Rabs (vz v) <= norm v.
Proof.
  destruct v as [x y z]. unfold norm. simpl.
  repeat split; rewrite <- sqrt_Rsqr_abs; apply sqrt_le_1_alt; unfold Rsqr; nra.
Qed.

Lemma vabs_le v t :
  Rabs (vx v) <= t -> Rabs (vy v) <= t -> Rabs (vz v) <= t -> vabs v <= t.
Proof. intros. unfold vabs. repeat apply Rmax_lub; assumption. Qed.

Lemma vabs_self v : vabs (vsub v v) = 0.
Proof.
  unfold vabs. simpl. rewrite !Rminus_diag, Rabs_R0.
  repeat rewrite (Rmax_left 0 0) by lra. reflexivity.
Qed.

Lemma mabs_self p : mabs (msub p p) = 0.
Proof.
  unfold mabs. simpl. rewrite !Rminus_diag, Rabs_R0.
  repeat rewrite (Rmax_left 0 0) by lra. reflexivity.
Qed.

Lemma vabs_scaled_error (k t : R) v :
  Rabs (k * norm v - norm v) <= t -> vabs (vsub (vscale k v) v) <= t.
Proof.
  intros H. pose proof (norm_nonneg v) as Hn.
  destruct (component_le_norm v) as (Hx & Hy & Hz).
  assert (Hk : Rabs (k - 1) * norm v <= t).
  { replace (k * norm v - norm v) with ((k - 1) * norm v) in H by ring.
    rewrite Rabs_mult, (Rabs_right (norm v)) in H by lra. exact H. }
  assert (Hk0 : 0 <= Rabs (k - 1)) by apply Rabs_pos.
  apply vabs_le; simpl;
    match goal with
    | |- Rabs (k * ?w - ?w) <= _ =>
        replace (k * w - w) with ((k - 1) * w) by ring; rewrite Rabs_mult;
        apply Rle_trans with (Rabs (k - 1) * norm v); [| exact Hk];
        apply Rmult_le_compat_l; assumption
    end.
Qed.

(** Below the angle of the clamp the logarithm of the exponential is
    the vector rescaled, off by [1e-8] at most. *)
Lemma so3_log_exp_small v :
  norm v <= PI -> 1 - 1e-7 < cos (norm v) ->
  vabs (vsub (so3_log_map1 (so3_exp_map1 v)) v) <= 1e-8.
Proof.
  intros Hpi Hc. pose proof (norm_nonneg v) as H0.
  assert (Hsmall : norm v < theta_min) by (apply small_angle; [lra | exact Hc]).
  pose proof theta_min_lower as Hl.
  rewrite so3_log_map1_axial, so3_exp_map1_rodrigues.
  rewrite rodrigues_half_trace, axial_rodrigues.
  assert (Hclamp : clamp (1 - (1 - cos (norm v)) / clamp_min (norm v) 1e-8 ^ 2 * norm2 v)
                         (-1 + 1e-7) (1 - 1e-7) = 1 - 1e-7).
  { apply clamp_top; [lra |].
    pose proof (clamp_min_pos (norm v)) as Hm.
    assert (Hle : norm v <= clamp_min (norm v) 1e-8) by (unfold clamp_min; apply Rmax_l).
    pose proof (COS_bound (norm v)) as [_ Hc1].
    set (thc := clamp_min (norm v) 1e-8) in *.
    assert (Hr : 0 <= norm2 v / thc ^ 2 <= 1).
    { rewrite <- norm_sqr. split.
      - apply Rmult_le_pos; [nra |]. left. apply Rinv_0_lt_compat. nra.
      - apply Rmult_le_reg_r with (thc ^ 2); [nra |].
        replace (norm v * norm v / thc ^ 2 * thc ^ 2) with (norm v * norm v)
          by (field; lra).
        nra. }
    replace ((1 - cos (norm v)) / thc ^ 2 * norm2 v)
      with ((1 - cos (norm v)) * (norm2 v / thc ^ 2)) by (field; lra).
    nra. }
  rewrite Hclamp. change (acos (1 - 1e-7)) with theta_min.
  unfold clamp_min at 1. rewrite Rmax_left by lra.
  replace (vscale (theta_min / sin theta_min)
             (vscale (sin (norm v) / clamp_min (norm v) 1e-8) v))
    with (vscale (scale_min * (sin (norm v) / clamp_min (norm v) 1e-8)) v)
    by (unfold scale_min; destruct v; vec_ring).
  apply vabs_scaled_error. apply small_angle_error. lra.
Qed.

Lemma skew_entries v :
  let S := skew_symmetric v in
  Rabs (m00 S) <= norm v /\ Rabs (m01 S) <= norm v /\ Rabs (m02 S) <= norm v /\
  Rabs (m10 S) <= norm v /\ Rabs (m11 S) <= norm v /\ Rabs (m12 S) <= norm v /\
  Rabs (m20 S) <= norm v /\ Rabs (m21 S) <= norm v /\ Rabs (m22 S) <= norm v.
Proof.
  destruct (component_le_norm v) as (Hx & Hy & Hz). pose proof (norm_nonneg v) as Hn.
  destruct v as [x y z]. simpl in *.
  repeat split; rewrite ?Rabs_Ropp, ?Rabs_R0; assumption.
Qed.

(** Two Rodrigues matrices of one vector differ by their coefficients
    only. *)
Lemma rodrigues_diff (p1 q1 p2 q2 : R) v :
  mabs (msub (rodrigues p1 q1 v) (rodrigues p2 q2 v))
  <= Rabs (p1 - p2) * norm v + Rabs (q1 - q2) * norm2 v.
Proof.
  destruct (skew_entries v) as (S0 & S1 & S2 & S3 & S4 & S5 & S6 & S7 & S8).
  destruct (skew_sq_entries v) as (W0 & W1 & W2 & W3 & W4 & W5 & W6 & W7 & W8).
  cbv zeta in *.
  assert (Hent : forall s w, Rabs s <= norm v -> Rabs w <= norm2 v ->
            Rabs ((p1 - p2) * s + (q1 - q2) * w)
            <= Rabs (p1 - p2) * norm v + Rabs (q1 - q2) * norm2 v).
  { intros s w Hs Hw. eapply Rle_trans; [apply Rabs_triang |].
    rewrite !Rabs_mult. apply Rplus_le_compat; apply Rmult_le_compat_l;
      try apply Rabs_pos; assumption. }
  unfold rodrigues.
  set (S := skew_symmetric v) in *. set (W := mmul S S) in *.
  apply mabs_le; simpl;
    match goal with
    | |- Rabs (?c + p1 * ?s + q1 * ?w - (?c + p2 * ?s + q2 * ?w)) <= _ =>
        replace (c + p1 * s + q1 * w - (c + p2 * s + q2 * w))
          with ((p1 - p2) * s + (q1 - q2) * w) by ring;
        apply Hent; assumption
    end.
Qed.

(** Below the angle of the clamp the exponential of the logarithm of a
    rotation matrix is off by [2e-7] at most. *)
Lemma so3_exp_log_small (p : mat3) :
  is_rotation p -> 1 - 1e-7 < (trace p - 1) / 2 ->
  mabs (msub (so3_exp_map1 (so3_log_map1 p)) p) <= 2e-7.
Proof.
  intros Hr Hc.
  pose proof (rotation_axial_norm2 p Hr) as Hn2.
  pose proof (norm2_nonneg (axial p)) as Hn2pos.
  pose proof theta_min_lower as Hl. pose proof theta_min_upper as Htu.
  destruct theta_min_range as [Ht0 Ht1].
  pose proof scale_min_bounds as [Hk1 Hk2].
  pose proof sin_theta_min_pos as Hsm. pose proof sin_theta_min_sq as Hsm2.
  pose proof scale_min_sin as Hks. pose proof PI2_1 as Hpi.
  rewrite so3_log_map1_axial. fold (trace p).
  set (c := (trace p - 1) / 2) in *.
  assert (Hc1 : c <= 1) by nra.
  rewrite clamp_top by lra. change (acos (1 - 1e-7)) with theta_min.
  unfold clamp_min at 1. rewrite Rmax_left by lra. fold scale_min.
  set (w := axial p) in *.
  pose proof (norm_nonneg w) as Hw0.
  assert (Hw2 : norm w * norm w = 1 - c * c) by (rewrite norm_sqr; exact Hn2).
  assert (Hws : norm w < sin theta_min).
  { unfold cos_max in Hsm2. nra. }
  assert (Hphi : norm (vscale scale_min w) = scale_min * norm w)
    by (apply norm_vscale; lra).
  set (phi := scale_min * norm w) in *.
  assert (Hphi0 : 0 <= phi) by (unfold phi; nra).
  assert (Hphi1 : phi < theta_min) by (unfold phi; nra).
  rewrite so3_exp_map1_rodrigues, Hphi, rodrigues_vscale.
  rewrite (rotation_rodrigues p Hr) at 1 by (fold c; lra). fold c w.
  set (pc := clamp_min phi 1e-8).
  assert (Hpc : 1e-8 <= pc) by apply clamp_min_pos.
  assert (Hpc' : phi <= pc) by (unfold pc, clamp_min; apply Rmax_l).
  eapply Rle_trans; [apply rodrigues_diff |].
  assert (T1 : Rabs (sin phi / pc * scale_min - 1) * norm w <= 1e-8).
  { pose proof (small_angle_error phi (conj Hphi0 Hphi1)) as He. fold pc in He.
    assert (E : (sin phi / pc * scale_min - 1) * norm w
                = (scale_min * (sin phi / pc) * phi - phi) / scale_min).
    { unfold phi. field. lra. }
    assert (E' : Rabs (sin phi / pc * scale_min - 1) * norm w
                 = Rabs ((sin phi / pc * scale_min - 1) * norm w)).
    { rewrite Rabs_mult, (Rabs_right (norm w)) by lra. reflexivity. }
    rewrite E', E. unfold Rdiv. rewrite Rabs_mult.
    rewrite (Rabs_right (/ scale_min)).
    2:{ apply Rle_ge. left. apply Rinv_0_lt_compat. lra. }
    assert (Hinv : / scale_min <= 1).
    { rewrite <- Rinv_1. apply Rinv_le_contravar; lra. }
    assert (Hinv0 : 0 < / scale_min) by (apply Rinv_0_lt_compat; lra).
    pose proof (Rabs_pos (scale_min * (sin phi * / pc) * phi - phi)) as Ha.
    unfold Rdiv in He. nra. }
  assert (T2 : Rabs ((1 - cos phi) / pc ^ 2 * (scale_min * scale_min) - 1 / (1 + c))
               * norm2 w <= 1.1e-7).
  { destruct (one_minus_cos_bounds phi) as [Hb0 Hb1]; [lra |].
    set (b := (1 - cos phi) / pc ^ 2).
    assert (Hb : 0 <= b <= 1 / 2).
    { unfold b. split.
      - apply Rmult_le_pos; [lra |]. left. apply Rinv_0_lt_compat. nra.
      - apply Rmult_le_reg_r with (pc ^ 2); [nra |].
        replace ((1 - cos phi) / pc ^ 2 * pc ^ 2) with (1 - cos phi) by (field; lra).
        nra. }
    assert (Hkk : 1 <= scale_min * scale_min <= 1.000001) by nra.
    assert (Hr1 : 0 < 1 / (1 + c) <= 0.51).
    { split.
      - apply Rmult_lt_0_compat; [lra | apply Rinv_0_lt_compat; lra].
      - apply Rmult_le_reg_r with (1 + c); [lra |].
        replace (1 / (1 + c) * (1 + c)) with 1 by (field; lra). lra. }
    assert (Hq : Rabs (b * (scale_min * scale_min) - 1 / (1 + c)) <= 0.51).
    { apply Rabs_le. split; nra. }
    assert (Hn : norm2 w <= 2e-7) by (rewrite Hn2; unfold cos_max in *; nra).
    pose proof (Rabs_pos (b * (scale_min * scale_min) - 1 / (1 + c))) as Ha.
    nra. }
  lra.
Qed.

(** ** Lists of schedule values *)

Lemma length_map2 {A B C : Type} (f : A -> B -> C) (l : list A) (r : list B) :
  List.length (map2 f l r) = Nat.min (List.length l) (List.length r).
Proof.
  revert r. induction l as [| x l IH]; intros [| y r]; simpl; try reflexivity.
  rewrite IH. reflexivity.
Qed.

Lemma nth_error_map2 {A B C : Type} (f : A -> B -> C) (l : list A) (r : list B)
  (i : nat) (x : A) (y : B) :
  nth_error l i = Some x -> nth_error r i = Some y ->
  nth_error (map2 f l r) i = Some (f x y).
Proof.
  revert r i. induction l as [| x0 l IH]; intros [| y0 r] [| i]; simpl;
    try discriminate.
  - intros H1 H2. injection H1 as ->. injection H2 as ->. reflexivity.
  - apply IH.
Qed.

Lemma nth_error_tl {A : Type} (l : list A) (i : nat) :
  nth_error (tl l) i = nth_error l (S i).
Proof. destruct l; [destruct i |]; reflexivity. Qed.

Lemma length_removelast_pred {A : Type} (l : list A) :
  List.length (removelast l) = (List.length l - 1)%nat.
Proof.
  induction l as [| x [| y l] IH]; simpl in *; try reflexivity. rewrite IH. lia.
Qed.

Lemma nth_error_removelast {A : Type} (l : list A) (i : nat) :
  (S i < List.length l)%nat -> nth_error (removelast l) i = nth_error l i.
Proof.
  revert i. induction l as [| x [| y l] IH]; intros i H; simpl in H; try lia.
  destruct i as [| i]; [reflexivity |].
  change (nth_error (removelast (y :: l)) i = nth_error (y :: l) i).
  apply IH. simpl. lia.
Qed.

Lemma length_cumprod_from (acc : R) (l : list R) :
  List.length (cumprod_from acc l) = List.length l.
Proof.
  revert acc. induction l as [| x l IH]; intros acc; simpl; [| rewrite IH]; reflexivity.
Qed.

Lemma length_linspace (s e : R) (n : nat) : List.length (linspace s e n) = n.
Proof. unfold linspace. rewrite length_map, length_seq. reflexivity. Qed.

Lemma nth_error_linspace (s e : R) (n i : nat) :
  (i < n)%nat ->
  nth_error (linspace s e n) i = Some (s + INR i * ((e - s) / INR (n - 1))).
Proof.
  intros H. unfold linspace. rewrite nth_error_map, nth_error_seq.
  destruct (Nat.ltb_spec i n) as [_ | H']; [reflexivity | lia].
Qed.

(** The last point of [linspace] is its end. *)
Lemma linspace_last (s e : R) (n : nat) :
  (2 <= n)%nat -> nth_error (linspace s e n) (n - 1) = Some e.
Proof.
  intros H. rewrite nth_error_linspace by lia. f_equal.
  field. apply not_0_INR. lia.
Qed.

(** Every cumulative product contains its own factor. *)
Lemma cumprod_from_factor (l : list R) (acc : R) (i : nat) (x : R) :
  nth_error l i = Some x ->
  exists p, nth_error (cumprod_from acc l) i = Some (p * x).
Proof.
  revert acc i. induction l as [| y l IH]; intros acc [| i] H; simpl in *;
    try discriminate.
  - injection H as ->. exists acc. reflexivity.
  - destruct (IH (acc * y) i H) as [p Hp]. exists p. exact Hp.
Qed.

Lemma cumprod_zero (l : list R) (i : nat) :
  nth_error l i = Some 0 -> nth_error (cumprod l) i = Some 0.
Proof.
  intros H. destruct (cumprod_from_factor l 1 i 0 H) as [p Hp].
  unfold cumprod. rewrite Hp. f_equal. ring.
Qed.

(** With factors in [(0, 1]], a cumulative product is positive and at
    most [acc] times its last factor. *)
Lemma cumprod_from_bound (l : list R) (acc : R) (i : nat) (x : R) :
  0 < acc -> Forall (fun y => 0 < y <= 1) l -> nth_error l i = Some x ->
  exists c, nth_error (cumprod_from acc l) i = Some c /\ 0 < c <= acc * x.
Proof.
  revert acc i. induction l as [| y l IH]; intros acc [| i] Hacc Hall H; simpl in *;
    try discriminate.
  - injection H as ->. inversion Hall as [| ? ? Hy _]; subst.
    exists (acc * x). split; [reflexivity | nra].
  - inversion Hall as [| ? ? Hy Hl]; subst.
    destruct (IH (acc * y) i) as (c & Hc & Hb); [nra | exact Hl | exact H |].
    exists c. split; [exact Hc |].
    assert (Hx : 0 < x).
    { apply nth_error_In in H. rewrite Forall_forall in Hl. apply Hl in H. tauto. }
    split; [tauto | nra].
Qed.

(** ** The cosine schedule *)

Lemma length_cosine_schedule (T : nat) (s : R) :
  List.length (cosine_schedule T s) = T.
Proof.
  unfold cosine_schedule.
  rewrite length_map, length_map2, length_tl, length_removelast_pred.
  rewrite !length_map, length_linspace. lia.
Qed.

Lemma cosine_schedule_range (T : nat) (s : R) :
  Forall (fun y => 0.001 <= y <= 1) (cosine_schedule T s).
Proof.
  unfold cosine_schedule. apply Forall_forall. intros y Hy.
  apply in_map_iff in Hy. destruct Hy as (x & <- & _).
  apply clamp_range. lra.
Qed.

(** The last ratio of the cosine schedule is clipped up to [0.001]:
    the cumulative product ends on [cos^2 (PI / 2) = 0]. *)
Lemma cosine_schedule_last (T : nat) (s : R) :
  (0 < T)%nat -> 1 + s <> 0 ->
  nth_error (cosine_schedule T s) (T - 1) = Some 0.001.
Proof.
  intros HT Hs. unfold cosine_schedule.
  set (steps := (T + 1)%nat).
  set (ac0 := map (fun xi => cos ((xi / INR steps + s) / (1 + s) * PI * 0.5) ^ 2)
                  (linspace 0 (INR steps) steps)).
  set (ac := map (fun c => c / nth 0 ac0 0) ac0).
  assert (Hlen0 : List.length ac0 = steps)
    by (unfold ac0; rewrite length_map, length_linspace; reflexivity).
  assert (Hlen : List.length ac = steps)
    by (unfold ac; rewrite length_map; exact Hlen0).
  assert (HT0 : INR T <> 0) by (apply not_0_INR; lia).
  assert (Hst0 : INR steps <> 0) by (apply not_0_INR; unfold steps; lia).
  assert (Hlast : nth_error ac T = Some 0).
  { unfold ac, ac0. rewrite !nth_error_map.
    rewrite nth_error_linspace by (unfold steps; lia). simpl option_map.
    f_equal.
    replace (steps - 1)%nat with T by (unfold steps; lia).
    assert (E1 : (0 + INR T * ((INR steps - 0) / INR T)) / INR steps + s = 1 + s)
      by (field; split; assumption).
    assert (E2 : (1 + s) / (1 + s) * PI * 0.5 = PI / 2).
    { replace ((1 + s) / (1 + s)) with 1 by (field; exact Hs). lra. }
    rewrite E1, E2.
    rewrite cos_PI2. unfold Rdiv. ring. }
  destruct (nth_error ac (T - 1)) as [y |] eqn:Hy.
  2:{ apply nth_error_None in Hy. rewrite Hlen in Hy. unfold steps in Hy. lia. }
  rewrite nth_error_map.
  rewrite (nth_error_map2 Rdiv (tl ac) (removelast ac) (T - 1) 0 y).
  - simpl. f_equal. unfold clamp, Rdiv. rewrite Rmult_0_l.
    rewrite Rmax_right by lra. apply Rmin_left. lra.
  - rewrite nth_error_tl. replace (S (T - 1)) with T by lia. exact Hlast.
  - rewrite nth_error_removelast; [exact Hy |]. rewrite Hlen. unfold steps. lia.
Qed.

(** ** The constructor *)

Lemma init_fields model bs be ts T sl d :
  init model bs be ts T sl = Ok d ->
  T <> 0%nat /\ score_model d = model /\ trans_scale d = ts /\ num_timesteps d = T /\
  a_bars d = tl (cumprod (1 :: cosine_schedule T 0.008)) /\
  x0_param1 d = map (fun ab => 1 / sqrt ab) (a_bars d) /\
  x0_param2 d = map (fun ab => sqrt (1 - ab)) (a_bars d) /\
  q_param1 d = map sqrt (a_bars d) /\
  q_param2 d = map (fun ab => sqrt (1 - ab)) (a_bars d) /\
  beta_t d = linspace bs be T /\
  alpha_t d = map (fun x => 1.0 - x) (beta_t d) /\
  alpha_bar_t d = cumprod (alpha_t d) /\
  List.length (sigma d) = T /\ List.length (mean_param1 d) = T /\
  List.length (mean_param2 d) = T.
Proof.
  unfold init, schedule_f. destruct (Nat.eqb_spec T 0) as [E | E]; [discriminate |].
  simpl. intros H. injection H as <-. simpl.
  rewrite !length_map, !length_seq. repeat split; assumption.
Qed.

Lemma init_defined model bs be ts T sl :
  T <> 0%nat -> exists d, init model bs be ts T sl = Ok d.
Proof.
  intros H. unfold init, schedule_f.
  destruct (Nat.eqb_spec T 0) as [E | E]; [contradiction |].
  simpl. eexists. reflexivity.
Qed.

Lemma length_a_bars model bs be ts T sl d :
  init model bs be ts T sl = Ok d -> List.length (a_bars d) = T.
Proof.
  intros H. apply init_fields in H. destruct H as (_ & _ & _ & _ & Ha & _).
  rewrite Ha, length_tl. unfold cumprod. rewrite length_cumprod_from. simpl.
  rewrite length_cosine_schedule. lia.
Qed.

(** The last cumulative product of the Euclidean schedule is at most
    [0.001]. *)
Lemma a_bars_last model bs be ts T sl d :
  init model bs be ts T sl = Ok d ->
  exists c, nth_error (a_bars d) (T - 1) = Some c /\ 0 < c <= 0.001.
Proof.
  intros H. apply init_fields in H. destruct H as (HT & _ & _ & _ & Ha & _).
  rewrite Ha, nth_error_tl. replace (S (T - 1)) with T by lia.
  destruct (cumprod_from_bound (1 :: cosine_schedule T 0.008) 1 T 0.001)
    as (c & Hc & Hb).
  - lra.
  - constructor; [lra |].
    eapply Forall_impl; [| apply cosine_schedule_range]. simpl. intros y Hy. lra.
  - destruct T as [| T']; [contradiction |]. simpl.
    replace T' with (S T' - 1)%nat at 2 by lia.
    apply cosine_schedule_last; [lia | lra].
  - exists c. split; [exact Hc | lra].
Qed.

(** With the default [beta_end = 1] the last cumulative product of the
    rotational schedule is zero. *)
Lemma alpha_bar_t_last_zero model bs ts T sl d :
  (2 <= T)%nat -> init model bs 1.0 ts T sl = Ok d ->
  nth_error (alpha_bar_t d) (T - 1) = Some 0.
Proof.
  intros HT H. apply init_fields in H.
  destruct H as (_ & _ & _ & _ & _ & _ & _ & _ & _ & Hb & Hal & Hab & _).
  rewrite Hab, Hal, Hb. apply cumprod_zero.
  rewrite nth_error_map, linspace_last by exact HT. simpl. f_equal. lra.
Qed.

(** ** Reading the schedules *)

Lemma extract_ok (B : nat) (l : list R) (t : nat -> nat) :
  (forall b, (b < B)%nat -> (t b < List.length l)%nat) ->
  extract B l t = Ok (fun b => nth (t b) l 0).
Proof.
  intros H. unfold extract.
  replace (forallb (fun b => Nat.ltb (t b) (List.length l)) (seq 0 B)) with true;
    [reflexivity |].
  symmetry. apply forallb_forall. intros b Hb. apply in_seq in Hb.
  apply Nat.ltb_lt. apply H. lia.
Qed.

Lemma index_ok (l : list R) (i : nat) (x : R) :
  nth_error l i = Some x -> index l i = Ok x.
Proof. intros H. unfold index. rewrite H. reflexivity. Qed.

Lemma checked_tdiv_zero (x : tensor vec3) : checked_tdiv x 0 = Err NonFinite.
Proof.
  unfold checked_tdiv. destruct (Req_dec_T 0 0) as [_ | H]; [reflexivity |].
  exfalso. apply H. reflexivity.
Qed.

Lemma checked_tdiv_ok (x : tensor vec3) (c : R) :
  c <> 0 -> checked_tdiv x c = Ok (fun b l => vdiv (x b l) c).
Proof.
  intros H. unfold checked_tdiv. destruct (Req_dec_T c 0) as [E | _];
    [contradiction | reflexivity].
Qed.

Lemma checked_div_ok (x c : R) : c <> 0 -> checked_div x c = Ok (x / c).
Proof.
  intros H. unfold checked_div. destruct (Req_dec_T c 0) as [E | _];
    [contradiction | reflexivity].
Qed.

(** ** The reverse sampler *)

Lemma sample_x_0_approx_zero d t x2_t ps2 :
  nth_error (alpha_bar_t d) t = Some 0 ->
  sample_x_0_approx d t x2_t ps2 = Err NonFinite.
Proof.
  intros H. unfold sample_x_0_approx. rewrite (index_ok _ _ _ H). simpl.
  rewrite sqrt_0, checked_tdiv_zero. reflexivity.
Qed.

Lemma sample_predict_zero d t x1_t x2_t :
  always_zero (score_model d) ->
  forall b l,
    fst (fst (sample_predict d t x1_t x2_t)) b l = vzero /\
    fst (snd (sample_predict d t x1_t x2_t)) b l = x1_t b l.
Proof.
  intros Hz b l. unfold sample_predict.
  destruct (is_unet (score_model d)); rewrite Hz; simpl.
  - split; [reflexivity |]. unfold of3, transpose12, to3. simpl.
    destruct (x1_t b l); reflexivity.
  - split; reflexivity.
Qed.

Lemma clamp_le_hi x lo hi : clamp x lo hi <= hi.
Proof. unfold clamp. apply Rmin_r. Qed.

Lemma clamp_ge x lo hi y : y <= x -> y <= hi -> y <= clamp x lo hi.
Proof.
  intros H1 H2. unfold clamp. apply Rmin_glb; [| exact H2].
  apply Rle_trans with x; [exact H1 | apply Rmax_l].
Qed.

Section Sampler.

Variable rng : Type.
Variable randn : rng -> tensor vec3 * rng.
Variable pose : Type.
Variable compose_se3 : tensor mat3 -> tensor vec3 -> pose.

Lemma sample_step_zero_denominator d B L t tn rn x1_t x2_t (g : rng) :
  nth_error (alpha_bar_t d) t = Some 0 ->
  exists e, sample_step rng randn d B L t tn rn x1_t x2_t g = Err e.
Proof.
  intros H. unfold sample_step.
  destruct (sample_predict d t x1_t x2_t) as [[ps1 ps2] [x1' x2']].
  destruct (sample_noise rng randn t tn g) as [[noise g'] | e]; simpl; [| eauto].
  destruct (sample_x0 d B t x1' ps1) as [x0 | e]; simpl; [| eauto].
  destruct (sample_x1 d B t x1' x0 noise) as [x1n | e]; simpl; [| eauto].
  rewrite (sample_x_0_approx_zero d t x2' ps2 H). simpl. eauto.
Qed.

End Sampler.

(** * The properties of the specification *)

(** ** Exponential and logarithm maps *)

(** C6.  [so3_exp_map] of the zero vector is the identity matrix
    exactly, and so the geodesic scaling by [gamma = 0],
    [so3_interpolate(R, ., 0)], is the identity matrix for every [R]. *)
Theorem so3_exp_map_zero_is_identity :
  (forall b l, so3_exp_map (fun _ _ => vzero) b l = eye) /\
  (forall (x y : tensor mat3) b l, so3_interpolate x y 0 b l = eye).
Proof.
  split.
  - intros b l. unfold so3_exp_map. apply so3_exp_map1_zero.
  - intros x y b l. unfold so3_interpolate, so3_exp_map. cbv zeta.
    rewrite vscale_zero. apply so3_exp_map1_zero.
Qed.

(** C4, as stated, fails: the distance of the identity matrix to itself
    is not zero, because [cos_theta = 1] is clamped down to [1 - 1e-7]
    before [acos]. *)
Lemma rotation_distance_loss_identity_not_zero :
  rotation_distance_loss 1 1 (fun _ _ => eye) (fun _ _ => eye) <> Ok 0.
Proof.
  rewrite rotation_distance_loss_self.
  - intros H. injection H as H. pose proof theta_min_pos_sq. lra.
  - lia.
  - lia.
  - intros. apply eye_rotation.
Qed.

(** C4, amended.  For a nonempty batch of rotation matrices,
    [rotation_distance_loss(R, R)] is [acos(1 - 1e-7)^2], the squared
    angle of the clamp bound: a positive constant between [2e-7] and
    [2.1e-7]. *)
Theorem rotation_distance_loss_self_value (B L : nat) (Rs : tensor mat3) :
  (0 < B)%nat -> (0 < L)%nat ->
  (forall b l, (b < B)%nat -> (l < L)%nat -> is_rotation (Rs b l)) ->
  rotation_distance_loss B L Rs Rs = Ok (acos (1 - 1e-7) ^ 2) /\
  2e-7 <= acos (1 - 1e-7) ^ 2 <= 2.1e-7.
Proof.
  intros HB HL Hrot. split.
  - apply rotation_distance_loss_self; assumption.
  - pose proof theta_min_sq as H. unfold theta_min, cos_max in H.
    replace (acos (1 - 1e-7) ^ 2) with (acos (1 - 1e-7) * acos (1 - 1e-7)) by ring.
    exact H.
Qed.

Lemma rotation_distance_loss_self_value_witness :
  (0 < 1)%nat /\ (0 < 1)%nat /\
  (forall b l : nat, (b < 1)%nat -> (l < 1)%nat -> is_rotation eye) /\
  rotation_distance_loss 1 1 (fun _ _ => eye) (fun _ _ => eye)
    = Ok (acos (1 - 1e-7) ^ 2) /\
  2e-7 <= acos (1 - 1e-7) ^ 2 <= 2.1e-7.
Proof.
  split; [lia |]. split; [lia |].
  split; [intros; apply eye_rotation |].
  apply (rotation_distance_loss_self_value 1 1 (fun _ _ => eye)).
  - lia.
  - lia.
  - intros. apply eye_rotation.
Defined.

(** C5, as stated, fails near the angle [PI], in both directions of
    the round trip.  The rotation by [PI] about the first axis is sent
    to the identity matrix by [exp(log(.))], and a tangent vector of
    length [PI - acos(1 - 1e-7) / 2 < PI] comes back from
    [log(exp(.))] with a first component that is off by more than
    [1/2]. *)
Lemma so3_round_trip_fails_near_pi :
  (is_rotation rot_pi /\
   so3_exp_map (so3_log_map (fun _ _ => rot_pi)) 0%nat 0%nat = eye /\
   m11 eye - m11 rot_pi = 2) /\
  (norm v_near_pi < PI /\
   1 / 2 < vx v_near_pi
           - vx (so3_log_map (so3_exp_map (fun _ _ => v_near_pi)) 0%nat 0%nat)).
Proof.
  split.
  - split; [apply rot_pi_rotation |]. split.
    + unfold so3_exp_map, so3_log_map. rewrite so3_log_map1_rot_pi.
      apply so3_exp_map1_zero.
    + simpl. lra.
  - destruct theta_min_range as [H0 H1].
    pose proof PI2_3_2 as Hpi. pose proof PI_4 as Hpi4.
    split; [rewrite norm_v_near_pi; lra |].
    unfold so3_exp_map, so3_log_map. rewrite so3_log_exp_v_near_pi.
    pose proof cos_half_theta_min as Hc. unfold cos_max in Hc.
    unfold v_near_pi. simpl.
    assert (Hle : (PI - theta_min) / (2 * cos (theta_min / 2)) <= PI / 1.8).
    { apply Rle_trans with (PI / (2 * cos (theta_min / 2))).
      - unfold Rdiv. apply Rmult_le_compat_r; [| lra].
        left. apply Rinv_0_lt_compat. lra.
      - unfold Rdiv. apply Rmult_le_compat_l; [lra |].
        apply Rinv_le_contravar; lra. }
    lra.
Qed.

(** C5, amended.  Away from the angle [PI] the two maps are inverse
    within tolerance.  For every tangent vector [v] with [|v| <= PI] and
    [cos |v| >= -1 + 1e-7] (lengths up to [PI - acos(1 - 1e-7)]),
    [log(exp(v))] is within [1e-8] of [v] in every component; for every
    rotation matrix [R] with half trace [(tr R - 1) / 2 >= -1 + 1e-7]
    (angles up to [PI - acos(1 - 1e-7)]), [exp(log(R))], which is
    [so3_interpolate(R, ., 1)], is within [2e-7] of [R] in every entry.
    Both are exact where the clamp of [cos_theta] is inactive, that is
    when moreover the cosine is at most [1 - 1e-7]. *)
Theorem so3_round_trip_away_from_pi :
  (forall (v : tensor vec3) b l,
     norm (v b l) <= PI -> -1 + 1e-7 <= cos (norm (v b l)) ->
     vabs (vsub (so3_log_map (so3_exp_map v) b l) (v b l)) <= 1e-8 /\
     (cos (norm (v b l)) <= 1 - 1e-7 -> so3_log_map (so3_exp_map v) b l = v b l)) /\
  (forall (x y : tensor mat3) b l,
     is_rotation (x b l) -> -1 + 1e-7 <= (trace (x b l) - 1) / 2 ->
     mabs (msub (so3_exp_map (so3_log_map x) b l) (x b l)) <= 2e-7 /\
     so3_interpolate x y 1 b l = so3_exp_map (so3_log_map x) b l /\
     ((trace (x b l) - 1) / 2 <= 1 - 1e-7 -> so3_exp_map (so3_log_map x) b l = x b l)).
Proof.
  split.
  - intros v b l Hpi Hc. unfold so3_log_map, so3_exp_map.
    assert (Hex : cos (norm (v b l)) <= 1 - 1e-7 ->
                  so3_log_map1 (so3_exp_map1 (v b l)) = v b l).
    { intros Hhi. apply so3_log_exp_window; [exact Hpi | split; assumption]. }
    split; [| exact Hex].
    destruct (Rle_dec (cos (norm (v b l))) (1 - 1e-7)) as [Hhi | Hhi].
    + rewrite (Hex Hhi), vabs_self. lra.
    + apply so3_log_exp_small; [exact Hpi | lra].
  - intros x y b l Hr Hc.
    assert (Hex : (trace (x b l) - 1) / 2 <= 1 - 1e-7 ->
                  so3_exp_map1 (so3_log_map1 (x b l)) = x b l).
    { intros Hhi. apply so3_exp_log_window; [exact Hr | split; assumption]. }
    split; [| split; [| exact Hex]].
    + unfold so3_exp_map, so3_log_map.
      destruct (Rle_dec ((trace (x b l) - 1) / 2) (1 - 1e-7)) as [Hhi | Hhi].
      * rewrite (Hex Hhi), mabs_self. lra.
      * apply so3_exp_log_small; [exact Hr | lra].
    + unfold so3_interpolate, so3_exp_map, so3_log_map. cbv zeta.
      f_equal. destruct (so3_log_map1 (x b l)). vec_ring.
Qed.

Lemma so3_round_trip_away_from_pi_witness :
  (norm v_quarter <= PI /\ -1 + 1e-7 <= cos (norm v_quarter) /\
   vabs (vsub (so3_log_map (so3_exp_map (fun _ _ => v_quarter)) 0%nat 0%nat) v_quarter)
     <= 1e-8) /\
  (is_rotation rot_quarter /\ -1 + 1e-7 <= (trace rot_quarter - 1) / 2 /\
   mabs (msub (so3_exp_map (so3_log_map (fun _ _ => rot_quarter)) 0%nat 0%nat) rot_quarter)
     <= 2e-7).
Proof.
  assert (Hn : norm v_quarter = PI / 2).
  { unfold norm, v_quarter. simpl.
    replace (PI / 2 * (PI / 2) + 0 * 0 + 0 * 0) with (PI / 2 * (PI / 2)) by ring.
    apply sqrt_square. pose proof PI_RGT_0. lra. }
  assert (Hv1 : norm v_quarter <= PI) by (rewrite Hn; pose proof PI_RGT_0; lra).
  assert (Hv2 : -1 + 1e-7 <= cos (norm v_quarter))
    by (rewrite Hn, cos_PI2; lra).
  assert (Hr1 : is_rotation rot_quarter)
    by (split; [unfold rot_quarter; apply mat3_eq; simpl; ring
               | unfold det, rot_quarter; simpl; ring]).
  assert (Hr2 : -1 + 1e-7 <= (trace rot_quarter - 1) / 2)
    by (unfold trace, rot_quarter; simpl; lra).
  split.
  - split; [exact Hv1 |]. split; [exact Hv2 |].
    exact (proj1 (proj1 so3_round_trip_away_from_pi (fun _ _ => v_quarter) 0%nat 0%nat
                    Hv1 Hv2)).
  - split; [exact Hr1 |]. split; [exact Hr2 |].
    exact (proj1 (proj2 so3_round_trip_away_from_pi
                    (fun _ _ => rot_quarter) (fun _ _ => eye) 0%nat 0%nat Hr1 Hr2)).
Defined.

(** ** Guards of the maps and of the sampler *)

(** The maps guard their own hazards: the argument of [acos] is in its
    domain, and the denominators [theta_clamped], [theta_clamped^2] and
    [sin(theta_clamped)] are not zero. *)
Lemma so3_maps_guarded (x : R) :
  -1 <= clamp x (-1 + 1e-7) (1 - 1e-7) <= 1 /\
  clamp_min x 1e-8 <> 0 /\ clamp_min x 1e-8 ^ 2 <> 0 /\
  sin (clamp_min (acos (clamp x (-1 + 1e-7) (1 - 1e-7))) 1e-8) <> 0.
Proof.
  pose proof (clamp_range x (-1 + 1e-7) (1 - 1e-7)) as Hc.
  pose proof (clamp_min_pos x) as Hm.
  split; [lra |]. split; [lra |]. split; [apply pow_nonzero; lra |].
  set (c := clamp x (-1 + 1e-7) (1 - 1e-7)) in *.
  assert (Hth : 0 < acos c < PI) by (apply acos_bound_lt; lra).
  assert (Hpos : 0 < sin (clamp_min (acos c) 1e-8)).
  { pose proof PI2_1. apply sin_gt_0.
    - pose proof (clamp_min_pos (acos c)). lra.
    - unfold clamp_min. apply Rmax_lub_lt; lra. }
  lra.
Qed.

Lemma nth_map_in_range (f : R -> R) (l : list R) (t : nat) :
  (t < List.length l)%nat -> nth t (map f l) 0 = f (nth t l 0).
Proof.
  intros H. apply nth_error_nth.
  rewrite nth_error_map, (nth_error_nth' l 0 H). reflexivity.
Qed.

(** Every cumulative product of the Euclidean schedule is in [(0, 1]]. *)
Lemma a_bars_range model bs be ts T sl d t :
  init model bs be ts T sl = Ok d -> (t < T)%nat -> 0 < nth t (a_bars d) 0 <= 1.
Proof.
  intros H Ht. destruct (init_fields _ _ _ _ _ _ _ H) as (_ & _ & _ & _ & Ha & _).
  destruct (nth_error (cosine_schedule T 0.008) t) as [x |] eqn:Hx.
  2:{ apply nth_error_None in Hx. rewrite length_cosine_schedule in Hx. lia. }
  assert (Hxr : 0.001 <= x <= 1).
  { pose proof (cosine_schedule_range T 0.008) as Hall.
    rewrite Forall_forall in Hall. apply Hall. eapply nth_error_In. exact Hx. }
  destruct (cumprod_from_bound (1 :: cosine_schedule T 0.008) 1 (S t) x)
    as (c & Hc & Hb).
  - lra.
  - constructor; [lra |].
    eapply Forall_impl; [| apply cosine_schedule_range]. simpl. intros y Hy. lra.
  - exact Hx.
  - rewrite Ha. rewrite (nth_error_nth _ _ 0 (x := c)); [lra |].
    rewrite nth_error_tl. exact Hc.
Qed.

(** With a zero score the estimate of line 305 is [x0_param1[t] * x_t],
    which line 306 clamps. *)
Lemma zero_score_x0_value model bs be ts T sl d B t x1_t x2_t :
  init model bs be ts T sl = Ok d -> always_zero model -> (t < T)%nat ->
  exists x0,
    sample_x0 d B t (fst (snd (sample_predict d t x1_t x2_t)))
                    (fst (fst (sample_predict d t x1_t x2_t))) = Ok x0 /\
    forall b l,
      x0 b l = vclamp (-1) 1 (vscale (1 / sqrt (nth t (a_bars d) 0)) (x1_t b l)).
Proof.
  intros Hinit Hz Ht.
  pose proof (length_a_bars _ _ _ _ _ _ _ Hinit) as Hlen.
  destruct (init_fields _ _ _ _ _ _ _ Hinit) as (_ & Hm & _ & _ & _ & Hp1 & Hp2 & _).
  assert (Hz' : always_zero (score_model d)) by (rewrite Hm; exact Hz).
  unfold sample_x0.
  rewrite !extract_ok
    by (intros; rewrite ?Hp1, ?Hp2, length_map, Hlen; exact Ht).
  simpl. eexists. split; [reflexivity |].
  intros b l. cbv beta.
  destruct (sample_predict_zero d t x1_t x2_t Hz' b l) as [E1 E2].
  rewrite E1, E2, Hp1, nth_map_in_range by (rewrite Hlen; exact Ht).
  f_equal. unfold vzero. vec_ring.
Qed.

(** C2, as stated, fails.  With the default configuration and a score
    model that always returns zero, the estimate [x0] of the first
    reverse step ([t = 29]) for the noised sample [(0.01, 0, 0)] has a
    first component of at least [0.25]: it is [x_t / sqrt(abar_t)],
    clamped, not [x_t]. *)
Lemma zero_score_x0_differs_from_x_t :
  exists d x0,
    init_default zero_model = Ok d /\
    sample_x0 d 1 29 (fst (snd (sample_predict d 29 x_small (fun _ _ => eye))))
                     (fst (fst (sample_predict d 29 x_small (fun _ _ => eye)))) = Ok x0 /\
    vx (x_small 0%nat 0%nat) = 0.01 /\ 0.25 <= vx (x0 0%nat 0%nat) /\
    x0 0%nat 0%nat <> x_small 0%nat 0%nat.
Proof.
  destruct (init_defined zero_model 0.1 1.0 1.0 30 128) as [d Hd]; [lia |].
  assert (Hz : always_zero zero_model) by (intros x r t; reflexivity).
  destruct (zero_score_x0_value _ _ _ _ _ _ d 1 29 x_small (fun _ _ => eye) Hd Hz)
    as (x0 & Hx0 & Hval); [lia |].
  exists d, x0. split; [exact Hd |]. split; [exact Hx0 |]. split; [reflexivity |].
  assert (Hbig : 0.25 <= vx (x0 0%nat 0%nat)); [| split; [exact Hbig |]].
  2:{ intros E. rewrite E in Hbig. unfold x_small in Hbig. simpl in Hbig. lra. }
  rewrite Hval. unfold x_small. simpl.
  destruct (a_bars_last _ _ _ _ _ _ _ Hd) as (c & Hc & Hb).
  change (30 - 1)%nat with 29%nat in Hc. rewrite (nth_error_nth _ _ 0 Hc).
  assert (Hs : 0 < sqrt c) by (apply sqrt_lt_R0; lra).
  assert (Hss : sqrt c * sqrt c = c) by (apply sqrt_sqrt; lra).
  assert (Hs4 : sqrt c <= 0.04) by nra.
  assert (Hq : 0.25 <= 1 / sqrt c * 0.01).
  { apply Rmult_le_reg_r with (sqrt c); [exact Hs |].
    replace (1 / sqrt c * 0.01 * sqrt c) with 0.01 by (field; lra). lra. }
  apply clamp_ge; lra.
Qed.

(** C2, amended.  When the score model always returns zero, the
    subtracted term vanishes and the estimate [x0] of the reverse
    sampler at every step [t] is [x0_param1[t] * x_t = x_t / sqrt(abar_t)]
    clamped to [[-1, 1]], with [abar_t] in [(0, 1]]. *)
Theorem sample_x0_estimate_zero_score model bs be ts T sl d B t x1_t x2_t :
  init model bs be ts T sl = Ok d -> always_zero model -> (t < T)%nat ->
  exists x0,
    sample_x0 d B t (fst (snd (sample_predict d t x1_t x2_t)))
                    (fst (fst (sample_predict d t x1_t x2_t))) = Ok x0 /\
    0 < nth t (a_bars d) 0 <= 1 /\
    forall b l,
      x0 b l = vclamp (-1) 1 (vscale (1 / sqrt (nth t (a_bars d) 0)) (x1_t b l)).
Proof.
  intros Hinit Hz Ht.
  destruct (zero_score_x0_value model bs be ts T sl d B t x1_t x2_t Hinit Hz Ht)
    as (x0 & Hx0 & Hval).
  exists x0. split; [exact Hx0 |]. split; [| exact Hval].
  apply (a_bars_range model bs be ts T sl d t Hinit Ht).
Qed.

Lemma sample_x0_estimate_zero_score_witness :
  exists d,
    init_default zero_model = Ok d /\ always_zero zero_model /\ (29 < 30)%nat /\
    exists x0,
      sample_x0 d 1 29 (fst (snd (sample_predict d 29 x_small (fun _ _ => eye))))
                       (fst (fst (sample_predict d 29 x_small (fun _ _ => eye)))) = Ok x0 /\
      0 < nth 29 (a_bars d) 0 <= 1 /\
      forall b l,
        x0 b l = vclamp (-1) 1 (vscale (1 / sqrt (nth 29 (a_bars d) 0)) (x_small b l)).
Proof.
  destruct (init_defined zero_model 0.1 1.0 1.0 30 128) as [d Hd]; [lia |].
  exists d. split; [exact Hd |].
  split; [intros x r t; reflexivity |]. split; [lia |].
  apply (sample_x0_estimate_zero_score zero_model 0.1 1.0 1.0 30 128 d 1 29 x_small (fun _ _ => eye)).
  - exact Hd.
  - intros x r t. reflexivity.
  - lia.
Defined.

(** C3.  Not every numerical hazard is guarded by a clamp.  The maps
    guard theirs ([so3_maps_guarded]), but the reverse sampler divides
    by [sqrt(alpha_bar_t[t])] on line 321 as it is: with the default
    configuration [alpha_bar_t[29]] is zero, and the estimate of the
    clean rotation at the first reverse step is a division by zero. *)
Theorem sample_divides_by_zero_default (model : ScoreModel)
  (x2_t : tensor mat3) (predicted_score2 : tensor vec3) :
  bind (init_default model) (fun d => index (alpha_bar_t d) 29) = Ok 0 /\
  bind (init_default model)
       (fun d => sample_x_0_approx d 29 x2_t predicted_score2) = Err NonFinite.
Proof.
  destruct (init_defined model 0.1 1.0 1.0 30 128) as [d Hd]; [lia |].
  unfold init_default. rewrite Hd. simpl bind.
  assert (H0 : nth_error (alpha_bar_t d) 29 = Some 0).
  { apply (alpha_bar_t_last_zero model 0.1 1.0 30 128 d); [lia | exact Hd]. }
  split; [apply index_ok; exact H0 | apply sample_x_0_approx_zero; exact H0].
Qed.

Section SamplerProperties.

Variable rng : Type.
Variable randn : rng -> tensor vec3 * rng.
Variable pose : Type.
Variable compose_se3 : tensor mat3 -> tensor vec3 -> pose.

(** ** Rotations stay on the manifold while the arithmetic is finite *)

(** Case analysis on the first computation of a chain of binds that is
    assumed to succeed. *)
Ltac head_bind :=
  match goal with
  | |- bind ?c _ = Ok _ -> _ =>
      let e := fresh "e" in
      destruct c as [? | e]; simpl; [| discriminate]
  | |- bind (bind ?c _) _ = Ok _ -> _ =>
      let e := fresh "e" in
      destruct c as [? | e]; simpl; [| discriminate]
  end.

Lemma so3_exp_map_valid (v : tensor vec3) b l :
  is_rotation_within 1e-32 (so3_exp_map v b l).
Proof. unfold so3_exp_map. apply so3_exp_map1_valid. Qed.

Lemma forward_process_rotation_valid d B L x1 R0 t ti ri (g g' : rng) x1_t e1 Rt e2 :
  forward_process rng randn d B L x1 R0 t ti ri g = Ok (((x1_t, e1), (Rt, e2)), g') ->
  forall b l, is_rotation_within 1e-32 (Rt b l).
Proof.
  unfold forward_process.
  destruct (match ti with None => randn g | Some e => (e, g) end) as [eps1 g1].
  destruct (extract B (q_param1 d) t); simpl; [| discriminate].
  destruct (extract B (q_param2 d) t); simpl; [| discriminate].
  destruct (extract B (alpha_bar_t d) t); simpl; [| discriminate].
  destruct (randn g1) as [eps2 g2].
  intros H b l. injection H as _ _ <- _ _. apply so3_exp_map_valid.
Qed.

Lemma sample_x_0_approx_is_exp d t x2_t ps2 r :
  sample_x_0_approx d t x2_t ps2 = Ok r -> exists v, r = so3_exp_map v.
Proof.
  unfold sample_x_0_approx. repeat head_bind.
  intros H. injection H as <-. eexists. reflexivity.
Qed.

Lemma sample_x2_is_exp d t x2_t x_0_approx rn (g g' : rng) r :
  sample_x2 rng randn d t x2_t x_0_approx rn g = Ok (r, g') ->
  r = x_0_approx \/ exists v, r = so3_exp_map v.
Proof.
  unfold sample_x2. destruct (Nat.ltb 0 t).
  - repeat head_bind.
    match goal with |- context [match ?p with pair _ _ => _ end] => destruct p end.
    intros H. injection H as <- _. right. eexists. reflexivity.
  - intros H. injection H as <- _. left. reflexivity.
Qed.

Lemma sample_step_rotation_valid d B L t tn rn x1_t x2_t (g g' : rng) x1' x2' :
  sample_step rng randn d B L t tn rn x1_t x2_t g = Ok ((x1', x2'), g') ->
  forall b l, is_rotation_within 1e-32 (x2' b l).
Proof.
  unfold sample_step.
  destruct (sample_predict d t x1_t x2_t) as [[ps1 ps2] [x1 x2]].
  destruct (sample_noise rng randn t tn g) as [[noise g1] | e]; simpl; [| discriminate].
  destruct (sample_x0 d B t x1 ps1) as [x0 | e]; simpl; [| discriminate].
  destruct (sample_x1 d B t x1 x0 noise) as [x1n | e]; simpl; [| discriminate].
  destruct (sample_x_0_approx d t x2 ps2) as [x0a | e] eqn:Ha; simpl; [| discriminate].
  destruct (sample_x2 rng randn d t x2 x0a rn g1) as [[x2n g2] | e] eqn:Hx2; simpl;
    [| discriminate].
  intros H b l. injection H as _ <- _.
  destruct (sample_x_0_approx_is_exp _ _ _ _ _ Ha) as [v0 ->].
  destruct (sample_x2_is_exp _ _ _ _ _ _ _ _ Hx2) as [-> | [v ->]];
    apply so3_exp_map_valid.
Qed.

(** C1.  Rotations stay in SO(3) wherever the arithmetic is finite,
    and the reverse sampler leaves that domain.  The exponential map
    returns a rotation matrix for every tangent vector
    ([so3_exp_map_valid]), and so does every forward step and every
    reverse step that returns ([forward_process_rotation_valid],
    [sample_step_rotation_valid]); but with the default configuration
    the first reverse step divides by [sqrt(alpha_bar_t[29]) = 0], so
    that [sample] returns no rotation at all, whatever its inputs. *)
Theorem sample_default_returns_no_pose (model : ScoreModel) (B L : nat)
  (trans_init : option (tensor vec3)) (rot_init : option (tensor mat3))
  (trans_noise rot_noise : option (list (tensor vec3))) (g : rng) :
  exists e,
    bind (init_default model)
         (fun d => sample rng randn pose compose_se3 d B L 30
                     trans_init rot_init trans_noise rot_noise g) = Err e.
Proof.
  destruct (init_defined model 0.1 1.0 1.0 30 128) as [d Hd]; [lia |].
  unfold init_default. rewrite Hd. simpl bind.
  assert (H0 : nth_error (alpha_bar_t d) 29 = Some 0).
  { apply (alpha_bar_t_last_zero model 0.1 1.0 30 128 d); [lia | exact Hd]. }
  unfold sample.
  destruct (match trans_init with None => randn g | Some x => (x, g) end) as [x1 g1].
  destruct (match rot_init with
            | Some r => (r, g1)
            | None => let '(v_T, g0) := randn g1 in (so3_exp_map v_T, g0)
            end) as [x2 g2].
  change 30%nat with (S 29). cbn [sample_loop].
  destruct (sample_step_zero_denominator rng randn d B L 29 trans_noise rot_noise x1 x2 g2 H0)
    as [e He].
  rewrite He. simpl. exists e. reflexivity.
Qed.

(** ** The sampler with every draw overridden *)

Lemma sample_noise_overridden t tn :
  exists r, forall g : rng, sample_noise rng randn t (Some tn) g = with_state r g.
Proof.
  unfold sample_noise. destruct (Nat.ltb 0 t).
  - destruct (nth_error tn t) as [noise |].
    + exists (Ok noise). reflexivity.
    + exists (Err IndexError). reflexivity.
  - exists (Ok (fun _ _ => vzero)). reflexivity.
Qed.

(** Case analysis on the first computation of a chain of binds that
    does not read the generator. *)
Ltac pure_bind :=
  match goal with
  | |- exists r, forall g, bind ?c _ = with_state r g =>
      let e := fresh "e" in
      destruct c as [? | e]; simpl; [| exists (Err e); reflexivity]
  end.

Lemma sample_x2_overridden d t x2_t x_0_approx rn :
  exists r, forall g : rng,
    sample_x2 rng randn d t x2_t x_0_approx (Some rn) g = with_state r g.
Proof.
  unfold sample_x2. destruct (Nat.ltb 0 t).
  - repeat pure_bind.
    destruct (nth_error rn t) as [eps |]; simpl.
    + eexists (Ok _). intros g. reflexivity.
    + exists (Err IndexError). reflexivity.
  - exists (Ok x_0_approx). reflexivity.
Qed.

Lemma sample_step_overridden d B L t tn rn x1_t x2_t :
  exists r, forall g : rng,
    sample_step rng randn d B L t (Some tn) (Some rn) x1_t x2_t g = with_state r g.
Proof.
  unfold sample_step.
  destruct (sample_predict d t x1_t x2_t) as [[ps1 ps2] [x1 x2]].
  destruct (sample_noise_overridden t tn) as [[noise | e] Hn].
  2:{ exists (Err e). intros g. rewrite Hn. reflexivity. }
  destruct (sample_x0 d B t x1 ps1) as [x0 | e] eqn:E0.
  2:{ exists (Err e). intros g. rewrite Hn. reflexivity. }
  destruct (sample_x1 d B t x1 x0 noise) as [x1n | e] eqn:E1.
  2:{ exists (Err e). intros g. rewrite Hn. simpl. rewrite E1. reflexivity. }
  destruct (sample_x_0_approx d t x2 ps2) as [x0a | e] eqn:Ea.
  2:{ exists (Err e). intros g. rewrite Hn. simpl. rewrite E1. simpl. reflexivity. }
  destruct (sample_x2_overridden d t x2 x0a rn) as [[x2n | e] Hx2].
  - exists (Ok (x1n, x2n)). intros g. rewrite Hn. simpl. rewrite E1. simpl.
    rewrite Hx2. reflexivity.
  - exists (Err e). intros g. rewrite Hn. simpl. rewrite E1. simpl.
    rewrite Hx2. reflexivity.
Qed.

Lemma sample_loop_overridden d B L n tn rn x1_t x2_t :
  exists r, forall g : rng,
    sample_loop rng randn d B L n (Some tn) (Some rn) x1_t x2_t g = with_state r g.
Proof.
  revert x1_t x2_t. induction n as [| t IH]; intros x1_t x2_t.
  - exists (Ok (x1_t, x2_t)). reflexivity.
  - destruct (sample_step_overridden d B L t tn rn x1_t x2_t) as [[[x1' x2'] | e] Hs].
    + destruct (IH x1' x2') as [r Hr]. exists r. intros g.
      cbn [sample_loop]. rewrite Hs. simpl. apply Hr.
    + exists (Err e). intros g. cbn [sample_loop]. rewrite Hs. reflexivity.
Qed.

Lemma sample_overridden d B L n ti ri tn rn :
  exists r, forall g : rng,
    sample rng randn pose compose_se3 d B L n (Some ti) (Some ri) (Some tn) (Some rn) g
    = with_state r g.
Proof.
  unfold sample.
  destruct (sample_loop_overridden d B L n tn rn ti ri) as [[[x1 x2] | e] Hl].
  - destruct (checked_tdiv (fun b l => vclamp (-1) 1 (x1 b l)) (trans_scale d))
      as [x1_out | e] eqn:Hd.
    + eexists (Ok _). intros g. rewrite Hl. simpl. rewrite Hd. reflexivity.
    + exists (Err e). intros g. rewrite Hl. simpl. rewrite Hd. reflexivity.
  - exists (Err e). intros g. rewrite Hl. reflexivity.
Qed.

(** C7.  When [trans_init], [rot_init], [trans_noise] and [rot_noise]
    are all supplied, [sample] draws nothing from the generator: two
    runs from any two generator states return the same result, and the
    generator is left in the state it was given. *)
Theorem sample_overridden_deterministic d B L (num_steps : nat)
  (trans_init : tensor vec3) (rot_init : tensor mat3)
  (trans_noise rot_noise : list (tensor vec3)) (g1 g2 : rng) :
  value_of (sample rng randn pose compose_se3 d B L num_steps (Some trans_init)
              (Some rot_init) (Some trans_noise) (Some rot_noise) g1)
  = value_of (sample rng randn pose compose_se3 d B L num_steps (Some trans_init)
                (Some rot_init) (Some trans_noise) (Some rot_noise) g2)
  /\ match sample rng randn pose compose_se3 d B L num_steps (Some trans_init)
             (Some rot_init) (Some trans_noise) (Some rot_noise) g1 with
     | Ok (_, g') => g' = g1
     | Err _ => True
     end.
Proof.
  destruct (sample_overridden d B L num_steps trans_init rot_init trans_noise rot_noise)
    as [r Hr].
  rewrite !Hr. destruct r as [v | e]; simpl; split; reflexivity || exact I.
Qed.

(** ** The forward process *)

(** C10.  [forward_process] never reads [rot_init]: two calls that
    differ in [rot_init] only are the same computation, and the
    rotational noise [epsilon2] it returns is the draw it makes from the
    generator after [epsilon1], also when [rot_init] is supplied. *)
Theorem forward_process_ignores_rot_init d B L x1 R0 t
  (trans_init : option (tensor vec3)) (rot_init rot_init' : option (tensor mat3))
  (g : rng) :
  forward_process rng randn d B L x1 R0 t trans_init rot_init g
  = forward_process rng randn d B L x1 R0 t trans_init rot_init' g
  /\ match forward_process rng randn d B L x1 R0 t trans_init rot_init g with
     | Ok ((_, (_, epsilon2)), g') =>
         (epsilon2, g') =
         randn (match trans_init with None => snd (randn g) | Some _ => g end)
     | Err _ => True
     end.
Proof.
  split; [reflexivity |].
  unfold forward_process.
  destruct trans_init as [e1 |].
  - destruct (extract B (q_param1 d) t); simpl; [| exact I].
    destruct (extract B (q_param2 d) t); simpl; [| exact I].
    destruct (extract B (alpha_bar_t d) t); simpl; [| exact I].
    destruct (randn g) as [e2 g2]. reflexivity.
  - destruct (randn g) as [e1 g1]. simpl.
    destruct (extract B (q_param1 d) t); simpl; [| exact I].
    destruct (extract B (q_param2 d) t); simpl; [| exact I].
    destruct (extract B (alpha_bar_t d) t); simpl; [| exact I].
    destruct (randn g1) as [e2 g2]. reflexivity.
Qed.

Lemma init_schedule_lengths model bs be ts T sl d :
  init model bs be ts T sl = Ok d ->
  List.length (q_param1 d) = T /\ List.length (q_param2 d) = T /\
  List.length (x0_param1 d) = T /\ List.length (x0_param2 d) = T /\
  List.length (alpha_bar_t d) = T.
Proof.
  intros H. pose proof (length_a_bars _ _ _ _ _ _ _ H) as Hlen.
  destruct (init_fields _ _ _ _ _ _ _ H)
    as (_ & _ & _ & _ & _ & Hp1 & Hp2 & Hq1 & Hq2 & Hb & Hal & Hab & _).
  rewrite Hp1, Hp2, Hq1, Hq2, Hab, Hal, Hb. unfold cumprod.
  rewrite length_cumprod_from, !length_map, length_linspace. tauto.
Qed.

Lemma forward_process_defined model bs be ts T sl d B L x1 R0 t ti ri (g : rng) :
  init model bs be ts T sl = Ok d -> (forall b, (b < B)%nat -> (t b < T)%nat) ->
  forward_process rng randn d B L x1 R0 t ti ri g =
  let eg := match ti with None => randn g | Some e => (e, g) end in
  let epsilon1 := fst eg in
  let eg2 := randn (snd eg) in
  let epsilon2 := fst eg2 in
  Ok (((fun b l => vadd (vscale (nth (t b) (q_param1 d) 0) (x1 b l))
                        (vscale (nth (t b) (q_param2 d) 0) (epsilon1 b l)),
        epsilon1),
       (so3_exp_map (fun b l =>
          vadd (vscale (sqrt (nth (t b) (alpha_bar_t d) 0)) (so3_log_map R0 b l))
               (vscale (sqrt (1.0 - nth (t b) (alpha_bar_t d) 0)) (epsilon2 b l))),
        epsilon2)),
      snd eg2).
Proof.
  intros Hinit Ht.
  destruct (init_schedule_lengths _ _ _ _ _ _ _ Hinit) as (L1 & L2 & _ & _ & L5).
  unfold forward_process. cbv zeta.
  destruct (match ti with None => randn g | Some e => (e, g) end) as [e1 g1].
  rewrite !extract_ok by (intros; rewrite ?L1, ?L2, ?L5; apply Ht; assumption).
  simpl. destruct (randn g1) as [e2 g2]. reflexivity.
Qed.

(** C9.  For a timestep batch within the schedule, the Euclidean
    branch of [forward_process] returns, for every example [b], [x_t =
    sqrt(abar_{t_b}) * x0 + sqrt(1 - abar_{t_b}) * epsilon1], where
    [epsilon1] is the override [trans_init] when it is given and the
    next draw of the generator otherwise, and the returned noise is that
    [epsilon1]. *)
Theorem forward_process_euclidean model bs be ts T sl d B L x1 R0 t
  (trans_init : option (tensor vec3)) (rot_init : option (tensor mat3)) (g : rng) :
  init model bs be ts T sl = Ok d -> (forall b, (b < B)%nat -> (t b < T)%nat) ->
  exists x1_t epsilon1 rot g',
    forward_process rng randn d B L x1 R0 t trans_init rot_init g
      = Ok (((x1_t, epsilon1), rot), g') /\
    epsilon1 = match trans_init with Some e => e | None => fst (randn g) end /\
    forall b l, (b < B)%nat ->
      x1_t b l = vadd (vscale (sqrt (nth (t b) (a_bars d) 0)) (x1 b l))
                      (vscale (sqrt (1 - nth (t b) (a_bars d) 0)) (epsilon1 b l)).
Proof.
  intros Hinit Ht.
  rewrite (forward_process_defined _ _ _ _ _ _ d B L x1 R0 t trans_init rot_init g Hinit Ht).
  cbv zeta. do 4 eexists. split; [reflexivity |]. split.
  - destruct trans_init; reflexivity.
  - intros b l Hb.
    pose proof (length_a_bars _ _ _ _ _ _ _ Hinit) as Hlen.
    destruct (init_fields _ _ _ _ _ _ _ Hinit)
      as (_ & _ & _ & _ & _ & _ & _ & Hq1 & Hq2 & _).
    rewrite Hq1, Hq2.
    rewrite (nth_map_in_range sqrt), (nth_map_in_range (fun ab => sqrt (1 - ab)))
      by (rewrite Hlen; apply Ht; exact Hb).
    reflexivity.
Qed.

(** ** The loss *)

Lemma mean_of_defined (total : R) (count : nat) :
  count <> 0%nat -> mean_of total count = Ok (total / INR count).
Proof.
  intros H. unfold mean_of. destruct (Nat.eqb_spec count 0); [contradiction | reflexivity].
Qed.

(** C8.  For a nonempty batch and a timestep batch within the schedule,
    [compute_loss] returns as total the sum of four terms: the mean
    absolute error between the predicted and the true Euclidean noise,
    the mean absolute error between the reconstructed clean signal
    [x0_param1[t] * (x_t - x0_param2[t] * score1)] and the clean
    signal, the rotation distance between [exp(score2)] and
    [exp(epsilon2)], and a fourth term that is zero. *)
Theorem compute_loss_total model bs be ts T sl d B L x1 x2 t (g : rng) :
  init model bs be ts T sl = Ok d -> (0 < B)%nat -> (0 < L)%nat ->
  (forall b, (b < B)%nat -> (t b < T)%nat) ->
  exists x1_t epsilon1 x2_t epsilon2 g' loss1 loss_origin1 loss2,
    forward_process rng randn d B L (fun b l => vscale (trans_scale d) (x1 b l)) x2 t
      None None g = Ok (((x1_t, epsilon1), (x2_t, epsilon2)), g') /\
    l1_loss B L (fst (fst (loss_predict d t x1_t x2_t))) epsilon1 = Ok loss1 /\
    l1_loss B L
      (loss_x0 (fun b => nth (t b) (x0_param1 d) 0) (fun b => nth (t b) (x0_param2 d) 0)
               (snd (loss_predict d t x1_t x2_t)) (fst (fst (loss_predict d t x1_t x2_t))))
      x1 = Ok loss_origin1 /\
    rotation_distance_loss B L (so3_exp_map (snd (fst (loss_predict d t x1_t x2_t))))
      (so3_exp_map epsilon2) = Ok loss2 /\
    compute_loss rng randn d B L x1 x2 t g
      = Ok ((loss1 + loss_origin1 + loss2 + 0, loss1, loss2, loss_origin1, 0), g').
Proof.
  intros Hinit HB HL Ht.
  destruct (init_schedule_lengths _ _ _ _ _ _ _ Hinit) as (_ & _ & L3 & L4 & _).
  pose proof (forward_process_defined _ _ _ _ _ _ d B L
                (fun b l => vscale (trans_scale d) (x1 b l)) x2 t None None g Hinit Ht)
    as Hf.
  cbv zeta in Hf.
  match type of Hf with
  | _ = Ok (((?u1, ?u2), (?u3, ?u4)), ?u5) => exists u1, u2, u3, u4, u5
  end.
  unfold compute_loss. rewrite Hf. simpl bind. cbv beta iota.
  match goal with
  | |- context [loss_predict d t ?u ?v] =>
      destruct (loss_predict d t u v) as [[ps1 ps2] x1']
  end.
  rewrite !extract_ok by (intros; rewrite ?L3, ?L4; apply Ht; assumption).
  simpl bind. simpl fst. simpl snd.
  unfold l1_loss, rotation_distance_loss. cbv zeta.
  rewrite !mean_of_defined by nia. simpl bind.
  do 3 eexists. repeat split; reflexivity.
Qed.

End SamplerProperties.

(** ** Closed instances *)

Lemma forward_process_euclidean_witness :
  exists d,
    init_default zero_model = Ok d /\
    (forall b : nat, (b < 1)%nat -> (0 < 30)%nat) /\
    exists x1_t epsilon1 rot g',
      forward_process unit randn_zero d 1 1 x_small (fun _ _ => eye) (fun _ => 0%nat)
        None None tt = Ok (((x1_t, epsilon1), rot), g') /\
      epsilon1 = fst (randn_zero tt) /\
      forall b l, (b < 1)%nat ->
        x1_t b l = vadd (vscale (sqrt (nth 0 (a_bars d) 0)) (x_small b l))
                        (vscale (sqrt (1 - nth 0 (a_bars d) 0)) (epsilon1 b l)).
Proof.
  destruct (init_defined zero_model 0.1 1.0 1.0 30 128) as [d Hd]; [lia |].
  exists d. split; [exact Hd |]. split; [intros; lia |].
  apply (forward_process_euclidean unit randn_zero zero_model 0.1 1.0 1.0 30 128 d 1 1
           x_small (fun _ _ => eye) (fun _ => 0%nat) None None tt).
  - exact Hd.
  - intros. lia.
Defined.

Lemma compute_loss_total_witness :
  exists d,
    init_default zero_model = Ok d /\ (0 < 1)%nat /\ (0 < 1)%nat /\
    (forall b : nat, (b < 1)%nat -> (0 < 30)%nat) /\
    exists x1_t epsilon1 x2_t epsilon2 g' loss1 loss_origin1 loss2,
      forward_process unit randn_zero d 1 1
        (fun b l => vscale (trans_scale d) (x_small b l)) (fun _ _ => eye)
        (fun _ => 0%nat) None None tt = Ok (((x1_t, epsilon1), (x2_t, epsilon2)), g') /\
      l1_loss 1 1 (fst (fst (loss_predict d (fun _ => 0%nat) x1_t x2_t))) epsilon1
        = Ok loss1 /\
      l1_loss 1 1
        (loss_x0 (fun b => nth 0 (x0_param1 d) 0) (fun b => nth 0 (x0_param2 d) 0)
                 (snd (loss_predict d (fun _ => 0%nat) x1_t x2_t))
                 (fst (fst (loss_predict d (fun _ => 0%nat) x1_t x2_t))))
        x_small = Ok loss_origin1 /\
      rotation_distance_loss 1 1
        (so3_exp_map (snd (fst (loss_predict d (fun _ => 0%nat) x1_t x2_t))))
        (so3_exp_map epsilon2) = Ok loss2 /\
      compute_loss unit randn_zero d 1 1 x_small (fun _ _ => eye) (fun _ => 0%nat) tt
        = Ok ((loss1 + loss_origin1 + loss2 + 0, loss1, loss2, loss_origin1, 0), g').
Proof.
  destruct (init_defined zero_model 0.1 1.0 1.0 30 128) as [d Hd]; [lia |].
  exists d. split; [exact Hd |]. split; [lia |]. split; [lia |].
  split; [intros; lia |].
  apply (compute_loss_total unit randn_zero zero_model 0.1 1.0 1.0 30 128 d 1 1
           x_small (fun _ _ => eye) (fun _ => 0%nat) tt).
  - exact Hd.
  - lia.
  - lia.
  - intros. lia.
Defined.

(** ** Where the reverse step is defined *)

(** A cumulative product is positive and at most [acc] times the first
    factor as long as the factors up to it are in [(0, 1]]. *)
Lemma cumprod_from_prefix_bound (l : list R) (acc : R) (t : nat) (x0 : R) :
  0 < acc -> nth_error l 0 = Some x0 -> (t < List.length l)%nat ->
  (forall i x, (i <= t)%nat -> nth_error l i = Some x -> 0 < x <= 1) ->
  exists c, nth_error (cumprod_from acc l) t = Some c /\ 0 < c <= acc * x0.
Proof.
  revert acc t x0. induction l as [| y l IH]; intros acc t x0 Hacc H0 Ht Hall;
    simpl in *; [lia |].
  injection H0 as ->.
  assert (Hx0 : 0 < x0 <= 1) by (apply (Hall 0%nat); [lia | reflexivity]).
  destruct t as [| t]; simpl.
  - exists (acc * x0). split; [reflexivity | nra].
  - destruct l as [| z l]; simpl in Ht; [lia |].
    assert (Hz : 0 < z <= 1) by (apply (Hall 1%nat); [lia | reflexivity]).
    destruct (IH (acc * x0) t z) as (c & Hc & Hb).
    + nra.
    + reflexivity.
    + simpl. lia.
    + intros i x Hi Hx. apply (Hall (S i)); [lia | exact Hx].
    + exists c. split; [exact Hc | nra].
Qed.

(** With the default configuration the cumulative products of the
    rotational schedule before the last one are in [(0, 0.9]]. *)
Lemma alpha_bar_t_default_before_last model d t :
  init_default model = Ok d -> (t < 29)%nat ->
  exists c, nth_error (alpha_bar_t d) t = Some c /\ 0 < c <= 0.9.
Proof.
  intros H Ht. destruct (init_fields _ _ _ _ _ _ _ H)
    as (_ & _ & _ & _ & _ & _ & _ & _ & _ & Hb & Hal & Hab & _).
  rewrite Hab, Hal, Hb.
  assert (Hi : forall i, (i < 30)%nat ->
            nth_error (map (fun x => 1.0 - x) (linspace 0.1 1.0 30)) i
            = Some (0.9 - INR i * (0.9 / 29))).
  { intros i Hi. rewrite nth_error_map, nth_error_linspace by exact Hi. simpl option_map.
    f_equal. change (30 - 1)%nat with 29%nat.
    replace (INR 29) with 29 by (rewrite INR_IZR_INZ; reflexivity). lra. }
  destruct (cumprod_from_prefix_bound
              (map (fun x => 1.0 - x) (linspace 0.1 1.0 30)) 1 t 0.9) as (c & Hc & Hbd).
  - lra.
  - rewrite (Hi 0%nat) by lia. simpl. f_equal. lra.
  - rewrite length_map, length_linspace. lia.
  - intros i x Hle Hx. rewrite (Hi i) in Hx by lia. injection Hx as <-.
    assert (Hr : 0 <= INR i <= 28).
    { split; [apply pos_INR |].
      replace 28 with (INR 28) by (rewrite INR_IZR_INZ; reflexivity).
      apply le_INR. lia. }
    lra.
  - exists c. split; [exact Hc | lra].
Qed.

Section StepDefined.

Variable rng : Type.
Variable randn : rng -> tensor vec3 * rng.

(** The reverse step returns a result as soon as its two denominators,
    [sqrt(alpha_bar_t[t])] and [1 - alpha_bar_t[t]], are not zero. *)
Lemma sample_step_defined model bs be ts T sl d B L t x1_t x2_t (g : rng) (abar : R) :
  init model bs be ts T sl = Ok d -> (t < T)%nat ->
  nth_error (alpha_bar_t d) t = Some abar -> 0 < abar -> abar <> 1 ->
  exists r, sample_step rng randn d B L t None None x1_t x2_t g = Ok r.
Proof.
  intros Hinit Ht Hab Hpos Hne.
  destruct (init_schedule_lengths _ _ _ _ _ _ _ Hinit) as (_ & _ & L3 & L4 & L5).
  destruct (init_fields _ _ _ _ _ _ _ Hinit)
    as (_ & _ & _ & _ & _ & _ & _ & _ & _ & Hb & Hal & _ & L6 & L7 & L8).
  assert (Lb : List.length (beta_t d) = T) by (rewrite Hb; apply length_linspace).
  assert (La : List.length (alpha_t d) = T) by (rewrite Hal, length_map; exact Lb).
  unfold sample_step.
  destruct (sample_predict d t x1_t x2_t) as [[ps1 ps2] [x1 x2]].
  assert (Hn : exists ng, sample_noise rng randn t None g = Ok ng).
  { unfold sample_noise. destruct (Nat.ltb 0 t); eexists; reflexivity. }
  destruct Hn as [[noise g1] Hn]. rewrite Hn. simpl bind.
  unfold sample_x0, sample_x1.
  rewrite !extract_ok by (intros; rewrite ?L3, ?L4, ?L6, ?L7, ?L8; exact Ht).
  simpl bind.
  unfold sample_x_0_approx. rewrite (index_ok _ _ _ Hab). simpl bind.
  rewrite checked_tdiv_ok by (pose proof (sqrt_lt_R0 abar Hpos); lra).
  simpl bind.
  unfold sample_x2. destruct (Nat.ltb 0 t); [| eexists; reflexivity].
  rewrite (index_ok _ _ _ (nth_error_nth' (alpha_t d) 0 (n := t) ltac:(lia))).
  rewrite (index_ok _ _ _ (nth_error_nth' (beta_t d) 0 (n := t) ltac:(lia))).
  rewrite (index_ok _ _ _ (nth_error_nth' (alpha_t d) 0 (n := (t - 1)%nat) ltac:(lia))).
  rewrite (index_ok _ _ _ (nth_error_nth' (alpha_bar_t d) 0 (n := (t - 1)%nat) ltac:(lia))).
  rewrite (index_ok _ _ _ Hab). simpl bind.
  rewrite !checked_div_ok by lra. simpl bind.
  destruct (randn g1) as [eps g2]. eexists. reflexivity.
Qed.

(** With the default configuration every reverse step but the first
    one ([t = 29]) returns a result. *)
Lemma sample_step_default_defined model d B L t x1_t x2_t (g : rng) :
  init_default model = Ok d -> (t < 29)%nat ->
  exists r, sample_step rng randn d B L t None None x1_t x2_t g = Ok r.
Proof.
  intros H Ht.
  destruct (alpha_bar_t_default_before_last model d t H Ht) as (c & Hc & Hb).
  apply (sample_step_defined model 0.1 1.0 1.0 30 128 d B L t x1_t x2_t g c);
    [exact H | lia | exact Hc | lra | lra].
Qed.

End StepDefined.

(** ** The model on small inputs *)

Example skew_symmetric_is_cross_product (v w : vec3) :
  let S := skew_symmetric v in
  mkvec (m00 S * vx w + m01 S * vy w + m02 S * vz w)
        (m10 S * vx w + m11 S * vy w + m12 S * vz w)
        (m20 S * vx w + m21 S * vy w + m22 S * vz w)
  = mkvec (vy v * vz w - vz v * vy w) (vz v * vx w - vx v * vz w)
          (vx v * vy w - vy v * vx w).
Proof. destruct v, w. apply vec3_eq; simpl; ring. Qed.

Example cumprod_of_three (x y z : R) :
  cumprod [x; y; z] = [1 * x; 1 * x * y; 1 * x * y * z].
Proof. reflexivity. Qed.

Example extract_out_of_range : extract 2 [1; 2; 3] (fun b => (b + 2)%nat) = Err IndexError.
Proof. reflexivity. Qed.

Example init_no_timesteps (model : ScoreModel) :
  init model 0.1 1.0 1.0 0 128 = Err ZeroDivisionError.
Proof. reflexivity. Qed.

Example mean_of_empty (total : R) : mean_of total 0 = Err NonFinite.
Proof. reflexivity. Qed.

Example so3_exp_map1_quarter_turn : so3_exp_map1 v_quarter = rot_quarter.
Proof.
  pose proof PI_RGT_0 as Hpi. pose proof PI2_1 as Hpi2.
  assert (Hn : norm v_quarter = PI / 2).
  { unfold norm, v_quarter. simpl.
    replace (PI / 2 * (PI / 2) + 0 * 0 + 0 * 0) with (PI / 2 * (PI / 2)) by ring.
    apply sqrt_square. lra. }
  rewrite so3_exp_map1_rodrigues, Hn, sin_PI2, cos_PI2.
  unfold clamp_min. rewrite Rmax_left by lra.
  unfold rodrigues, v_quarter, rot_quarter. apply mat3_eq; simpl; field; lra.
Qed.

Example so3_log_map1_quarter_turn : so3_log_map1 rot_quarter = v_quarter.
Proof.
  rewrite <- so3_exp_map1_quarter_turn.
  pose proof PI_RGT_0 as Hpi.
  assert (Hn : norm v_quarter = PI / 2).
  { unfold norm, v_quarter. simpl.
    replace (PI / 2 * (PI / 2) + 0 * 0 + 0 * 0) with (PI / 2 * (PI / 2)) by ring.
    apply sqrt_square. lra. }
  apply so3_log_exp_window; rewrite Hn; [lra | rewrite cos_PI2; lra].
Qed.

(** ** Further properties of the exponential and logarithm maps *)

Lemma acos_decreasing (x y : R) : -1 <= x -> x <= y -> y <= 1 -> acos y <= acos x.
Proof.
  intros Hx Hxy Hy.
  destruct (Rle_dec (acos y) (acos x)) as [H | H]; [exact H |].
  exfalso. apply Rnot_le_lt in H.
  pose proof (acos_bound x) as Bx. pose proof (acos_bound y) as By.
  assert (Hc : cos (acos y) < cos (acos x)) by (apply cos_decreasing_1; lra).
  rewrite !cos_acos in Hc by lra. lra.
Qed.

(** The angle read off a clamped cosine is between [theta_min] and
    [PI - theta_min]. *)
Lemma clamped_angle_range (x : R) :
  theta_min <= acos (clamp x (-1 + 1e-7) (1 - 1e-7)) <= PI - theta_min.
Proof.
  pose proof (clamp_range x (-1 + 1e-7) (1 - 1e-7) ltac:(lra)) as Hc.
  unfold theta_min, cos_max. split.
  - apply acos_decreasing; lra.
  - replace (PI - acos (1 - 1e-7)) with (acos (- (1 - 1e-7))) by apply acos_opp.
    apply acos_decreasing; lra.
Qed.

Lemma clamped_angle_sin (x : R) :
  0 < sin (acos (clamp x (-1 + 1e-7) (1 - 1e-7))) /\
  sin (acos (clamp x (-1 + 1e-7) (1 - 1e-7))) ^ 2
  = 1 - clamp x (-1 + 1e-7) (1 - 1e-7) ^ 2.
Proof.
  pose proof (clamped_angle_range x) as Hr. pose proof theta_min_range as Ht.
  pose proof (clamp_range x (-1 + 1e-7) (1 - 1e-7) ltac:(lra)) as Hc.
  split.
  - apply sin_gt_0; lra.
  - pose proof (sin2_cos2 (acos (clamp x (-1 + 1e-7) (1 - 1e-7)))) as H.
    rewrite cos_acos in H by lra. unfold Rsqr in H. nra.
Qed.

Lemma norm_neg (v : vec3) : norm (vscale (-1) v) = norm v.
Proof. rewrite !norm_norm2, norm2_vscale. f_equal. ring. Qed.

Lemma rodrigues_transpose (ca cb : R) (v : vec3) :
  mtranspose (rodrigues ca cb v) = rodrigues (- ca) cb v.
Proof. unfold rodrigues. destruct v. mat_ring. Qed.

Lemma norm_v_quarter : norm v_quarter = PI / 2.
Proof.
  pose proof PI_RGT_0 as Hpi. unfold norm, v_quarter. simpl.
  replace (PI / 2 * (PI / 2) + 0 * 0 + 0 * 0) with (PI / 2 * (PI / 2)) by ring.
  apply sqrt_square. lra.
Qed.

(** X1.  Whatever the tangent vector is, [so3_exp_map] returns a matrix
    that is orthonormal with determinant one within [1e-32]: the clamp
    of the angle at [1e-8] is the only source of error. *)
Theorem so3_exp_map_near_rotation (v : tensor vec3) (b l : nat) :
  mabs (msub (mmul (mtranspose (so3_exp_map v b l)) (so3_exp_map v b l)) eye) <= 1e-32 /\
  Rabs (det (so3_exp_map v b l) - 1) <= 1e-32.
Proof. exact (so3_exp_map1_valid (v b l)). Qed.

(** X2.  For a tangent vector of length [theta >= 1e-8],
    [so3_exp_map] returns an exact rotation matrix, whose trace is
    [1 + 2 cos(theta)]: a rotation by the angle [theta]. *)
Theorem so3_exp_map_exact_rotation (v : tensor vec3) (b l : nat) :
  1e-8 <= norm (v b l) ->
  is_rotation (so3_exp_map v b l) /\
  trace (so3_exp_map v b l) = 1 + 2 * cos (norm (v b l)).
Proof.
  intros H. split; [apply so3_exp_map1_exact; exact H |].
  unfold so3_exp_map.
  pose proof (rodrigues_half_trace (sin (norm (v b l)) / clamp_min (norm (v b l)) 1e-8)
                ((1 - cos (norm (v b l))) / clamp_min (norm (v b l)) 1e-8 ^ 2) (v b l)) as Ht.
  rewrite <- so3_exp_map1_rodrigues in Ht.
  unfold clamp_min in Ht. rewrite Rmax_left in Ht by lra.
  rewrite <- norm_sqr in Ht. unfold trace.
  assert (Hc : (1 - cos (norm (v b l))) / norm (v b l) ^ 2 * (norm (v b l) * norm (v b l))
               = 1 - cos (norm (v b l))) by (field; lra).
  rewrite Hc in Ht. lra.
Qed.

Lemma so3_exp_map_exact_rotation_witness :
  1e-8 <= norm v_quarter /\
  is_rotation (so3_exp_map (fun _ _ => v_quarter) 0%nat 0%nat) /\
  trace (so3_exp_map (fun _ _ => v_quarter) 0%nat 0%nat) = 1 + 2 * cos (norm v_quarter).
Proof.
  assert (H : 1e-8 <= norm v_quarter)
    by (rewrite norm_v_quarter; pose proof PI2_1; lra).
  split; [exact H |].
  exact (so3_exp_map_exact_rotation (fun _ _ => v_quarter) 0%nat 0%nat H).
Defined.

(** X3.  The matrix that [so3_exp_map] returns for [v] leaves [v] where
    it is: [v] is the axis of the rotation. *)
Theorem so3_exp_map_fixes_axis (v : tensor vec3) (b l : nat) :
  mvmul (so3_exp_map v b l) (v b l) = v b l.
Proof.
  unfold so3_exp_map. rewrite so3_exp_map1_rodrigues.
  generalize (sin (norm (v b l)) / clamp_min (norm (v b l)) 1e-8).
  generalize ((1 - cos (norm (v b l))) / clamp_min (norm (v b l)) 1e-8 ^ 2).
  intros cb ca. destruct (v b l). unfold rodrigues, mvmul. vec_ring.
Qed.

Lemma axial_transpose (p : mat3) : axial (mtranspose p) = vscale (-1) (axial p).
Proof. destruct p. unfold axial. apply vec3_eq; simpl; field. Qed.

(** X4.  Both maps turn inversion into a sign: the exponential of the
    opposite vector is the transposed matrix, which is the inverse
    rotation, and the logarithm of the transposed matrix is the opposite
    of the logarithm, for every vector and every matrix. *)
Theorem so3_maps_transpose (v : tensor vec3) (R : tensor mat3) (b l : nat) :
  so3_exp_map (fun b l => vscale (-1) (v b l)) b l = mtranspose (so3_exp_map v b l) /\
  so3_log_map (fun b l => mtranspose (R b l)) b l = vscale (-1) (so3_log_map R b l).
Proof.
  split.
  - unfold so3_exp_map. rewrite !so3_exp_map1_rodrigues, norm_neg.
    rewrite rodrigues_vscale, rodrigues_transpose. f_equal; ring.
  - unfold so3_log_map. rewrite !so3_log_map1_axial, axial_transpose.
    destruct (R b l) as [a00 a01 a02 a10 a11 a12 a20 a21 a22].
    cbn [m00 m11 m22 mtranspose].
    apply vec3_eq; simpl; ring.
Qed.

(** X5.  The logarithm of a symmetric matrix is the zero vector: of
    the identity, and of every rotation by [PI], whose axis is lost. *)
Theorem so3_log_map_symmetric (R : tensor mat3) (b l : nat) :
  mtranspose (R b l) = R b l -> so3_log_map R b l = vzero.
Proof.
  intros H. unfold so3_log_map. rewrite so3_log_map1_axial.
  assert (Ha : axial (R b l) = vzero).
  { pose proof (axial_transpose (R b l)) as Ht. rewrite H in Ht.
    destruct (axial (R b l)) as [x y z]. unfold vscale in Ht. simpl in Ht.
    injection Ht as Hx Hy Hz. unfold vzero. f_equal; lra. }
  rewrite Ha. apply vec3_eq; simpl; ring.
Qed.

Lemma so3_log_map_symmetric_witness :
  mtranspose rot_pi = rot_pi /\ so3_log_map (fun _ _ => rot_pi) 0%nat 0%nat = vzero.
Proof.
  assert (H : mtranspose rot_pi = rot_pi) by reflexivity.
  split; [exact H |].
  exact (so3_log_map_symmetric (fun _ _ => rot_pi) 0%nat 0%nat H).
Defined.

(** The squared clamped cosine is at most the squared cosine. *)
Lemma clamp_sq_le (x : R) :
  -1 <= x <= 1 -> clamp x (-1 + 1e-7) (1 - 1e-7) ^ 2 <= x ^ 2.
Proof.
  intros Hx. unfold clamp.
  destruct (Rle_dec x (-1 + 1e-7)) as [Hlo | Hlo].
  - rewrite Rmax_right, Rmin_left by lra. nra.
  - rewrite Rmax_left by lra.
    destruct (Rle_dec x (1 - 1e-7)) as [Hhi | Hhi].
    + rewrite Rmin_left by lra. lra.
    + rewrite Rmin_right by lra. nra.
Qed.

Lemma rotation_half_trace_range (p : mat3) :
  is_rotation p -> -1 <= (trace p - 1) / 2 <= 1.
Proof.
  intros H. pose proof (rotation_axial_norm2 p H) as Hn.
  pose proof (norm2_nonneg (axial p)) as Hp. nra.
Qed.

Lemma so3_log_map1_norm (p : mat3) :
  is_rotation p ->
  norm (so3_log_map1 p)
  <= acos (clamp ((trace p - 1) / 2) (-1 + 1e-7) (1 - 1e-7)).
Proof.
  intros H. rewrite so3_log_map1_axial. fold (trace p).
  set (c0 := (trace p - 1) / 2).
  pose proof (clamped_angle_range c0) as Hr. pose proof theta_min_range as Ht.
  pose proof theta_min_lower as Hl.
  destruct (clamped_angle_sin c0) as [Hs Hs2].
  set (th := acos (clamp c0 (-1 + 1e-7) (1 - 1e-7))) in *.
  unfold clamp_min. rewrite Rmax_left by lra.
  assert (Hk : 0 <= th / sin th).
  { apply Rlt_le, Rdiv_lt_0_compat; lra. }
  rewrite norm_vscale by exact Hk.
  pose proof (rotation_axial_norm2 p H) as Hn. fold c0 in Hn.
  pose proof (clamp_sq_le c0 (rotation_half_trace_range p H)) as Hc.
  pose proof (norm_nonneg (axial p)) as Hp.
  pose proof (norm_sqr (axial p)) as Hq.
  assert (Hle : norm (axial p) <= sin th) by nra.
  apply Rle_trans with (th / sin th * sin th).
  - apply Rmult_le_compat_l; assumption.
  - right. field. lra.
Qed.

(** X6.  The logarithm of a rotation matrix is never longer than
    [PI - acos(1 - 1e-7)], so it is shorter than [PI]. *)
Theorem so3_log_map_norm_bound (R : tensor mat3) (b l : nat) :
  is_rotation (R b l) ->
  norm (so3_log_map R b l) <= PI - acos (1 - 1e-7) /\ norm (so3_log_map R b l) < PI.
Proof.
  intros H. pose proof (so3_log_map1_norm (R b l) H) as Hn.
  pose proof (clamped_angle_range ((trace (R b l) - 1) / 2)) as Hr.
  pose proof theta_min_range as Ht. unfold theta_min, cos_max in *.
  unfold so3_log_map. split; lra.
Qed.

Lemma so3_log_map_norm_bound_witness :
  is_rotation rot_quarter /\
  norm (so3_log_map (fun _ _ => rot_quarter) 0%nat 0%nat) <= PI - acos (1 - 1e-7) /\
  norm (so3_log_map (fun _ _ => rot_quarter) 0%nat 0%nat) < PI.
Proof.
  assert (H : is_rotation rot_quarter).
  { split; [apply mat3_eq; simpl; ring | unfold det; simpl; ring]. }
  split; [exact H |].
  exact (so3_log_map_norm_bound (fun _ _ => rot_quarter) 0%nat 0%nat H).
Defined.

(** X7.  Interpolating twice is interpolating once with the product of
    the factors, as long as the first interpolation lands where the
    logarithm inverts the exponential. *)
Theorem so3_interpolate_compose (x y y' : tensor mat3) (g1 g2 : R) (b l : nat) :
  norm (vscale g1 (so3_log_map x b l)) <= PI ->
  -1 + 1e-7 <= cos (norm (vscale g1 (so3_log_map x b l))) <= 1 - 1e-7 ->
  so3_interpolate (so3_interpolate x y g1) y' g2 b l = so3_interpolate x y (g2 * g1) b l.
Proof.
  intros Hn Hc. unfold so3_interpolate, so3_exp_map. cbv zeta.
  unfold so3_log_map at 1. rewrite so3_log_exp_window by assumption.
  f_equal. destruct (so3_log_map x b l). vec_ring.
Qed.

Lemma so3_interpolate_compose_witness :
  norm (vscale 1 (so3_log_map (fun _ _ => rot_quarter) 0%nat 0%nat)) <= PI /\
  -1 + 1e-7 <= cos (norm (vscale 1 (so3_log_map (fun _ _ => rot_quarter) 0%nat 0%nat)))
    <= 1 - 1e-7 /\
  so3_interpolate (so3_interpolate (fun _ _ => rot_quarter) (fun _ _ => eye) 1)
                  (fun _ _ => eye) (1 / 2) 0%nat 0%nat
  = so3_interpolate (fun _ _ => rot_quarter) (fun _ _ => eye) (1 / 2 * 1) 0%nat 0%nat.
Proof.
  assert (Hv : norm (vscale 1 (so3_log_map (fun _ _ => rot_quarter) 0%nat 0%nat)) = PI / 2).
  { unfold so3_log_map. rewrite so3_log_map1_quarter_turn, norm_vscale by lra.
    rewrite norm_v_quarter. ring. }
  pose proof PI_RGT_0 as Hpi.
  assert (H1 : norm (vscale 1 (so3_log_map (fun _ _ => rot_quarter) 0%nat 0%nat)) <= PI)
    by (rewrite Hv; lra).
  assert (H2 : -1 + 1e-7
               <= cos (norm (vscale 1 (so3_log_map (fun _ _ => rot_quarter) 0%nat 0%nat)))
               <= 1 - 1e-7)
    by (rewrite Hv, cos_PI2; lra).
  split; [exact H1 |]. split; [exact H2 |].
  exact (so3_interpolate_compose (fun _ _ => rot_quarter) (fun _ _ => eye) (fun _ _ => eye)
           1 (1 / 2) 0%nat 0%nat H1 H2).
Defined.

(** ** Further properties of [extract] and of the losses *)

Lemma forallb_false_exists {A : Type} (p : A -> bool) (l : list A) :
  forallb p l = false -> exists x, In x l /\ p x = false.
Proof.
  induction l as [| y l IH]; simpl; [discriminate |].
  destruct (p y) eqn:Hy; simpl.
  - intros H. destruct (IH H) as (x & Hx & Hp). exists x. split; [right |]; assumption.
  - intros _. exists y. split; [left; reflexivity | exact Hy].
Qed.

Lemma extract_err (B : nat) (a : list R) (t : nat -> nat) (b : nat) :
  (b < B)%nat -> (List.length a <= t b)%nat -> extract B a t = Err IndexError.
Proof.
  intros Hb Hl. unfold extract.
  destruct (forallb (fun b => Nat.ltb (t b) (List.length a)) (seq 0 B)) eqn:H;
    [| reflexivity].
  rewrite forallb_forall in H.
  assert (Hin : In b (seq 0 B)) by (apply in_seq; lia).
  apply H, Nat.ltb_lt in Hin. lia.
Qed.


Lemma sum_upto_bounds (n : nat) (f : nat -> R) (lo hi : R) :
  (forall i, (i < n)%nat -> lo <= f i <= hi) ->
  INR n * lo <= sum_upto n f <= INR n * hi.
Proof.
  induction n as [| n IH]; intros H.
  - simpl. lra.
  - rewrite S_INR. simpl sum_upto.
    pose proof (H n ltac:(lia)) as Hn.
    assert (IH' : INR n * lo <= sum_upto n f <= INR n * hi)
      by (apply IH; intros i Hi; apply H; lia).
    lra.
Qed.

Lemma sum_upto_nonneg (n : nat) (f : nat -> R) :
  (forall i, (i < n)%nat -> 0 <= f i) -> 0 <= sum_upto n f.
Proof.
  induction n as [| n IH]; intros H; simpl; [lra |].
  pose proof (H n ltac:(lia)) as Hn.
  assert (0 <= sum_upto n f) by (apply IH; intros i Hi; apply H; lia).
  lra.
Qed.

Lemma mean_of_bounds (total : R) (count : nat) (lo hi : R) :
  (0 < count)%nat -> INR count * lo <= total <= INR count * hi ->
  exists m, mean_of total count = Ok m /\ lo <= m <= hi.
Proof.
  intros Hc Hb. rewrite mean_of_defined by lia.
  exists (total / INR count). split; [reflexivity |].
  assert (Hk : 0 < INR count) by (apply lt_0_INR; exact Hc).
  assert (Hq : total = total / INR count * INR count) by (field; lra).
  set (q := total / INR count) in *. nra.
Qed.

(** The rotation distance lies between the squares of the smallest and
    of the largest angle that the clamp lets through. *)
Lemma rotation_distance_loss_range (B L : nat) (R_pred R_true : tensor mat3) :
  (0 < B)%nat -> (0 < L)%nat ->
  exists loss,
    rotation_distance_loss B L R_pred R_true = Ok loss /\
    theta_min ^ 2 <= loss <= (PI - theta_min) ^ 2.
Proof.
  intros HB HL. unfold rotation_distance_loss. cbv zeta.
  apply mean_of_bounds; [nia |].
  rewrite mult_INR, !Rmult_assoc.
  apply sum_upto_bounds. intros b _.
  apply sum_upto_bounds. intros l _.
  match goal with
  | |- _ <= acos (clamp ?x _ _) ^ 2 <= _ => pose proof (clamped_angle_range x) as Hr
  end.
  pose proof theta_min_range as Ht. nra.
Qed.

(** X9.  On a nonempty batch the rotation distance is defined for
    all matrices and lies between [acos(1 - 1e-7)^2] and
    [(PI - acos(1 - 1e-7))^2]; it is at least [2e-7], so it is never
    zero. *)
Theorem rotation_distance_loss_bounds (B L : nat) (R_pred R_true : tensor mat3) :
  (0 < B)%nat -> (0 < L)%nat ->
  exists loss,
    rotation_distance_loss B L R_pred R_true = Ok loss /\
    acos (1 - 1e-7) ^ 2 <= loss <= (PI - acos (1 - 1e-7)) ^ 2 /\
    2e-7 <= loss.
Proof.
  intros HB HL.
  destruct (rotation_distance_loss_range B L R_pred R_true HB HL) as (loss & Hl & Hb).
  exists loss. split; [exact Hl |].
  pose proof theta_min_sq as Hs. unfold theta_min, cos_max in *.
  split; [exact Hb | lra].
Qed.

Lemma rotation_distance_loss_bounds_witness :
  (0 < 1)%nat /\ (0 < 1)%nat /\
  exists loss,
    rotation_distance_loss 1 1 (fun _ _ => rot_pi) (fun _ _ => eye) = Ok loss /\
    acos (1 - 1e-7) ^ 2 <= loss <= (PI - acos (1 - 1e-7)) ^ 2 /\
    2e-7 <= loss.
Proof.
  split; [lia |]. split; [lia |].
  apply (rotation_distance_loss_bounds 1 1 (fun _ _ => rot_pi) (fun _ _ => eye)); lia.
Defined.

Lemma trace_swap (p q : mat3) :
  m00 (mmul (mtranspose p) q) + m11 (mmul (mtranspose p) q) + m22 (mmul (mtranspose p) q)
  = m00 (mmul (mtranspose q) p) + m11 (mmul (mtranspose q) p)
    + m22 (mmul (mtranspose q) p).
Proof. destruct p, q. simpl. ring. Qed.

(** X10.  The rotation distance is symmetric in its two arguments. *)
Theorem rotation_distance_loss_symmetric (B L : nat) (R_pred R_true : tensor mat3) :
  rotation_distance_loss B L R_pred R_true = rotation_distance_loss B L R_true R_pred.
Proof.
  unfold rotation_distance_loss. cbv zeta. f_equal.
  apply sum_upto_ext. intros b _. apply sum_upto_ext. intros l _.
  rewrite trace_swap. reflexivity.
Qed.

Lemma l1_loss_nonneg (B L : nat) (x y : tensor vec3) :
  (0 < B)%nat -> (0 < L)%nat -> exists v, l1_loss B L x y = Ok v /\ 0 <= v.
Proof.
  intros HB HL. unfold l1_loss. rewrite mean_of_defined by nia.
  eexists. split; [reflexivity |].
  apply Rmult_le_pos.
  - apply sum_upto_nonneg. intros b _. apply sum_upto_nonneg. intros l _.
    pose proof (Rabs_pos (vx (x b l) - vx (y b l))).
    pose proof (Rabs_pos (vy (x b l) - vy (y b l))).
    pose proof (Rabs_pos (vz (x b l) - vz (y b l))). lra.
  - apply Rlt_le, Rinv_0_lt_compat, lt_0_INR. nia.
Qed.

(** ** Further properties of the schedules *)

(** The first ratio of the cosine schedule is below one. *)
Lemma cosine_schedule_first (T : nat) (s : R) :
  (0 < T)%nat -> 0 <= s ->
  exists c, nth_error (cosine_schedule T s) 0 = Some c /\ 0.001 <= c < 1.
Proof.
  intros HT Hs. unfold cosine_schedule.
  set (steps := (T + 1)%nat).
  set (f := fun xi => cos ((xi / INR steps + s) / (1 + s) * PI * 0.5) ^ 2).
  set (ac0 := map f (linspace 0 (INR steps) steps)).
  set (ac := map (fun c => c / nth 0 ac0 0) ac0).
  set (th0 := s / (1 + s) * (PI / 2)).
  set (th1 := (/ INR T + s) / (1 + s) * (PI / 2)).
  assert (HT0 : 0 < INR T) by (apply lt_0_INR; lia).
  assert (HT1 : 1 <= INR T)
    by (replace 1 with (INR 1) by reflexivity; apply le_INR; lia).
  assert (Hst0 : INR steps <> 0) by (apply not_0_INR; unfold steps; lia).
  assert (Hf : forall xi q, xi / INR steps = q ->
            f xi = cos ((q + s) / (1 + s) * (PI / 2)) ^ 2).
  { intros xi q <-. unfold f. f_equal. f_equal.
    replace 0.5 with (/ 2) by lra. unfold Rdiv. ring. }
  assert (Hlen : List.length ac = steps)
    by (unfold ac, ac0; rewrite !length_map, length_linspace; reflexivity).
  assert (H0 : nth_error ac0 0 = Some (cos th0 ^ 2)).
  { unfold ac0. rewrite nth_error_map, nth_error_linspace by (unfold steps; lia).
    simpl option_map. f_equal. rewrite (Hf _ 0).
    - unfold th0. f_equal. f_equal. f_equal. f_equal. lra.
    - simpl INR. unfold Rdiv. ring. }
  assert (H1 : nth_error ac0 1 = Some (cos th1 ^ 2)).
  { unfold ac0. rewrite nth_error_map, nth_error_linspace by (unfold steps; lia).
    simpl option_map. f_equal. rewrite (Hf _ (/ INR T)); [reflexivity |].
    replace (steps - 1)%nat with T by (unfold steps; lia).
    simpl INR. field. split; lra. }
  assert (Hth : 0 <= th0 /\ th0 < th1 /\ th1 <= PI / 2).
  { pose proof PI_RGT_0 as Hpi.
    assert (Ha : 0 < / (1 + s)) by (apply Rinv_0_lt_compat; lra).
    assert (Ha1 : / (1 + s) * (1 + s) = 1) by (apply Rinv_l; lra).
    assert (Hu : 0 < / INR T) by (apply Rinv_0_lt_compat; lra).
    assert (Hu1 : / INR T * INR T = 1) by (apply Rinv_l; lra).
    assert (Hu2 : / INR T <= 1) by nra.
    unfold th0, th1, Rdiv.
    set (u := / INR T) in *. set (k := / (1 + s)) in *.
    assert (0 <= s * k) by nra.
    assert (s * k < (u + s) * k) by nra.
    assert ((u + s) * k <= 1) by nra.
    repeat split; nra. }
  assert (Hcos : 0 <= cos th1 /\ cos th1 < cos th0).
  { pose proof PI_RGT_0 as Hpi.
    split; [apply cos_ge_0; lra | apply cos_decreasing_1; lra]. }
  assert (Ha0 : nth 0 ac0 0 = cos th0 ^ 2) by (apply nth_error_nth; exact H0).
  assert (Hpos : 0 < cos th0 ^ 2) by nra.
  assert (Hlt : cos th1 ^ 2 < cos th0 ^ 2) by nra.
  rewrite nth_error_map.
  rewrite (nth_error_map2 Rdiv (tl ac) (removelast ac) 0
             (cos th1 ^ 2 / cos th0 ^ 2) (cos th0 ^ 2 / cos th0 ^ 2)).
  - cbn [option_map]. eexists. split; [reflexivity |].
    split; [apply clamp_range; lra |].
    unfold clamp. eapply Rle_lt_trans; [apply Rmin_l |].
    apply Rmax_lub_lt; [| lra].
    replace (cos th1 ^ 2 / cos th0 ^ 2 / (cos th0 ^ 2 / cos th0 ^ 2))
      with (cos th1 ^ 2 / cos th0 ^ 2) by (field; lra).
    apply Rmult_lt_reg_r with (cos th0 ^ 2); [exact Hpos |].
    replace (cos th1 ^ 2 / cos th0 ^ 2 * cos th0 ^ 2) with (cos th1 ^ 2) by (field; lra).
    lra.
  - rewrite nth_error_tl. unfold ac. rewrite nth_error_map, H1, Ha0. reflexivity.
  - rewrite nth_error_removelast by (rewrite Hlen; unfold steps; lia).
    unfold ac. rewrite nth_error_map, H0, Ha0. reflexivity.
Qed.

Lemma nth_map_seq (g : nat -> R) (T k : nat) :
  (k < T)%nat -> nth k (map g (seq 1 T)) 0 = g (S k).
Proof.
  intros H. apply nth_error_nth. rewrite nth_error_map, nth_error_seq.
  destruct (Nat.ltb_spec k T) as [_ | H']; [reflexivity | lia].
Qed.

(** Every cumulative product is the one before it times the factor. *)
Lemma cumprod_from_nth (l : list R) (acc : R) (t : nat) :
  (t < List.length l)%nat ->
  nth t (cumprod_from acc l) 0 = nth t (acc :: cumprod_from acc l) 0 * nth t l 0.
Proof.
  revert acc t. induction l as [| x l IH]; intros acc t Ht; simpl in Ht; [lia |].
  destruct t as [| t]; [reflexivity |].
  change (nth t (cumprod_from (acc * x) l) 0
          = nth t ((acc * x) :: cumprod_from (acc * x) l) 0 * nth t l 0).
  apply IH. lia.
Qed.

(** The tables of the Euclidean schedule in terms of the clipped
    ratios [a] and of their cumulative products [a_bars]. *)
Lemma init_tables model bs be ts T sl d :
  init model bs be ts T sl = Ok d ->
  a d = cosine_schedule T 0.008 /\
  a_bars d = cumprod_from (1 * 1) (a d) /\
  forall k, (k < T)%nat ->
    nth k (sigma d) 0
    = sqrt ((1 - nth k ((1 * 1) :: a_bars d) 0) * (1 - nth k (a d) 0)
            / (1 - nth k (a_bars d) 0)) /\
    nth k (mean_param1 d) 0
    = sqrt (nth k (a d) 0) * (1 - nth k ((1 * 1) :: a_bars d) 0)
      / (1 - nth k (a_bars d) 0) /\
    nth k (mean_param2 d) 0
    = sqrt (nth k ((1 * 1) :: a_bars d) 0) * (1 - nth k (a d) 0)
      / (1 - nth k (a_bars d) 0).
Proof.
  unfold init, schedule_f. destruct (Nat.eqb_spec T 0) as [E | E]; [discriminate |].
  cbn [bind]. cbv zeta. intros H. injection H as <-.
  cbn [a a_bars sigma mean_param1 mean_param2 app tl].
  split; [reflexivity |]. split; [reflexivity |].
  intros k Hk. rewrite !nth_map_seq by exact Hk.
  replace (S k - 1)%nat with k by lia.
  repeat split; reflexivity.
Qed.

Lemma a_range model bs be ts T sl d t :
  init model bs be ts T sl = Ok d -> (t < T)%nat -> 0.001 <= nth t (a d) 0 <= 1.
Proof.
  intros H Ht. destruct (init_tables _ _ _ _ _ _ _ H) as (Ha & _).
  rewrite Ha. pose proof (cosine_schedule_range T 0.008) as Hall.
  rewrite Forall_forall in Hall. apply Hall, nth_In.
  rewrite length_cosine_schedule. exact Ht.
Qed.

(** The cumulative product before entry [t] is in [(0, 1]]. *)
Lemma a_bars_prev_range model bs be ts T sl d t :
  init model bs be ts T sl = Ok d -> (t < T)%nat ->
  0 < nth t ((1 * 1) :: a_bars d) 0 <= 1.
Proof.
  intros H Ht. destruct t as [| t]; [simpl; lra |].
  change (0 < nth t (a_bars d) 0 <= 1).
  apply (a_bars_range _ _ _ _ _ _ _ _ H). lia.
Qed.

Lemma a_bars_step model bs be ts T sl d t :
  init model bs be ts T sl = Ok d -> (t < T)%nat ->
  nth t (a_bars d) 0 = nth t ((1 * 1) :: a_bars d) 0 * nth t (a d) 0.
Proof.
  intros H Ht. destruct (init_tables _ _ _ _ _ _ _ H) as (Ha & Hab & _).
  rewrite Hab. apply cumprod_from_nth. rewrite Ha, length_cosine_schedule. exact Ht.
Qed.

(** Every cumulative product of the Euclidean schedule is below one. *)
Lemma a_bars_lt_1 model bs be ts T sl d t :
  init model bs be ts T sl = Ok d -> (t < T)%nat -> nth t (a_bars d) 0 < 1.
Proof.
  intros H Ht. destruct (init_tables _ _ _ _ _ _ _ H) as (Ha & Hab & _).
  destruct (cosine_schedule_first T 0.008) as (c0 & Hc0 & Hr0); [lia | lra |].
  destruct (cumprod_from_prefix_bound (cosine_schedule T 0.008) (1 * 1) t c0)
    as (c & Hc & Hb).
  - lra.
  - exact Hc0.
  - rewrite length_cosine_schedule. exact Ht.
  - intros i x _ Hx. pose proof (cosine_schedule_range T 0.008) as Hall.
    rewrite Forall_forall in Hall. apply nth_error_In, Hall in Hx. lra.
  - rewrite Hab, Ha. rewrite (nth_error_nth _ _ 0 Hc). lra.
Qed.


(** X12.  After construction [a] is the clipped cosine schedule and
    [a_bars] is its running product, although the constructor takes the
    product of a longer list and overwrites an entry before it slices
    both. *)
Theorem a_bars_is_cumprod model bs be ts T sl d :
  init model bs be ts T sl = Ok d ->
  a d = cosine_schedule T 0.008 /\ a_bars d = cumprod (a d).
Proof.
  intros H. destruct (init_tables _ _ _ _ _ _ _ H) as (Ha & Hab & _).
  split; [exact Ha |]. rewrite Hab. unfold cumprod. rewrite Rmult_1_l. reflexivity.
Qed.

Lemma a_bars_is_cumprod_witness :
  exists d,
    init_default zero_model = Ok d /\
    a d = cosine_schedule 30 0.008 /\ a_bars d = cumprod (a d).
Proof.
  destruct (init_defined zero_model 0.1 1.0 1.0 30 128) as [d Hd]; [lia |].
  exists d. split; [exact Hd |].
  exact (a_bars_is_cumprod zero_model 0.1 1.0 1.0 30 128 d Hd).
Defined.

(** X13.  The cumulative products [a_bars] are positive, below one
    and never increase from one timestep to the next. *)
Theorem a_bars_decreasing model bs be ts T sl d t :
  init model bs be ts T sl = Ok d -> (S t < T)%nat ->
  0 < nth (S t) (a_bars d) 0 /\
  nth (S t) (a_bars d) 0 <= nth t (a_bars d) 0 /\
  nth t (a_bars d) 0 < 1.
Proof.
  intros H Ht.
  pose proof (a_bars_range _ _ _ _ _ _ _ (S t) H Ht) as H1.
  pose proof (a_bars_range _ _ _ _ _ _ _ t H ltac:(lia)) as H0.
  pose proof (a_bars_lt_1 _ _ _ _ _ _ _ t H ltac:(lia)) as Hlt.
  pose proof (a_bars_step _ _ _ _ _ _ _ (S t) H Ht) as Hs.
  pose proof (a_range _ _ _ _ _ _ _ (S t) H Ht) as Hr.
  change (nth (S t) ((1 * 1) :: a_bars d) 0) with (nth t (a_bars d) 0) in Hs.
  repeat split; try lra. nra.
Qed.

Lemma a_bars_decreasing_witness :
  exists d,
    init_default zero_model = Ok d /\ (1 < 30)%nat /\
    0 < nth 1 (a_bars d) 0 /\
    nth 1 (a_bars d) 0 <= nth 0 (a_bars d) 0 /\
    nth 0 (a_bars d) 0 < 1.
Proof.
  destruct (init_defined zero_model 0.1 1.0 1.0 30 128) as [d Hd]; [lia |].
  exists d. split; [exact Hd |]. split; [lia |].
  apply (a_bars_decreasing zero_model 0.1 1.0 1.0 30 128 d 0%nat Hd). lia.
Defined.

(** X14.  The forward process preserves the variance: at every
    timestep the squares of the two weights [q_param1] and [q_param2]
    add up to one. *)
Theorem forward_variance_preserving model bs be ts T sl d t :
  init model bs be ts T sl = Ok d -> (t < T)%nat ->
  nth t (q_param1 d) 0 ^ 2 + nth t (q_param2 d) 0 ^ 2 = 1.
Proof.
  intros H Ht.
  pose proof (a_bars_range _ _ _ _ _ _ _ t H Ht) as Hr.
  pose proof (length_a_bars _ _ _ _ _ _ _ H) as Hlen.
  destruct (init_fields _ _ _ _ _ _ _ H)
    as (_ & _ & _ & _ & _ & _ & _ & Hq1 & Hq2 & _).
  rewrite Hq1, Hq2.
  rewrite (nth_map_in_range sqrt), (nth_map_in_range (fun ab => sqrt (1 - ab)))
    by (rewrite Hlen; exact Ht).
  rewrite !pow2_sqrt by lra. ring.
Qed.

Lemma forward_variance_preserving_witness :
  exists d,
    init_default zero_model = Ok d /\ (29 < 30)%nat /\
    nth 29 (q_param1 d) 0 ^ 2 + nth 29 (q_param2 d) 0 ^ 2 = 1.
Proof.
  destruct (init_defined zero_model 0.1 1.0 1.0 30 128) as [d Hd]; [lia |].
  exists d. split; [exact Hd |]. split; [lia |].
  apply (forward_variance_preserving zero_model 0.1 1.0 1.0 30 128 d 29%nat Hd). lia.
Defined.

(** X15.  The weights of the posterior mean fit the forward process:
    they send the noise-free sample of timestep [t], [sqrt(a_bars[t]) *
    x0], together with [x0] to the noise-free sample of the timestep
    before, and none of their denominators is zero. *)
Theorem posterior_mean_consistent model bs be ts T sl d t :
  init model bs be ts T sl = Ok d -> (t < T)%nat ->
  1 - nth t (a_bars d) 0 <> 0 /\
  nth t (mean_param1 d) 0 * sqrt (nth t (a_bars d) 0) + nth t (mean_param2 d) 0
  = sqrt (nth t (1 :: a_bars d) 0).
Proof.
  intros H Ht.
  pose proof (a_bars_lt_1 _ _ _ _ _ _ _ t H Ht) as Hlt.
  pose proof (a_bars_prev_range _ _ _ _ _ _ _ t H Ht) as Hp.
  pose proof (a_range _ _ _ _ _ _ _ t H Ht) as Hc.
  pose proof (a_bars_step _ _ _ _ _ _ _ t H Ht) as Hs.
  destruct (init_tables _ _ _ _ _ _ _ H) as (_ & _ & Htab).
  destruct (Htab t Ht) as (_ & Hm1 & Hm2).
  split; [lra |].
  rewrite Hm1, Hm2. rewrite Hs in *.
  replace (nth t (1 :: a_bars d) 0) with (nth t ((1 * 1) :: a_bars d) 0)
    by (rewrite Rmult_1_l; reflexivity).
  set (p := nth t ((1 * 1) :: a_bars d) 0) in *.
  set (c := nth t (a d) 0) in *.
  rewrite sqrt_mult by lra.
  assert (Hsc : sqrt c * sqrt c = c) by (apply sqrt_sqrt; lra).
  assert (Hden : 1 - p * c <> 0) by lra.
  replace (sqrt c * (1 - p) / (1 - p * c) * (sqrt p * sqrt c))
    with ((sqrt c * sqrt c) * (sqrt p * (1 - p) / (1 - p * c))) by (field; exact Hden).
  rewrite Hsc. field. exact Hden.
Qed.

Lemma posterior_mean_consistent_witness :
  exists d,
    init_default zero_model = Ok d /\ (5 < 30)%nat /\
    1 - nth 5 (a_bars d) 0 <> 0 /\
    nth 5 (mean_param1 d) 0 * sqrt (nth 5 (a_bars d) 0) + nth 5 (mean_param2 d) 0
    = sqrt (nth 5 (1 :: a_bars d) 0).
Proof.
  destruct (init_defined zero_model 0.1 1.0 1.0 30 128) as [d Hd]; [lia |].
  exists d. split; [exact Hd |]. split; [lia |].
  apply (posterior_mean_consistent zero_model 0.1 1.0 1.0 30 128 d 5%nat Hd). lia.
Defined.

(** At the timestep zero the posterior has no noise and its mean is
    the estimate of the clean sample. *)
Lemma posterior_first model bs be ts T sl d :
  init model bs be ts T sl = Ok d ->
  nth 0 (sigma d) 0 = 0 /\ nth 0 (mean_param1 d) 0 = 0 /\ nth 0 (mean_param2 d) 0 = 1.
Proof.
  intros H.
  assert (HT : (0 < T)%nat) by (apply init_fields in H; lia).
  pose proof (a_bars_lt_1 _ _ _ _ _ _ _ 0%nat H HT) as Hlt.
  pose proof (a_bars_step _ _ _ _ _ _ _ 0%nat H HT) as Hs.
  destruct (init_tables _ _ _ _ _ _ _ H) as (_ & _ & Htab).
  destruct (Htab 0%nat HT) as (Hsg & Hm1 & Hm2).
  rewrite Hsg, Hm1, Hm2. cbn [nth] in *.
  rewrite Hs in *. set (c := nth 0 (a d) 0) in *.
  replace ((1 - 1 * 1) * (1 - c) / (1 - 1 * 1 * c)) with 0 by (field; lra).
  rewrite sqrt_0. replace (1 * 1) with 1 by ring. rewrite sqrt_1.
  repeat split; field; lra.
Qed.

Lemma nth_error_in_range {A : Type} (l : list A) (i : nat) (x : A) :
  nth_error l i = Some x -> (i < List.length l)%nat.
Proof. intros H. apply nth_error_Some. rewrite H. discriminate. Qed.

Lemma linspace_range (s e : R) (n i : nat) (x : R) :
  s <= e -> nth_error (linspace s e n) i = Some x -> s <= x <= e.
Proof.
  intros Hse Hx.
  assert (Hi : (i < n)%nat).
  { apply nth_error_in_range in Hx. rewrite length_linspace in Hx. exact Hx. }
  rewrite nth_error_linspace in Hx by exact Hi. injection Hx as <-.
  destruct (Nat.eq_dec n 1) as [-> | Hn].
  - replace i with 0%nat by lia. simpl INR. lra.
  - assert (Hk : 0 < INR (n - 1)) by (apply lt_0_INR; lia).
    assert (Hik : 0 <= INR i <= INR (n - 1)).
    { split; [apply pos_INR | apply le_INR; lia]. }
    assert (Hq : (e - s) / INR (n - 1) * INR (n - 1) = e - s) by (field; lra).
    set (q := (e - s) / INR (n - 1)) in *.
    assert (0 <= q) by nra. nra.
Qed.

(** With [0 < beta_start <= beta_end < 1] every cumulative product of
    the rotational schedule is strictly between zero and one. *)
Lemma alpha_bar_t_range model bs be ts T sl d t :
  init model bs be ts T sl = Ok d -> 0 < bs -> bs <= be -> be < 1 -> (t < T)%nat ->
  exists c, nth_error (alpha_bar_t d) t = Some c /\ 0 < c < 1.
Proof.
  intros H Hbs Hle Hbe Ht.
  destruct (init_fields _ _ _ _ _ _ _ H)
    as (_ & _ & _ & _ & _ & _ & _ & _ & _ & Hb & Hal & Hab & _).
  assert (Hin : forall i x, nth_error (alpha_t d) i = Some x -> 1 - be <= x <= 1 - bs).
  { intros i x Hx. rewrite Hal, nth_error_map in Hx.
    destruct (nth_error (beta_t d) i) as [y |] eqn:Hy; [| discriminate].
    injection Hx as <-. rewrite Hb in Hy.
    pose proof (linspace_range bs be T i y Hle Hy). lra. }
  assert (Hlen : List.length (alpha_t d) = T)
    by (rewrite Hal, length_map, Hb; apply length_linspace).
  destruct (nth_error (alpha_t d) 0) as [x0 |] eqn:Hx0.
  2:{ apply nth_error_None in Hx0. lia. }
  pose proof (Hin _ _ Hx0) as Hr0.
  destruct (cumprod_from_prefix_bound (alpha_t d) 1 t x0) as (c & Hc & Hbd).
  - lra.
  - exact Hx0.
  - lia.
  - intros i x _ Hx. pose proof (Hin _ _ Hx). lra.
  - exists c. rewrite Hab. split; [exact Hc | lra].
Qed.

(** X16.  [cosine_schedule(T, s)] returns [T] ratios, each within the
    clip bounds [0.001] and [1]; the first one is below one, and the
    last one is the lower bound [0.001], because the unclipped ratio is
    zero there. *)
Theorem cosine_schedule_values (T : nat) (s : R) :
  (0 < T)%nat -> 0 <= s ->
  List.length (cosine_schedule T s) = T /\
  Forall (fun y => 0.001 <= y <= 1) (cosine_schedule T s) /\
  nth 0 (cosine_schedule T s) 0 < 1 /\
  nth (T - 1) (cosine_schedule T s) 0 = 0.001.
Proof.
  intros HT Hs.
  destruct (cosine_schedule_first T s HT Hs) as (c & Hc & Hr).
  split; [apply length_cosine_schedule |].
  split; [apply cosine_schedule_range |].
  split.
  - rewrite (nth_error_nth _ _ 0 Hc). lra.
  - apply nth_error_nth. apply cosine_schedule_last; [exact HT | lra].
Qed.

Lemma cosine_schedule_values_witness :
  (0 < 30)%nat /\ 0 <= 0.008 /\
  List.length (cosine_schedule 30 0.008) = 30%nat /\
  Forall (fun y => 0.001 <= y <= 1) (cosine_schedule 30 0.008) /\
  nth 0 (cosine_schedule 30 0.008) 0 < 1 /\
  nth (30 - 1) (cosine_schedule 30 0.008) 0 = 0.001.
Proof.
  split; [lia |]. split; [lra |].
  apply (cosine_schedule_values 30 0.008); [lia | lra].
Defined.

(** ** Further properties of the forward process and of the loss *)

(** X17.  The transpositions and reshapes around the call of the score
    model cancel: after the call [x1_t] and [x2_t] hold what they held
    before it, for the [Unet] layout as for the other one. *)
Theorem predict_preserves_state (d : DDPM_Diff) (t : nat) (tb : nat -> nat)
  (x1_t : tensor vec3) (x2_t : tensor mat3) (b l : nat) :
  snd (loss_predict d tb x1_t x2_t) b l = x1_t b l /\
  fst (snd (sample_predict d t x1_t x2_t)) b l = x1_t b l /\
  snd (snd (sample_predict d t x1_t x2_t)) b l = x2_t b l.
Proof.
  unfold loss_predict, sample_predict. destruct (is_unet (score_model d)).
  - destruct (forward (score_model d) _ _ tb) as [p1 p2].
    destruct (forward (score_model d) _ _ (fun _ => t)) as [s1 s2].
    cbn [fst snd]. unfold of3, to3, transpose12, reshape33, reshape9.
    destruct (x1_t b l), (x2_t b l). repeat split; reflexivity.
  - destruct (forward (score_model d) _ _ tb) as [p1 p2].
    destruct (forward (score_model d) _ _ (fun _ => t)) as [s1 s2].
    repeat split; reflexivity.
Qed.

Section LossProperties.

Variable rng : Type.
Variable randn : rng -> tensor vec3 * rng.

Lemma forward_process_out_of_range model bs be ts T sl d B L x1 R0 t ti ri
  (g : rng) (b : nat) :
  init model bs be ts T sl = Ok d -> (b < B)%nat -> (T <= t b)%nat ->
  forward_process rng randn d B L x1 R0 t ti ri g = Err IndexError.
Proof.
  intros H Hb Ht.
  destruct (init_schedule_lengths _ _ _ _ _ _ _ H) as (L1 & _).
  unfold forward_process.
  destruct (match ti with None => randn g | Some e => (e, g) end) as [e1 g1].
  rewrite (extract_err B (q_param1 d) t b Hb) by (rewrite L1; exact Ht).
  reflexivity.
Qed.

(** X18.  When the timestep of some example of the batch is not below
    [timesteps], [forward_process] and [compute_loss] raise an index
    error. *)
Theorem timestep_out_of_range model bs be ts T sl d B L x1 x2 t ti ri
  (g : rng) (b : nat) :
  init model bs be ts T sl = Ok d -> (b < B)%nat -> (T <= t b)%nat ->
  forward_process rng randn d B L x1 x2 t ti ri g = Err IndexError /\
  compute_loss rng randn d B L x1 x2 t g = Err IndexError.
Proof.
  intros H Hb Ht. split.
  - exact (forward_process_out_of_range _ _ _ _ _ _ d B L x1 x2 t ti ri g b H Hb Ht).
  - unfold compute_loss.
    rewrite (forward_process_out_of_range _ _ _ _ _ _ d B L _ x2 t None None g b H Hb Ht).
    reflexivity.
Qed.


(** X20.  On a nonempty batch within the schedule [compute_loss]
    returns; its two Euclidean terms are not negative, its rotational
    term is at least [acos(1 - 1e-7)^2 >= 2e-7] and its last term is
    zero, so the total is never below [2e-7], whatever the score model
    predicts. *)
Theorem compute_loss_lower_bound model bs be ts T sl d B L x1 x2 t (g : rng) :
  init model bs be ts T sl = Ok d -> (0 < B)%nat -> (0 < L)%nat ->
  (forall b, (b < B)%nat -> (t b < T)%nat) ->
  exists total loss1 loss2 loss_origin1 g',
    compute_loss rng randn d B L x1 x2 t g
      = Ok ((total, loss1, loss2, loss_origin1, 0), g') /\
    0 <= loss1 /\ 0 <= loss_origin1 /\ acos (1 - 1e-7) ^ 2 <= loss2 /\
    2e-7 <= loss2 <= total.
Proof.
  intros Hinit HB HL Ht.
  destruct (init_schedule_lengths _ _ _ _ _ _ _ Hinit) as (_ & _ & L3 & L4 & _).
  pose proof (forward_process_defined rng randn _ _ _ _ _ _ d B L
                (fun b l => vscale (trans_scale d) (x1 b l)) x2 t None None g Hinit Ht)
    as Hf.
  cbv zeta in Hf. unfold compute_loss. rewrite Hf. simpl bind. cbv beta iota.
  match goal with
  | |- context [loss_predict d t ?u ?v] =>
      destruct (loss_predict d t u v) as [[ps1 ps2] x1']
  end.
  rewrite !extract_ok by (intros; rewrite ?L3, ?L4; apply Ht; assumption).
  simpl bind.
  match goal with
  | |- context [l1_loss B L ps1 ?y] =>
      destruct (l1_loss_nonneg B L ps1 y HB HL) as (l1 & E1 & Hl1)
  end.
  rewrite E1. simpl bind.
  match goal with
  | |- context [l1_loss B L ?x x1] =>
      destruct (l1_loss_nonneg B L x x1 HB HL) as (lo1 & E2 & Hlo1)
  end.
  rewrite E2. simpl bind.
  match goal with
  | |- context [rotation_distance_loss B L ?p ?q] =>
      destruct (rotation_distance_loss_range B L p q HB HL) as (l2 & E3 & Hl2)
  end.
  rewrite E3. simpl bind.
  do 5 eexists. split; [reflexivity |].
  pose proof theta_min_sq as Hs. unfold theta_min, cos_max in *. lra.
Qed.

(** X21.  On an empty batch, [B = 0] or [L = 0], [compute_loss] has no
    number to return: its first mean is taken over no entry. *)
Theorem compute_loss_empty_batch model bs be ts T sl d B L x1 x2 t (g : rng) :
  init model bs be ts T sl = Ok d -> (B * L = 0)%nat ->
  (forall b, (b < B)%nat -> (t b < T)%nat) ->
  compute_loss rng randn d B L x1 x2 t g = Err NonFinite.
Proof.
  intros Hinit HBL Ht.
  destruct (init_schedule_lengths _ _ _ _ _ _ _ Hinit) as (_ & _ & L3 & L4 & _).
  pose proof (forward_process_defined rng randn _ _ _ _ _ _ d B L
                (fun b l => vscale (trans_scale d) (x1 b l)) x2 t None None g Hinit Ht)
    as Hf.
  cbv zeta in Hf. unfold compute_loss. rewrite Hf. simpl bind. cbv beta iota.
  match goal with
  | |- context [loss_predict d t ?u ?v] =>
      destruct (loss_predict d t u v) as [[ps1 ps2] x1']
  end.
  rewrite !extract_ok by (intros; rewrite ?L3, ?L4; apply Ht; assumption).
  simpl bind. unfold l1_loss at 1, mean_of. rewrite HBL. reflexivity.
Qed.

End LossProperties.

Lemma timestep_out_of_range_witness :
  exists d,
    init_default zero_model = Ok d /\ (0 < 1)%nat /\ (30 <= 30)%nat /\
    forward_process unit randn_zero d 1 1 x_small (fun _ _ => eye) (fun _ => 30%nat)
      None None tt = Err IndexError /\
    compute_loss unit randn_zero d 1 1 x_small (fun _ _ => eye) (fun _ => 30%nat) tt
      = Err IndexError.
Proof.
  destruct (init_defined zero_model 0.1 1.0 1.0 30 128) as [d Hd]; [lia |].
  exists d. split; [exact Hd |]. split; [lia |]. split; [lia |].
  apply (timestep_out_of_range unit randn_zero zero_model 0.1 1.0 1.0 30 128 d 1 1
           x_small (fun _ _ => eye) (fun _ => 30%nat) None None tt 0%nat Hd); lia.
Defined.


Lemma compute_loss_lower_bound_witness :
  exists d,
    init_default zero_model = Ok d /\ (0 < 1)%nat /\ (0 < 1)%nat /\
    (forall b : nat, (b < 1)%nat -> (3 < 30)%nat) /\
    exists total loss1 loss2 loss_origin1 g',
      compute_loss unit randn_zero d 1 1 x_small (fun _ _ => eye) (fun _ => 3%nat) tt
        = Ok ((total, loss1, loss2, loss_origin1, 0), g') /\
      0 <= loss1 /\ 0 <= loss_origin1 /\ acos (1 - 1e-7) ^ 2 <= loss2 /\
      2e-7 <= loss2 <= total.
Proof.
  destruct (init_defined zero_model 0.1 1.0 1.0 30 128) as [d Hd]; [lia |].
  exists d. split; [exact Hd |]. split; [lia |]. split; [lia |].
  split; [intros; lia |].
  apply (compute_loss_lower_bound unit randn_zero zero_model 0.1 1.0 1.0 30 128 d 1 1
           x_small (fun _ _ => eye) (fun _ => 3%nat) tt Hd); [lia | lia |].
  intros. lia.
Defined.

Lemma compute_loss_empty_batch_witness :
  exists d,
    init_default zero_model = Ok d /\ (0 * 1 = 0)%nat /\
    (forall b : nat, (b < 0)%nat -> (3 < 30)%nat) /\
    compute_loss unit randn_zero d 0 1 x_small (fun _ _ => eye) (fun _ => 3%nat) tt
      = Err NonFinite.
Proof.
  destruct (init_defined zero_model 0.1 1.0 1.0 30 128) as [d Hd]; [lia |].
  exists d. split; [exact Hd |]. split; [reflexivity |]. split; [intros; lia |].
  apply (compute_loss_empty_batch unit randn_zero zero_model 0.1 1.0 1.0 30 128 d 0 1
           x_small (fun _ _ => eye) (fun _ => 3%nat) tt Hd); [reflexivity |].
  intros. lia.
Defined.

(** ** Further properties of the sampler *)

Lemma extract_error_kind (B : nat) (a : list R) (t : nat -> nat) (e : error) :
  extract B a t = Err e -> e = IndexError.
Proof.
  unfold extract.
  destruct (forallb (fun b => Nat.ltb (t b) (List.length a)) (seq 0 B)); congruence.
Qed.

Lemma extract_const (B : nat) (a : list R) (t : nat) (f : nat -> R) :
  extract B a (fun _ => t) = Ok f -> f = fun _ => nth t a 0.
Proof.
  unfold extract.
  destruct (forallb (fun _ => Nat.ltb t (List.length a)) (seq 0 B)); congruence.
Qed.

Lemma clamped_quotient_bound (x c : R) :
  c <> 0 -> Rabs (clamp x (-1) 1 / c) <= 1 / Rabs c.
Proof.
  intros Hc. pose proof (clamp_range x (-1) 1 ltac:(lra)) as Hr.
  unfold Rdiv. rewrite Rabs_mult, Rabs_inv.
  apply Rmult_le_compat_r.
  - apply Rlt_le, Rinv_0_lt_compat, Rabs_pos_lt. exact Hc.
  - apply Rabs_le. lra.
Qed.

Section SampleProperties.

Variable rng : Type.
Variable randn : rng -> tensor vec3 * rng.
Variable pose : Type.
Variable compose_se3 : tensor mat3 -> tensor vec3 -> pose.

(** [sample] with its two initial draws named. *)
Lemma sample_unfold d B L n ti ri tn rn (g : rng) :
  sample rng randn pose compose_se3 d B L n ti ri tn rn g =
  let eg := match ti with None => randn g | Some x => (x, g) end in
  let rg := match ri with
            | Some r => (r, snd eg)
            | None => (so3_exp_map (fst (randn (snd eg))), snd (randn (snd eg)))
            end in
  bind (sample_loop rng randn d B L n tn rn (fst eg) (fst rg) (snd rg))
       (fun r =>
          bind (checked_tdiv (fun b l => vclamp (-1) 1 (fst (fst r) b l)) (trans_scale d))
               (fun x1_out =>
                  Ok ((snd (fst r), x1_out, compose_se3 (snd (fst r)) x1_out), snd r))).
Proof.
  unfold sample. cbv zeta.
  destruct ti as [x |]; [| destruct (randn g) as [x g1]];
    (destruct ri as [r |]; [| destruct (randn _) as [v g2]]); cbn [fst snd];
    (destruct (sample_loop rng randn d B L n tn rn _ _ _) as [[[x1 x2] g3] | e];
     reflexivity).
Qed.

Lemma sample_loop_S d B L t tn rn x1_t x2_t (g : rng) :
  sample_loop rng randn d B L (S t) tn rn x1_t x2_t g =
  bind (sample_step rng randn d B L t tn rn x1_t x2_t g)
       (fun r => sample_loop rng randn d B L t tn rn (fst (fst r)) (snd (fst r)) (snd r)).
Proof.
  cbn [sample_loop].
  destruct (sample_step rng randn d B L t tn rn x1_t x2_t g) as [[[x1 x2] g1] | e];
    reflexivity.
Qed.

Lemma sample_step_out_of_range model bs be ts T sl d B L t tn rn x1_t x2_t (g : rng) :
  init model bs be ts T sl = Ok d -> (T <= t)%nat ->
  sample_step rng randn d B L t tn rn x1_t x2_t g = Err IndexError.
Proof.
  intros H Ht.
  destruct (init_schedule_lengths _ _ _ _ _ _ _ H) as (_ & _ & _ & _ & L5).
  assert (Hidx : index (alpha_bar_t d) t = Err IndexError).
  { unfold index. destruct (nth_error (alpha_bar_t d) t) eqn:E; [| reflexivity].
    apply nth_error_in_range in E. lia. }
  unfold sample_step. destruct (sample_predict d t x1_t x2_t) as [[ps1 ps2] [x1 x2]].
  destruct (sample_noise rng randn t tn g) as [[noise g1] | e] eqn:En.
  2:{ unfold sample_noise in En.
      destruct (Nat.ltb 0 t); [destruct tn as [l |]; [destruct (nth_error l t) |] |];
        simpl; congruence. }
  cbn [bind]. unfold sample_x0, sample_x1, sample_x_0_approx.
  repeat match goal with
  | |- context [extract ?B0 ?a0 ?t0] =>
      let E := fresh "E" in
      destruct (extract B0 a0 t0) eqn:E; cbn [bind];
      [| apply extract_error_kind in E; subst; reflexivity]
  end.
  rewrite Hidx. reflexivity.
Qed.

(** X22.  Asking [sample] for more steps than the diffuser has
    timesteps raises an index error at the first step. *)
Theorem sample_too_many_steps model bs be ts T sl d B L n ti ri tn rn (g : rng) :
  init model bs be ts T sl = Ok d -> (T < n)%nat ->
  sample rng randn pose compose_se3 d B L n ti ri tn rn g = Err IndexError.
Proof.
  intros H Hn. destruct n as [| t]; [lia |].
  rewrite sample_unfold. cbv zeta. rewrite sample_loop_S.
  rewrite (sample_step_out_of_range _ _ _ _ _ _ d B L t tn rn _ _ _ H) by lia.
  reflexivity.
Qed.

Lemma sample_loop_defined model bs be ts T sl d B L n x1_t x2_t (g : rng) :
  init model bs be ts T sl = Ok d -> (n <= T)%nat ->
  (forall t, (t < n)%nat ->
     exists c, nth_error (alpha_bar_t d) t = Some c /\ 0 < c < 1) ->
  exists r, sample_loop rng randn d B L n None None x1_t x2_t g = Ok r.
Proof.
  intros H. revert x1_t x2_t g. induction n as [| t IH]; intros x1 x2 g Hn Hc.
  - eexists. reflexivity.
  - destruct (Hc t ltac:(lia)) as (c & Hcc & Hr).
    destruct (sample_step_defined rng randn _ _ _ _ _ _ d B L t x1 x2 g c H
                ltac:(lia) Hcc ltac:(lra) ltac:(lra)) as [r Hs].
    rewrite sample_loop_S, Hs. cbn [bind].
    apply IH; [lia | intros; apply Hc; lia].
Qed.

(** [sample] returns a pose when no step divides by zero. *)
Lemma sample_defined model bs be ts T sl d B L n ti ri (g : rng) :
  init model bs be ts T sl = Ok d -> ts <> 0 -> (n <= T)%nat ->
  (forall t, (t < n)%nat ->
     exists c, nth_error (alpha_bar_t d) t = Some c /\ 0 < c < 1) ->
  exists x2 x1 g',
    sample rng randn pose compose_se3 d B L n ti ri None None g
    = Ok ((x2, x1, compose_se3 x2 x1), g').
Proof.
  intros H Hts Hn Hc. rewrite sample_unfold. cbv zeta.
  match goal with
  | |- context [sample_loop rng randn d B L n None None ?u ?v ?w] =>
      destruct (sample_loop_defined _ _ _ _ _ _ d B L n u v w H Hn Hc) as [r Hr]
  end.
  rewrite Hr. cbn [bind].
  assert (Hd : trans_scale d = ts) by (apply init_fields in H; tauto).
  rewrite checked_tdiv_ok by (rewrite Hd; exact Hts).
  cbn [bind]. do 3 eexists. reflexivity.
Qed.

(** X23.  With [0 < beta_start <= beta_end < 1], a nonzero
    [trans_scale] and at most [timesteps] steps, [sample] returns the
    pose that [compose_se3] makes of its rotations and translations:
    no step of the loop divides by zero. *)
Theorem sample_returns_pose model bs be ts T sl d B L n ti ri (g : rng) :
  init model bs be ts T sl = Ok d -> 0 < bs -> bs <= be -> be < 1 -> ts <> 0 ->
  (n <= T)%nat ->
  exists x2 x1 g',
    sample rng randn pose compose_se3 d B L n ti ri None None g
    = Ok ((x2, x1, compose_se3 x2 x1), g').
Proof.
  intros H Hbs Hle Hbe Hts Hn.
  apply (sample_defined _ _ _ _ _ _ d B L n ti ri g H Hts Hn).
  intros t Ht. apply (alpha_bar_t_range _ _ _ _ _ _ _ t H Hbs Hle Hbe). lia.
Qed.

(** X24.  The diffuser with the default configuration returns a pose
    when it is asked for at most 29 steps: only the step of the
    timestep 29 divides by zero. *)
Theorem sample_default_fewer_steps model d B L n ti ri (g : rng) :
  init_default model = Ok d -> (n <= 29)%nat ->
  exists x2 x1 g',
    sample rng randn pose compose_se3 d B L n ti ri None None g
    = Ok ((x2, x1, compose_se3 x2 x1), g').
Proof.
  intros H Hn.
  apply (sample_defined model 0.1 1.0 1.0 30 128 d B L n ti ri g H);
    [lra | lia |].
  intros t Ht.
  destruct (alpha_bar_t_default_before_last model d t H ltac:(lia)) as (c & Hc & Hb).
  exists c. split; [exact Hc | lra].
Qed.

Lemma sample_loop_rotation_valid d B L n tn rn x1_t x2_t (g g' : rng) x1' x2' :
  sample_loop rng randn d B L (S n) tn rn x1_t x2_t g = Ok ((x1', x2'), g') ->
  forall b l, is_rotation_within 1e-32 (x2' b l).
Proof.
  revert x1_t x2_t g. induction n as [| n IH]; intros x1 x2 g; rewrite sample_loop_S;
    destruct (sample_step rng randn d B L _ tn rn x1 x2 g) as [[[y1 y2] g1] | e] eqn:E;
    cbn [bind fst snd]; try discriminate.
  - cbn [sample_loop]. intros Heq. injection Heq as <- <- <-.
    exact (sample_step_rotation_valid rng randn d B L 0 tn rn x1 x2 g g1 y1 y2 E).
  - apply IH.
Qed.

(** X25.  Every rotation that [sample] returns is a rotation matrix
    within [1e-32], as soon as the loop runs once or the initial
    rotations are drawn and not supplied. *)
Theorem sample_rotations_valid d B L n ti ri tn rn (g g' : rng) x2 x1 p :
  sample rng randn pose compose_se3 d B L n ti ri tn rn g = Ok ((x2, x1, p), g') ->
  ri = None \/ (1 <= n)%nat ->
  forall b l, is_rotation_within 1e-32 (x2 b l).
Proof.
  rewrite sample_unfold. cbv zeta.
  destruct (sample_loop rng randn d B L n tn rn _ _ _) as [[[y1 y2] g1] | e] eqn:E;
    cbn [bind fst snd]; [| discriminate].
  destruct (checked_tdiv _ _) as [x1o | e]; cbn [bind]; [| discriminate].
  intros Heq Hor. injection Heq as <- _ _ _.
  destruct n as [| n].
  - destruct Hor as [-> | Hn]; [| lia].
    cbn [sample_loop] in E. injection E as _ <- _. intros b l. apply so3_exp_map1_valid.
  - exact (sample_loop_rotation_valid d B L n tn rn _ _ _ _ _ _ E).
Qed.

(** X26.  The translations that [sample] returns are the clamped
    state divided by [trans_scale]: their components are at most
    [1 / |trans_scale|] in absolute value, [trans_scale] is not zero
    when it returns, and the pose is [compose_se3] of the returned
    rotations and translations. *)
Theorem sample_translations_bounded d B L n ti ri tn rn (g g' : rng) x2 x1 p :
  sample rng randn pose compose_se3 d B L n ti ri tn rn g = Ok ((x2, x1, p), g') ->
  trans_scale d <> 0 /\ p = compose_se3 x2 x1 /\
  forall b l, vabs (x1 b l) <= 1 / Rabs (trans_scale d).
Proof.
  rewrite sample_unfold. cbv zeta.
  destruct (sample_loop rng randn d B L n tn rn _ _ _) as [[[y1 y2] g1] | e];
    cbn [bind fst snd]; [| discriminate].
  unfold checked_tdiv. destruct (Req_dec_T (trans_scale d) 0) as [Hz | Hz];
    cbn [bind]; [discriminate |].
  intros Heq. injection Heq as <- <- <- _.
  split; [exact Hz |]. split; [reflexivity |].
  intros b l. apply vabs_le; cbn [vdiv vclamp vx vy vz];
    apply clamped_quotient_bound; exact Hz.
Qed.

(** X27.  The last step of the loop, at the timestep zero, draws no
    random number; the translation it returns is the clamped estimate
    [x0] of this step and the rotation it returns is [x_0_approx]. *)
Theorem sample_last_step model bs be ts T sl d B L tn rn x1_t x2_t (g g' : rng) x1' x2' :
  init model bs be ts T sl = Ok d ->
  sample_step rng randn d B L 0 tn rn x1_t x2_t g = Ok ((x1', x2'), g') ->
  g' = g /\
  (exists x0,
     sample_x0 d B 0 (fst (snd (sample_predict d 0 x1_t x2_t)))
                     (fst (fst (sample_predict d 0 x1_t x2_t))) = Ok x0 /\
     forall b l, x1' b l = x0 b l) /\
  sample_x_0_approx d 0 (snd (snd (sample_predict d 0 x1_t x2_t)))
                        (snd (fst (sample_predict d 0 x1_t x2_t))) = Ok x2'.
Proof.
  intros H. destruct (posterior_first _ _ _ _ _ _ _ H) as (Hsg & Hm1 & Hm2).
  unfold sample_step. destruct (sample_predict d 0 x1_t x2_t) as [[ps1 ps2] [x1 x2]].
  cbn [fst snd sample_noise Nat.ltb Nat.leb bind].
  destruct (sample_x0 d B 0 x1 ps1) as [x0 | e]; cbn [bind]; [| discriminate].
  destruct (sample_x1 d B 0 x1 x0 (fun _ _ => vzero)) as [x1n | e] eqn:E1;
    cbn [bind]; [| discriminate].
  destruct (sample_x_0_approx d 0 x2 ps2) as [xa | e]; cbn [bind]; [| discriminate].
  cbn [sample_x2 Nat.ltb Nat.leb bind].
  intros Heq. injection Heq as <- <- <-.
  split; [reflexivity |]. split; [| reflexivity].
  exists x0. split; [reflexivity |].
  unfold sample_x1 in E1.
  destruct (extract B (mean_param1 d) (fun _ => 0%nat)) as [mp1 | e] eqn:Ea;
    cbn [bind] in E1; [| discriminate].
  destruct (extract B (mean_param2 d) (fun _ => 0%nat)) as [mp2 | e] eqn:Eb;
    cbn [bind] in E1; [| discriminate].
  destruct (extract B (sigma d) (fun _ => 0%nat)) as [sg | e] eqn:Ec;
    cbn [bind] in E1; [| discriminate].
  apply extract_const in Ea, Eb, Ec. subst mp1 mp2 sg.
  injection E1 as <-. intros b l. rewrite Hsg, Hm1, Hm2.
  destruct (x1 b l), (x0 b l). apply vec3_eq; simpl; ring.
Qed.

(** X28.  A list [trans_noise] with fewer entries than steps raises an
    index error at the first step, when at least two steps are asked
    for. *)
Theorem sample_trans_noise_too_short d B L n ti ri
  (trans_noise : list (tensor vec3)) rn (g : rng) :
  (2 <= n)%nat -> (List.length trans_noise < n)%nat ->
  sample rng randn pose compose_se3 d B L n ti ri (Some trans_noise) rn g
  = Err IndexError.
Proof.
  intros Hn Hl. destruct n as [| t]; [lia |].
  rewrite sample_unfold. cbv zeta. rewrite sample_loop_S.
  unfold sample_step.
  destruct (sample_predict d t _ _) as [[ps1 ps2] [x1 x2]].
  unfold sample_noise.
  destruct (Nat.ltb_spec 0 t) as [_ | Ht]; [| lia].
  assert (Hnone : nth_error trans_noise t = None) by (apply nth_error_None; lia).
  rewrite Hnone. reflexivity.
Qed.

End SampleProperties.

Lemma sample_too_many_steps_witness :
  exists d,
    init zero_model 0.1 0.5 1 20 128 = Ok d /\ (20 < 30)%nat /\
    sample unit randn_zero (tensor mat3 * tensor vec3) pair d 1 1 30
      None None None None tt = Err IndexError.
Proof.
  destruct (init_defined zero_model 0.1 0.5 1 20 128) as [d Hd]; [lia |].
  exists d. split; [exact Hd |]. split; [lia |].
  apply (sample_too_many_steps unit randn_zero (tensor mat3 * tensor vec3) pair
           zero_model 0.1 0.5 1 20 128 d 1 1 30 None None None None tt Hd).
  lia.
Defined.

Lemma sample_returns_pose_witness :
  exists d,
    init zero_model 0.1 0.5 1 30 128 = Ok d /\
    0 < 0.1 /\ 0.1 <= 0.5 /\ 0.5 < 1 /\ 1 <> 0 /\ (30 <= 30)%nat /\
    exists x2 x1 g',
      sample unit randn_zero (tensor mat3 * tensor vec3) pair d 1 1 30
        None None None None tt = Ok ((x2, x1, (x2, x1)), g').
Proof.
  destruct (init_defined zero_model 0.1 0.5 1 30 128) as [d Hd]; [lia |].
  exists d. split; [exact Hd |].
  split; [lra |]. split; [lra |]. split; [lra |]. split; [lra |]. split; [lia |].
  apply (sample_returns_pose unit randn_zero (tensor mat3 * tensor vec3) pair
           zero_model 0.1 0.5 1 30 128 d 1 1 30 None None tt Hd); lra || lia.
Defined.

Lemma sample_default_fewer_steps_witness :
  exists d,
    init_default zero_model = Ok d /\ (29 <= 29)%nat /\
    exists x2 x1 g',
      sample unit randn_zero (tensor mat3 * tensor vec3) pair d 1 1 29
        None None None None tt = Ok ((x2, x1, (x2, x1)), g').
Proof.
  destruct (init_defined zero_model 0.1 1.0 1.0 30 128) as [d Hd]; [lia |].
  exists d. split; [exact Hd |]. split; [lia |].
  apply (sample_default_fewer_steps unit randn_zero (tensor mat3 * tensor vec3) pair
           zero_model d 1 1 29 None None tt Hd).
  lia.
Defined.

Lemma sample_rotations_valid_witness :
  exists d x2 x1 g',
    sample unit randn_zero (tensor mat3 * tensor vec3) pair d 1 1 29
      None (Some (fun _ _ => rot_pi)) None None tt = Ok ((x2, x1, (x2, x1)), g') /\
    (Some (fun (_ _ : nat) => rot_pi) = None \/ (1 <= 29)%nat) /\
    forall b l, is_rotation_within 1e-32 (x2 b l).
Proof.
  destruct (init_defined zero_model 0.1 1.0 1.0 30 128) as [d Hd]; [lia |].
  assert (Hc : forall t, (t < 29)%nat ->
            exists c, nth_error (alpha_bar_t d) t = Some c /\ 0 < c < 1).
  { intros t Ht.
    destruct (alpha_bar_t_default_before_last zero_model d t Hd Ht) as (c & Hc & Hb).
    exists c. split; [exact Hc | lra]. }
  destruct (sample_defined unit randn_zero (tensor mat3 * tensor vec3) pair
              zero_model 0.1 1.0 1.0 30 128 d 1 1 29 None (Some (fun _ _ => rot_pi)) tt
              Hd ltac:(lra) ltac:(lia) Hc) as (x2 & x1 & g' & Hs).
  exists d, x2, x1, g'. split; [exact Hs |].
  assert (Hor : Some (fun (_ _ : nat) => rot_pi) = None \/ (1 <= 29)%nat)
    by (right; lia).
  split; [exact Hor |].
  exact (sample_rotations_valid unit randn_zero (tensor mat3 * tensor vec3) pair
           d 1 1 29 None (Some (fun _ _ => rot_pi)) None None tt g' x2 x1 (x2, x1)
           Hs Hor).
Defined.

Lemma sample_translations_bounded_witness :
  exists d x2 x1 g',
    sample unit randn_zero (tensor mat3 * tensor vec3) pair d 1 1 29
      None None None None tt = Ok ((x2, x1, (x2, x1)), g') /\
    trans_scale d <> 0 /\ (x2, x1) = (x2, x1) /\
    forall b l, vabs (x1 b l) <= 1 / Rabs (trans_scale d).
Proof.
  destruct (init_defined zero_model 0.1 1.0 1.0 30 128) as [d Hd]; [lia |].
  assert (Hc : forall t, (t < 29)%nat ->
            exists c, nth_error (alpha_bar_t d) t = Some c /\ 0 < c < 1).
  { intros t Ht.
    destruct (alpha_bar_t_default_before_last zero_model d t Hd Ht) as (c & Hc & Hb).
    exists c. split; [exact Hc | lra]. }
  destruct (sample_defined unit randn_zero (tensor mat3 * tensor vec3) pair
              zero_model 0.1 1.0 1.0 30 128 d 1 1 29 None None tt
              Hd ltac:(lra) ltac:(lia) Hc) as (x2 & x1 & g' & Hs).
  exists d, x2, x1, g'. split; [exact Hs |].
  exact (sample_translations_bounded unit randn_zero (tensor mat3 * tensor vec3) pair
           d 1 1 29 None None None None tt g' x2 x1 (x2, x1) Hs).
Defined.

Lemma sample_last_step_witness :
  exists d x1' x2' g',
    init_default zero_model = Ok d /\
    sample_step unit randn_zero d 1 1 0 None None x_small (fun _ _ => eye) tt
      = Ok ((x1', x2'), g') /\
    g' = tt /\
    (exists x0,
       sample_x0 d 1 0 (fst (snd (sample_predict d 0 x_small (fun _ _ => eye))))
                       (fst (fst (sample_predict d 0 x_small (fun _ _ => eye)))) = Ok x0 /\
       forall b l, x1' b l = x0 b l) /\
    sample_x_0_approx d 0 (snd (snd (sample_predict d 0 x_small (fun _ _ => eye))))
                          (snd (fst (sample_predict d 0 x_small (fun _ _ => eye))))
      = Ok x2'.
Proof.
  destruct (init_defined zero_model 0.1 1.0 1.0 30 128) as [d Hd]; [lia |].
  destruct (sample_step_default_defined unit randn_zero zero_model d 1 1 0
              x_small (fun _ _ => eye) tt Hd ltac:(lia)) as [[[x1' x2'] g'] Hs].
  exists d, x1', x2', g'. split; [exact Hd |]. split; [exact Hs |].
  exact (sample_last_step unit randn_zero zero_model 0.1 1.0 1.0 30 128 d 1 1 None None
           x_small (fun _ _ => eye) tt g' x1' x2' Hd Hs).
Defined.

Lemma sample_trans_noise_too_short_witness :
  exists d,
    init_default zero_model = Ok d /\ (2 <= 2)%nat /\
    (List.length (@nil (tensor vec3)) < 2)%nat /\
    sample unit randn_zero (tensor mat3 * tensor vec3) pair d 1 1 2
      None None (Some []) None tt = Err IndexError.
Proof.
  destruct (init_defined zero_model 0.1 1.0 1.0 30 128) as [d Hd]; [lia |].
  exists d. split; [exact Hd |]. split; [lia |]. split; [simpl; lia |].
  apply (sample_trans_noise_too_short unit randn_zero (tensor mat3 * tensor vec3) pair
           d 1 1 2 None None [] None tt); simpl; lia.
Defined.

(** ** Random rotation vectors *)

Lemma vdiv_vscale (v : vec3) (c : R) : vdiv v c = vscale (/ c) v.
Proof. destruct v. unfold vdiv, vscale. apply vec3_eq; simpl; unfold Rdiv; ring. Qed.

Section RandomRotationProperties.

Variable rng : Type.
Variable rand : rng -> tensor R * rng.
Variable randn : rng -> tensor vec3 * rng.

Lemma checked_normalize_ok (B L : nat) (x : tensor vec3) :
  (forall b l, (b < B)%nat -> (l < L)%nat -> norm (x b l) <> 0) ->
  checked_normalize B L x = Ok (fun b l => vdiv (x b l) (norm (x b l))).
Proof.
  intros H. unfold checked_normalize.
  destruct (forallb _ (seq 0 B)) eqn:E; [reflexivity |].
  destruct (forallb_false_exists _ _ E) as (b & Hb & E').
  destruct (forallb_false_exists _ _ E') as (l & Hl & E'').
  apply in_seq in Hb. apply in_seq in Hl.
  destruct (Req_dec_T (norm (x b l)) 0) as [Hz | Hz]; [| discriminate].
  exfalso. apply (H b l); [lia | lia | exact Hz].
Qed.

Lemma checked_normalize_inv (B L : nat) (x y : tensor vec3) :
  checked_normalize B L x = Ok y ->
  (forall b l, (b < B)%nat -> (l < L)%nat -> norm (x b l) <> 0) /\
  y = fun b l => vdiv (x b l) (norm (x b l)).
Proof.
  unfold checked_normalize.
  destruct (forallb _ (seq 0 B)) eqn:E; [| discriminate].
  intros Heq. injection Heq as <-. split; [| reflexivity].
  intros b l Hb Hl. rewrite forallb_forall in E.
  assert (Hin : In b (seq 0 B)) by (apply in_seq; lia).
  apply E in Hin. rewrite forallb_forall in Hin.
  assert (Hin' : In l (seq 0 L)) by (apply in_seq; lia).
  apply Hin in Hin'.
  destruct (Req_dec_T (norm (x b l)) 0) as [Hz | Hz]; [discriminate | exact Hz].
Qed.

(** X29.  When [igso3_sample] returns, it has drawn the angles first
    and the axes second, and every vector it returns is the normalised
    axis, a unit vector, times the angle [2 PI u] of its uniform draw
    [u]: for [0 <= u < 1] its length is that angle, which lies in
    [[0, 2 PI)] and so can exceed [PI]. *)
Theorem igso3_sample_norm (B L : nat) (g g' : rng) (v : tensor vec3) :
  igso3_sample rng rand randn B L g = Ok (v, g') ->
  g' = snd (randn (snd (rand g))) /\
  forall b l, (b < B)%nat -> (l < L)%nat ->
    let u := fst (rand g) b l in
    let axis := fst (randn (snd (rand g))) b l in
    norm axis <> 0 /\
    v b l = vscale (u * 2 * PI) (vdiv axis (norm axis)) /\
    norm (vdiv axis (norm axis)) = 1 /\
    (0 <= u < 1 -> norm (v b l) = u * 2 * PI /\ 0 <= norm (v b l) < 2 * PI).
Proof.
  unfold igso3_sample. destruct (rand g) as [u g1]. cbn [fst snd].
  destruct (randn g1) as [ax g2]. cbn [fst snd].
  destruct (checked_normalize B L ax) as [y |] eqn:E; cbn [bind]; [| discriminate].
  intros Heq. injection Heq as <- <-.
  destruct (checked_normalize_inv B L ax y E) as [Hnz ->].
  split; [reflexivity |].
  intros b l Hb Hl. cbv zeta.
  pose proof (Hnz b l Hb Hl) as Hn. pose proof (norm_nonneg (ax b l)) as Hp.
  assert (Hunit : norm (vdiv (ax b l) (norm (ax b l))) = 1).
  { rewrite vdiv_vscale, norm_vscale.
    - field. exact Hn.
    - apply Rlt_le, Rinv_0_lt_compat. lra. }
  split; [exact Hn |]. split; [reflexivity |]. split; [exact Hunit |].
  intros Hu. pose proof PI_RGT_0 as Hpi.
  assert (Hk : 0 <= u b l * 2 * PI) by nra.
  rewrite norm_vscale by exact Hk. rewrite Hunit. split; [ring | nra].
Qed.


End RandomRotationProperties.

Lemma igso3_sample_norm_witness :
  exists v g',
    igso3_sample unit rand_half randn_axis 1 1 tt = Ok (v, g') /\
    g' = snd (randn_axis (snd (rand_half tt))) /\
    forall b l, (b < 1)%nat -> (l < 1)%nat ->
      let u := fst (rand_half tt) b l in
      let axis := fst (randn_axis (snd (rand_half tt))) b l in
      norm axis <> 0 /\
      v b l = vscale (u * 2 * PI) (vdiv axis (norm axis)) /\
      norm (vdiv axis (norm axis)) = 1 /\
      (0 <= u < 1 -> norm (v b l) = u * 2 * PI /\ 0 <= norm (v b l) < 2 * PI).
Proof.
  assert (Hn : norm (mkvec 1 0 0) = 1).
  { unfold norm. simpl. replace (1 * 1 + 0 * 0 + 0 * 0) with 1 by ring. apply sqrt_1. }
  assert (E : exists v, igso3_sample unit rand_half randn_axis 1 1 tt = Ok (v, tt)).
  { unfold igso3_sample, rand_half, randn_axis.
    rewrite checked_normalize_ok by (intros; rewrite Hn; lra).
    eexists. reflexivity. }
  destruct E as [v E]. exists v, tt. split; [exact E |].
  exact (igso3_sample_norm unit rand_half randn_axis 1 1 tt tt v E).
Defined.
